(* ===== verification/_CoqProject ===== *)
-Q . S2P
Prelude.v
GoStrings.v
Writer.v
Fmt.v
Spider.v
Utf8.v
HtmlEscape.v
Lexer.v
LexerSteps.v
Parser.v
Exec.v
Template.v
RoundTrip.v
Markers.v
Flags.v
Usage.v
CommandLine.v
Main.v
