(* ===== verification/Prelude.v ===== *)
(** * Verification of [swissknife], the spider boilerplate generator

    The program ([src/tools/cli/swissknife.go], package [main]) reads three
    command-line flags, builds a [Spider] record from them, parses the
    constant [spiderTemplate] with Go's [html/template] and executes it
    on the record, writing the result to standard output.  The engine
    writes piece by piece; a write that fails ends the run with a
    panic.

    ** Parts of the program and where they are modelled

    - [Prelude] (this file): byte strings ([bytes], a list of [ascii]; a Go
      string is a byte sequence), the [result] error monad, contiguous
      substrings ([infix]) with their decision procedure, the tactics and
      the hint database [spider] shared by the other files.
    - [GoStrings]: the functions of Go's [strings] package that the
      template lexer and the usage message call ([HasPrefix], [Index],
      [TrimLeft], [TrimRight], [ReplaceAll]), with their specifications.
    - [Writer]: Go's interface [io.Writer] as the class [Writer], with
      its documented contract as the class [WriterOk], and three
      writers: a buffer that takes every write ([terminal] is the empty
      one), a [File] on a device with a given room left, whose [Write]
      takes what fits and then fails with [ENOSPC], and a [Recorder]
      that keeps the calls apart.  [os.Stdout] (lines 60 and 76) is a
      parameter of [main] of any such type.
    - [Fmt]: [fmt.Printf] (line 60) for a call without operands: the
      loop [doPrintf] over the format, then one [Write].
    - [Spider]: the [Spider] struct (lines 40-46) and the reflective field
      lookup the template engine performs on it ([FieldByName]).
    - [Utf8]: [utf8.DecodeRuneInString], which the escaper calls to walk
      its input rune by rune, and the class [RuneDecoder] that states
      what the escaper relies on; Go's decoder is its instance.
    - [HtmlEscape]: [htmlReplacementTable], [htmlReplacer] and
      [htmlEscaper] of [html/template], the escaper that the engine
      appends to every action of a template in HTML text context.
      [htmlReplacer] is modelled as the loop it is (index [i], mark
      [written], a builder) and proved equal to a byte-wise reference,
      for every decoder that meets [RuneDecoder].
    - [Lexer]: the state machine of [text/template/parse/lex.go] for the
      fragment the program exercises: text, delimiters with trim markers,
      spaces and field accesses.  The lexer's window [input[start:pos]]
      is the field [pending], the unread input [input[pos:]] the field
      [rest].  One [lexStep] runs one state function; [lex] iterates it
      with fuel, and [lex_fuel_enough] shows that [lexFuel] steps suffice
      for every input.
    - [LexerSteps]: the same state machine as a step relation
      [lexTrans] on configurations (a state function is running, or
      [nextItem] has returned an item), without fuel; [eventually] is
      the inductive "on every path, within finitely many steps", and
      [lexReach] collects the items handed over on a path.
    - [Parser]: [parse], [textOrAction], [pipeline], [command] and
      [operand] of [text/template/parse/parse.go] for the same fragment,
      producing a list of [Node]s.
    - [Exec]: [html/template]'s escaping pass for text context and
      [text/template]'s walk over the nodes, one [Write] per node on
      any [Writer]; an error of the evaluation or of a write ends the
      walk and leaves the output written so far in place, as the Go
      code does.  [executeChunks] is the sequence of pieces that a
      walk hands to its writer.
    - [Template]: the constant [spiderTemplate] (lines 19-38), templates
      as lists of text pieces and field placeholders ([segment]; in a
      [piece] the name of a placeholder is any name, a field of
      [Spider] or not, and [renderPieces] is what is written up to the
      first name that is none), the
      rendering specification [render_spec] (interpolation of the
      escaped field values), the interpolation of the raw values that
      the specification of the program describes ([renderVerbatim]), and
      the interface [TemplateEngine] with the law [RendersSpider] that
      [main] needs of an engine; Go's engine ([goEngine]: [parse] and
      [Execute]) is proved to be an instance.
    - [RoundTrip]: [printPieces] and [printSegments], which write a
      list of pieces as template text the way the spider template is
      written, and the pieces that print faithfully ([wfPieces],
      [wfSegments]).
    - [Markers]: where the opening delimiter of a placeholder can occur
      in the output.
    - [Flags]: Module [flag], the package [flag]: [flag.String] on the
      flag set [CommandLine] (lines 50-53) and [flag.Parse] (line 57),
      that is [FlagSet.Parse] with [parseOne] and its loop.  A flag
      set is a record with the maps [formal] and [actual] as stdpp's
      [gmap] and [gset]; a [*string] returned by [flag.String] is the
      name of its flag, read with [deref].  What the package writes to
      standard error is a list of events ([WriteLine] of an error text,
      [UsageCalled]).  [wfFlagSet] is the well-formedness of the flag
      sets that the package builds, [sameDecls] relates flag sets that
      declare the same flags.
    - [Usage]: what [f.usage()] prints: [sortFlags] (the flags in the
      order of their names, with stdpp's [merge_sort]), [UnquoteUsage],
      [isZeroValue], [strconv.Quote] on ASCII text, [PrintDefaults], the
      usage function of [CommandLine], [outputText], the bytes of a
      list of events, and [eventsChunks], the writes they are made
      of.
    - [CommandLine]: command lines described from the outside: a
      [setting] of a flag in its four forms ([-k=v], [--k=v], [-k v],
      [--k v]), the arguments that end the flags, the arguments in
      error, and the rules [parsesTo] that say what [Parse] does with a
      command line.
    - [Main]: [main] (lines 49-79) as a function from the state of
      standard output, the program name and the argument list to an
      [outcome]: standard output afterwards, the events on standard
      error and how the process ended (exit code or panic;
      [exitStatusCode] is the code that the parent process sees).
      [main] calls the model of [flag] directly and any
      [TemplateEngine]; its theorems assume only [RendersSpider] and
      are instantiated with Go's engine.  [mainSpec] is the
      specification of a run on a terminal as a relation;
      [outcomeRefines] relates a run on any writer to the run on a
      terminal; [stderrText] gives the bytes that the program writes
      to standard error and [stderrOn] what a writer receives of them,
      the errors of its writes dropped as package [flag] drops them;
      [stderrAtExit] adds what the Go runtime reports of a panic
      ([printpanics], [fatalpanic]); [usageProgram] and
      [usageArguments] are the command line of the usage comment
      (line 9).

    ** The Go standard library

    The packages [flag], [fmt], [io], [os], [text/template] and
    [html/template] are not part of the repository.  Their behaviour at the call sites of [main] is
    modelled from their sources (Go 1.16 and later) for the constructs
    the program can reach.  A template construct outside the modelled
    fragment (pipes, identifiers, literals, variables, comments, control
    structures, text containing [<]) makes the model answer
    [Unmodelled], [ParseUnmodelled] or [ExecUnmodelled], which are kept
    apart from the errors Go itself reports ([ParseFailed],
    [ExecFailed]), so that no theorem mistakes the model's limit for
    behaviour of the program.  [parseAndExecute_spiderTemplate] shows
    that the template of the program lies inside the fragment.

    ** What the theorems show

    - [Utf8], [HtmlEscape]: Go's decoder meets [RuneDecoder] and its
      width is bounded; the loop of [htmlReplacer] equals the byte-wise
      reference ([htmlEscaper_bytewise]) and is independent of the fuel
      beyond [len(s) - i]; the escaped text contains none of the bytes
      the table replaces except the [&] that opens an entity; escaping is
      the identity exactly on strings free of those bytes, can be undone
      on text without NUL, and at most multiplies the length by five.
    - [Lexer], [Parser]: every state function establishes the
      precondition of the next and decreases a measure, so lexing and
      parsing end within their fuel on every input.
    - [LexerSteps]: liveness of the scan ([lex_eventually_final]: every
      path of the machine reaches a last item, so every call of
      [nextItem] returns); the fuelled driver implements the machine
      ([lex_lexReach]: [lex] answers the items handed over on the path
      to the final configuration, and there is one such path).
    - [RoundTrip]: printing then parsing gives the pieces back,
      whatever the names in the placeholders ([parse_printPieces]: one
      text item and one text node per piece of text, five items and
      one action node per placeholder), and lines 71-78 on any printed
      template write the interpolation of the escaped values
      ([parseAndExecute_printSegments]); the spider template is the
      instance [printSegments spiderSegments]; a placeholder that
      names no field of [Spider] parses, and execution fails at it
      after the pieces in front of it are written
      ([parseAndExecute_unknown_field]); a
      placeholder with trim markers, [{{- .F -}}], removes the white
      space around it ([parse_trim_markers]); an action that is not
      closed, an action that holds nothing and a field name that runs
      into a byte that cannot follow it make [template.Parse] fail with
      the error of Go ([parse_defects]).
    - [Writer]: the three writers keep the contract; what a sequence
      of writes leaves on a stream that keeps it (a prefix of the
      pieces, all of them unless a write failed), on a buffer and on a
      file.
    - [Fmt]: a format without [%] is written as it is, in one write
      ([Printf_plain]).
    - [Exec]: the escaping pass is idempotent; [Execute] is the sequence
      of writes [executeChunks] whatever the writer, one write per
      node and in the order of the nodes ([Execute_chunks]); on a
      writer that keeps the contract it leaves a prefix of what it
      leaves on a terminal, and returns the error of the write that
      failed or what it returns on the terminal ([Execute_refines]);
      what an escaped field action hands to the writer, and its error
      for a name that is no field.
    - [Template]: for every template of text and placeholders the
      evaluation never fails and [Execute] hands the writer the
      interpolation of the escaped values, piece by piece
      ([Execute_segments]); the docstring, the class name, the
      attribute [name] and the list [start_urls] are in the output of
      what parsing and executing [spiderTemplate] writes for every
      Spider ([parseAndExecute_regions]); parsing
      [spiderTemplate] succeeds (the panic
      of line 73 is unreachable) and executing it on a terminal writes
      [render_spec] (the panic of line 77 is reached by a failed write
      only); the output is the
      interpolation of the raw values exactly when no field holds a byte
      that is escaped ([render_spec_verbatim]).
    - [Markers]: the output contains [{{] exactly when the value of a
      field does ([render_spec_leftDelim]): the template leaves no
      marker behind, and a marker in a value is not removed.
    - [Parser]: a text without [{{] parses to one text node.
    - [Flags]: [Parse] terminates; on assignments [-k=v] the last value
      given to a flag wins and absent flags keep their default; [-k v]
      takes the next argument as the value; an undefined flag and a
      flag without its value exit with code 2 after the message and the
      usage, [-h] with code 0; parsing stops at [--] and before the
      first argument that is no flag; under [ExitOnError] the only exit
      codes are 0 and 2, and what is written is the report of the
      error; [wfFlagSet] is an invariant of [Parse], which never
      changes what a flag was declared with ([Parse_wf]).
    - [Usage]: of the arrangements of the flags of a map that files
      each flag under its name, [sortFlags] returns the only one that is
      strictly increasing under Go's byte-wise [<] on the names
      ([sortFlags_spec]), whatever the order of the map and the sorting
      algorithm; the usage message
      depends on the declarations only, so parsing does not change it
      ([usageText_Parse]) and the bytes of an event do not depend on
      when it is printed.
    - [CommandLine]: [Parse] on every command line of settings
      ([Parse_settings]: the last value wins, [Args()] holds what
      follows); [Parse] implements the rules [parsesTo] on every command
      line and the rules derive one outcome only ([Parse_parsesTo]).
    - [Main], on a terminal: every run ends in an exit with code 0, 1
      or 2 and never panics ([main_status]); [main] implements
      [mainSpec], which allows one outcome only ([main_mainSpec]); with
      any engine, a run panics exactly when a name is given and the
      engine fails ([main_panics_iff]); what a run has written for
      each exit code, on standard error byte for byte
      ([main_stderrText]); the runs that exit with code 0 are the
      runs that render and the runs whose command line reaches [-h] or
      [-help] after well-formed settings, which write the usage message
      and nothing else ([main_exit_0]); no run writes to both streams;
      the outcome
      of every command line of settings ([main_settings]); the command
      line of the usage comment (line 9) and a command line with the
      flag that line 48 plans, byte for byte.
    - [Main], on any standard output that keeps the contract of
      [io.Writer]: the run refines the run on a terminal
      ([main_refines]: the same writes to standard error, a prefix of
      the output,
      the same end unless a write of the rendering failed, which is the
      panic of line 77); the exit code is 0, 1 or 2 and code 0 means
      that the whole spider was written ([main_success_complete]); with
      the standard streams on devices with limited room each file holds
      what fits, and a spider that does not fit ends the run with the
      panic on [ENOSPC], which the runtime reports on standard error
      as [panic: write /dev/stdout: no space left on device]
      ([main_no_space], [stderrAtExit]); the room that is enough for
      the spider of a run, from the lengths of the three values
      ([main_enough_room]); the writes of a run with Go's engine, in
      order ([main_writes]).

    ** Fuel

    Go's loops are recursive functions with fuel, each with a theorem
    that the fuel its caller provides is enough.  [htmlReplacer] runs
    its loop [len(s)] times, one per byte at least.  [lex] allows
    [3 * len(input) + 3] state functions: between two bytes read at most
    three state functions run.  [parse] allows one step per item and one
    more.  [flag.Parse] allows one step per argument and one more.  The
    step relation of [LexerSteps] and the rules of [CommandLine] use no
    fuel; [lex_lexReach] and [Parse_parsesTo] relate them to the
    fuelled functions.  The
    result of running out of fuel ([LexOutOfFuel], [ParseOutOfFuel],
    [ParseOutOfFuel] of [flag], [NoAnswer] of [main]) is proved
    unreachable in each case, so no theorem holds only because a
    function gave up.

    ** Not modelled

    Every line of [swissknife.go] that is code is modelled.  What is
    left out belongs to the Go standard library and cannot be reached
    from those lines: the template constructs beyond text and field
    actions and the HTML contexts other than text (the template is a
    constant, and [parseAndExecute_spiderTemplate] and
    [parse_printSegments] show that it lies inside the modelled
    fragment for every [Spider]), and the kinds of flag other than
    strings.  In detail:
    positions and line numbers inside lexer items (they only feed error
    messages), flags that are not strings (the program defines none),
    [strconv.Quote] on bytes above 127 (the defaults of the program are
    ASCII; [Quote] answers [None] there), Unicode letters in
    field names (a byte above 127 inside an action answers
    [Unmodelled]), flags, width, precision and operands of the verbs of
    [fmt.Printf] (the one format string of the program has no verb;
    [doPrintf] answers [None] there), the text of the traceback that
    follows the line of a panic (it names source paths and addresses of
    the build and obeys [GOTRACEBACK]; [fatalpanic] takes it as an
    argument), and of
    the operating system: the signal that the Go runtime raises when a
    write to standard output or standard error finds a closed pipe
    (the process ends inside [Write], which does not return; the
    theorems are about writes that return), and the errors of
    [write(2)] other than [ENOSPC] as a concrete writer (the theorems
    on [WriterOk] cover every writer that keeps the contract, whatever
    its errors).  [os.Args] is taken to hold the program name: [main]
    takes it as an argument, and a process that is started with an
    empty argument vector, where [os.Args[0]] does not exist, is
    outside the model. *)

From Stdlib Require Import Ascii.
From stdpp Require Import base tactics option list strings.

(** ** Byte strings *)

(** A Go [string] is an immutable sequence of bytes. *)
Abbreviation bytes := (list ascii).

Declare Scope bytes_scope.
Delimit Scope bytes_scope with bytes.

(** [B "text"] is the byte string of a literal. *)
Definition B (s : string) : bytes := String.list_ascii_of_string s.
Arguments B s%_string.

(** Bytes that cannot be written inside a literal. *)
Definition LF : ascii := "010"%char.
Definition CR : ascii := "013"%char.
Definition TAB : ascii := "009"%char.
Definition DQUOTE : ascii := "034"%char.
Definition NUL : ascii := "000"%char.

(** The numeric value of a byte, as Go's [int(s[i])]. *)
Definition byte_val (c : ascii) : nat := nat_of_ascii c.

(** ** Results of fallible operations *)

Inductive result (E A : Type) : Type :=
  | Ok (a : A)
  | Err (e : E).
Arguments Ok {E A} a.
Arguments Err {E A} e.

#[export] Instance result_ret {E} : MRet (result E) := λ A, Ok.
#[export] Instance result_bind {E} : MBind (result E) := λ A B f m,
  match m with Ok a => f a | Err e => Err e end.
#[export] Instance result_fmap {E} : FMap (result E) := λ A B f m,
  match m with Ok a => Ok (f a) | Err e => Err e end.

Definition is_Ok {E A} (m : result E A) : Prop := ∃ a, m = Ok a.
Definition is_Err {E A} (m : result E A) : Prop := ∃ e, m = Err e.

#[export] Instance is_Ok_dec {E A} (m : result E A) : Decision (is_Ok m).
Proof.
  destruct m as [a|e]; [left; by exists a | right; intros [a ?]; done].
Defined.

(** ** Contiguous substrings *)

(** [infix s l]: [s] occurs in [l] as a contiguous block, the relation
    behind Go's [strings.Contains]. *)
Definition infix {A} (s l : list A) : Prop := ∃ a b, l = a ++ s ++ b.

Fixpoint infixb `{EqDecision A} (s l : list A) : bool :=
  bool_decide (s `prefix_of` l) ||
  match l with
  | [] => false
  | _ :: l' => infixb s l'
  end.

(** ** Tactics and hints *)

Create HintDb spider discriminated.
Create Rewrite HintDb spider_rw.

(** Case analysis on the [decide], [bool_decide] or [if] at the head of the
    goal, keeping the fact it decided. *)
Ltac case_if :=
  match goal with
  | |- context [bool_decide ?P] => destruct (bool_decide_reflect P)
  | |- context [decide ?P] => destruct (decide P)
  | |- context [if ?b then _ else _] => destruct b eqn:?
  end.

(** Invert a hypothesis and clean up. *)
Ltac invert H := inversion H; clear H; simplify_eq.

(** Reduce binds of [result] in hypotheses to their successful parts. *)
Ltac simplify_result :=
  repeat match goal with
  | H : Ok _ = Ok _ |- _ => injection H as H
  | H : Ok _ = Err _ |- _ => discriminate H
  | H : Err _ = Ok _ |- _ => discriminate H
  | H : Err _ = Err _ |- _ => injection H as H
  | H : mbind _ ?m = Ok _ |- _ =>
      let E := fresh "E" in destruct m eqn:E; simpl in H
  | H : is_Ok (Err _) |- _ => destruct H as [? H]; discriminate H
  end; simplify_eq.

(** ** Proof by enumeration of the 256 bytes *)

Lemma byte_forall (P : ascii → Prop) :
  Forall (λ n, P (ascii_of_nat n)) (seq 0 256) → ∀ c, P c.
Proof.
  intros HP c. rewrite <-(ascii_nat_embedding c).
  rewrite Forall_forall in HP. apply HP, elem_of_seq.
  pose proof (nat_ascii_bounded c). lia.
Qed.

(** Proves [∀ c : ascii, P c] for a decidable [P] by evaluating it on
    every byte. *)
Ltac byte_cases :=
  let c := fresh "c" in
  intros c; pattern c; apply byte_forall;
  apply (bool_decide_unpack _); vm_compute; exact I.

Section result_lemmas.
Context {E A B : Type}.
Implicit Types (m : result E A) (f : A → result E B).

Lemma bind_Ok m f b :
  m ≫= f = Ok b ↔ ∃ a, m = Ok a ∧ f a = Ok b.
Proof.
  destruct m as [a|e]; unfold mbind, result_bind; split.
  - intros ?. by exists a.
  - by intros (? & [= <-] & ?).
  - done.
  - by intros (? & ? & ?).
Qed.

Lemma bind_Err m f e :
  m ≫= f = Err e ↔ m = Err e ∨ ∃ a, m = Ok a ∧ f a = Err e.
Proof.
  destruct m as [a|e']; unfold mbind, result_bind; split.
  - intros ?. right. by exists a.
  - by intros [?|(? & [= <-] & ?)].
  - intros [= ->]. by left.
  - by intros [[= ->]|(? & ? & ?)].
Qed.

Lemma is_Ok_Ok (a : A) : is_Ok (E:=E) (Ok a).
Proof. by exists a. Qed.

Lemma not_is_Ok_Err (e : E) : ¬ is_Ok (A:=A) (Err e).
Proof. by intros [a ?]. Qed.

Lemma is_Ok_or_Err m : is_Ok m ∨ is_Err m.
Proof. destruct m; [left|right]; eexists; done. Qed.
End result_lemmas.

#[export] Hint Resolve is_Ok_Ok : spider.

Section infix_lemmas.
Context {A : Type}.
Implicit Types (s l k : list A) (x y : A).

Lemma infix_nil l : infix [] l.
Proof. by exists [], l. Qed.

Lemma infix_refl l : infix l l.
Proof. exists [], []. by rewrite app_nil_r. Qed.

Lemma infix_nil_r s : infix s [] ↔ s = [].
Proof.
  split; [|intros ->; apply infix_nil].
  intros (a & b & H). symmetry in H.
  apply app_eq_nil in H as [_ H]. by apply app_eq_nil in H as [H _].
Qed.

Lemma infix_prefix s l : s `prefix_of` l → infix s l.
Proof. intros [k ->]. by exists [], k. Qed.

Lemma infix_suffix s l : s `suffix_of` l → infix s l.
Proof. intros [k ->]. exists k, []. by rewrite app_nil_r. Qed.

Lemma infix_app_l s l k : infix s l → infix s (l ++ k).
Proof.
  intros (a & b & ->). exists a, (b ++ k). by rewrite <-!app_assoc.
Qed.

Lemma infix_app_r s l k : infix s l → infix s (k ++ l).
Proof.
  intros (a & b & ->). exists (k ++ a), b. by rewrite <-!app_assoc.
Qed.

Lemma infix_cons_r s x l : infix s l → infix s (x :: l).
Proof. apply (infix_app_r s l [x]). Qed.

Lemma infix_cons_inv s x l :
  infix s (x :: l) ↔ s `prefix_of` (x :: l) ∨ infix s l.
Proof.
  split.
  - intros ([|y a] & b & H); simplify_eq/=.
    + left. by exists b.
    + right. by exists a, b.
  - intros [?|?]; [by apply infix_prefix | by apply infix_cons_r].
Qed.

Lemma infix_trans s l k : infix s l → infix l k → infix s k.
Proof.
  intros (a & b & ->) (c & d & ->). exists (c ++ a), (b ++ d).
  by rewrite <-!app_assoc.
Qed.

Lemma infix_length s l : infix s l → length s ≤ length l.
Proof. intros (a & b & ->). rewrite !length_app. lia. Qed.

Lemma infix_singleton x l : infix [x] l ↔ x ∈ l.
Proof.
  split.
  - intros (a & b & ->). rewrite !elem_of_app, elem_of_cons. auto.
  - intros (a & b & ->)%list_elem_of_split. by exists a, b.
Qed.
End infix_lemmas.

Section infix_decide.
Context `{EqDecision A}.
Implicit Types (s l : list A).

Lemma infixb_spec s l : infixb s l = true ↔ infix s l.
Proof.
  induction l as [|x l IH]; simpl.
  - rewrite orb_false_r, bool_decide_eq_true, infix_nil_r.
    split; [by intros ->%prefix_nil_inv | by intros ->].
  - rewrite orb_true_iff, bool_decide_eq_true, IH.
    symmetry. apply infix_cons_inv.
Qed.

#[export] Instance infix_dec : RelDecision (@infix A).
Proof.
  refine (λ s l, cast_if (decide (infixb s l = true)));
    abstract (by rewrite <-infixb_spec).
Defined.
End infix_decide.

#[export] Hint Resolve infix_nil infix_refl infix_app_l infix_app_r : spider.
