(* ===== verification/GoStrings.v ===== *)
(** * Functions of Go's [strings] package

    The template lexer finds delimiters with [strings.Index] and
    [strings.HasPrefix] and measures the space around trim markers with
    [strings.TrimLeft] and [strings.TrimRight].  They are modelled on
    byte strings with the results Go documents; [Index] answers [None]
    where Go answers -1. *)

From Stdlib Require Import Ascii.
From stdpp Require Import base tactics option list strings.
From S2P Require Import Prelude.

(** [strings.HasPrefix(s, prefix)]. *)
Definition HasPrefix (s prefix : bytes) : bool :=
  bool_decide (prefix `prefix_of` s).

(** [strings.Index(s, substr)]: the index of the first instance of
    [substr] in [s]. *)
Fixpoint Index (s substr : bytes) : option nat :=
  if HasPrefix s substr then Some 0
  else match s with
       | [] => None
       | _ :: s' => S <$> Index s' substr
       end.

(** [strings.TrimLeft(s, cutset)]: [s] without its leading bytes that
    are in [cutset]. *)
Fixpoint TrimLeft (s cutset : bytes) : bytes :=
  match s with
  | c :: s' => if bool_decide (c ∈ cutset) then TrimLeft s' cutset else s
  | [] => []
  end.

(** [strings.TrimRight(s, cutset)]: [s] without its trailing bytes that
    are in [cutset]. *)
Definition TrimRight (s cutset : bytes) : bytes :=
  reverse (TrimLeft (reverse s) cutset).

(** [strings.ReplaceAll(s, old, new)] for an [old] of one byte. *)
Definition ReplaceAll (s : bytes) (old : ascii) (new : bytes) : bytes :=
  s ≫= λ c, if decide (c = old) then new else [c].

Section go_strings.
Implicit Types (s t p sep cutset : bytes) (c : ascii) (i j : nat).

Lemma HasPrefix_true s p : HasPrefix s p = true ↔ p `prefix_of` s.
Proof. apply bool_decide_eq_true. Qed.

Lemma HasPrefix_false s p : HasPrefix s p = false ↔ ¬ p `prefix_of` s.
Proof. apply bool_decide_eq_false. Qed.

Lemma HasPrefix_app s t : HasPrefix (s ++ t) s = true.
Proof. apply HasPrefix_true. by exists t. Qed.

Lemma HasPrefix_nil s : HasPrefix s [] = true.
Proof. apply HasPrefix_true, prefix_nil. Qed.

Lemma HasPrefix_cons c s p :
  HasPrefix (c :: s) (c :: p) = HasPrefix s p.
Proof.
  unfold HasPrefix. apply bool_decide_ext. split.
  - apply prefix_cons_inv_2.
  - apply prefix_cons.
Qed.

Lemma HasPrefix_cons_ne c d s p : c ≠ d → HasPrefix (c :: s) (d :: p) = false.
Proof. intros Hne. apply HasPrefix_false. by intros ?%prefix_cons_inv_1. Qed.

(** [Index] finds an occurrence. *)
Lemma Index_Some_prefix s sep i :
  Index s sep = Some i → sep `prefix_of` drop i s ∧ i ≤ length s.
Proof.
  revert i. induction s as [|c s IH]; intros i; simpl.
  - destruct (HasPrefix [] sep) eqn:Hp; [|done].
    intros [= <-]. by apply HasPrefix_true in Hp.
  - destruct (HasPrefix (c :: s) sep) eqn:Hp.
    + intros [= <-]. split; [by apply HasPrefix_true in Hp|lia].
    + destruct (Index s sep) as [j|] eqn:Hj; [|done].
      intros [= <-]. destruct (IH j eq_refl). split; [done|simpl; lia].
Qed.

(** [Index] finds the first occurrence. *)
Lemma Index_Some_first s sep i j :
  Index s sep = Some i → j < i → ¬ sep `prefix_of` drop j s.
Proof.
  revert i j. induction s as [|c s IH]; intros i j; simpl.
  - destruct (HasPrefix [] sep); [|done]. intros [= <-]. lia.
  - destruct (HasPrefix (c :: s) sep) eqn:Hp; [intros [= <-]; lia|].
    destruct (Index s sep) as [k|] eqn:Hk; [|done].
    intros [= <-] Hj. destruct j as [|j]; simpl.
    + by apply HasPrefix_false.
    + apply (IH k); [done|lia].
Qed.

Lemma Index_None s sep : Index s sep = None ↔ ¬ infix sep s.
Proof.
  induction s as [|c s IH]; simpl.
  - destruct (HasPrefix [] sep) eqn:Hp.
    + apply HasPrefix_true in Hp. split; [done|].
      intros []. by apply infix_prefix.
    + apply HasPrefix_false in Hp. split; [|done].
      intros _ ->%infix_nil_r. apply Hp, prefix_nil.
  - rewrite infix_cons_inv. destruct (HasPrefix (c :: s) sep) eqn:Hp.
    + apply HasPrefix_true in Hp. split; [done|]. intros []. by left.
    + apply HasPrefix_false in Hp. rewrite fmap_None, IH. tauto.
Qed.

Lemma Index_is_Some s sep : is_Some (Index s sep) ↔ infix sep s.
Proof.
  rewrite <-not_eq_None_Some, Index_None.
  split; [|tauto]. intros ?. by destruct (decide (infix sep s)).
Qed.

(** The text before the first occurrence and what starts at it. *)
Lemma Index_Some_split s sep i :
  Index s sep = Some i →
  s = take i s ++ drop i s ∧ HasPrefix (drop i s) sep = true ∧
  length (take i s) = i.
Proof.
  intros [Hp Hi]%Index_Some_prefix. rewrite take_drop, length_take.
  split_and!; [done|by apply HasPrefix_true|lia].
Qed.

(** Directly at an occurrence the index is 0. *)
Lemma Index_prefix s sep : HasPrefix s sep = true → Index s sep = Some 0.
Proof. intros Hp. destruct s; simpl; by rewrite Hp. Qed.

(** The first occurrence of a byte. *)
Lemma Index_byte s c t : c ∉ s → Index (s ++ c :: t) [c] = Some (length s).
Proof.
  induction s as [|d s IH]; intros Hc.
  - apply Index_prefix. cbn [app]. by rewrite HasPrefix_cons, HasPrefix_nil.
  - apply not_elem_of_cons in Hc as [Hd Hs]. cbn [app Index].
    rewrite HasPrefix_cons_ne by done. by rewrite IH.
Qed.

Lemma Index_byte_None s c : c ∉ s → Index s [c] = None.
Proof. intros Hc. apply Index_None. by rewrite infix_singleton. Qed.

Lemma ReplaceAll_id s old new : old ∉ s → ReplaceAll s old new = s.
Proof.
  induction s as [|c s IH]; [done|]. rewrite not_elem_of_cons.
  intros [Hc Hs]. unfold ReplaceAll in *. cbn [mbind list_bind].
  rewrite IH by done. by rewrite decide_False by done.
Qed.

Lemma ReplaceAll_app s t old new :
  ReplaceAll (s ++ t) old new = ReplaceAll s old new ++ ReplaceAll t old new.
Proof. apply bind_app. Qed.

Lemma TrimLeft_suffix s cutset : TrimLeft s cutset `suffix_of` s.
Proof.
  induction s as [|c s IH]; simpl; [done|].
  case_bool_decide; [by apply suffix_cons_r|done].
Qed.

Lemma TrimLeft_length s cutset : length (TrimLeft s cutset) ≤ length s.
Proof. apply suffix_length, TrimLeft_suffix. Qed.

Lemma TrimLeft_head s cutset c :
  head (TrimLeft s cutset) = Some c → c ∉ cutset.
Proof.
  induction s as [|d s IH]; simpl; [done|].
  case_bool_decide; [done|]. by intros [= <-].
Qed.

Lemma TrimLeft_id s cutset c : head s = Some c → c ∉ cutset → TrimLeft s cutset = s.
Proof. destruct s; simpl; intros [= <-] ?. by rewrite bool_decide_false. Qed.

Lemma TrimRight_prefix s cutset : TrimRight s cutset `prefix_of` s.
Proof.
  unfold TrimRight. rewrite <-(reverse_involutive s) at 2.
  apply suffix_prefix_reverse, TrimLeft_suffix.
Qed.

Lemma TrimRight_length s cutset : length (TrimRight s cutset) ≤ length s.
Proof. apply prefix_length, TrimRight_prefix. Qed.
End go_strings.

#[export] Hint Resolve TrimLeft_length TrimRight_length : spider.
