(* ===== verification/Writer.v ===== *)
(** * Writers ([io.Writer], [os.Stdout])

    [t.Execute(os.Stdout, spider)] (line 76 of [swissknife.go]) hands
    the template engine a writer, and [fmt.Printf] (line 60) writes to
    the same one.  A writer is Go's interface [io.Writer]: one method,
    [Write(p) (n, err)], which takes a prefix of [p] and reports how
    many bytes it took and what stopped it.

    - [Writer] is the interface, [WriterOk] the contract that the
      documentation of [io.Writer] states; the clients of a writer (the
      walk of [Exec], [main]) are proved against the two.
    - [bytes] is the writer that takes everything (a [bytes.Buffer], a
      terminal); [File] is a file on a device with a given room left,
      which takes what fits and then fails with [ENOSPC]; [Recorder]
      keeps the calls apart.
    - [writeAll] is a sequence of writes that stops at the first one
      that fails, the way the engine writes the pieces of its output;
      [writeEach] is a sequence of writes whose errors are dropped,
      the way package [flag] prints.
    - [Error] is the text of the error of a write to [os.Stdout], which
      the runtime prints when the program panics with it (line 77). *)

From Stdlib Require Import Ascii.
From stdpp Require Import base tactics option list strings.
From S2P Require Import Prelude.

(** ** The interface *)

(** The error numbers of [write(2)] that a [Write] to a standard stream
    can return.  [EPIPE] is not among them: when a write to standard
    output or standard error finds a closed pipe, the Go runtime raises
    [SIGPIPE] and the process ends inside [Write]. *)
Inductive Errno : Type := ENOSPC | EBADF | EIO | EDQUOT | EFBIG.

(** The errors a [Write] returns: the [*fs.PathError] of an [os.File],
    or [io.ErrShortWrite]. *)
Inductive ioError : Type :=
  | PathError (errno : Errno)
  | ErrShortWrite.

(** [Errno.Error()]: the text of an error number, from the table of
    package [syscall]. *)
Definition errnoText (e : Errno) : bytes :=
  match e with
  | ENOSPC => B "no space left on device"
  | EBADF => B "bad file descriptor"
  | EIO => B "input/output error"
  | EDQUOT => B "disk quota exceeded"
  | EFBIG => B "file too large"
  end.

(** The name of the file [os.Stdout]. *)
Definition stdoutName : bytes := B "/dev/stdout".

(** [err.Error()] for the error of a [Write] to [os.Stdout]: a
    [*fs.PathError] prints its operation, the name of the file and the
    text of the error number. *)
Definition Error (e : ioError) : bytes :=
  match e with
  | PathError errno => B "write " ++ stdoutName ++ B ": " ++ errnoText errno
  | ErrShortWrite => B "short write"
  end.

#[export] Instance Errno_eq_dec : EqDecision Errno.
Proof. solve_decision. Defined.

#[export] Instance ioError_eq_dec : EqDecision ioError.
Proof. solve_decision. Defined.

(** [io.Writer].  [Write w p] answers the writer afterwards, the number
    of bytes of [p] it took and the error that stopped it; [written] is
    what the underlying stream holds, which a Go program cannot ask
    for and the contract speaks about. *)
Class Writer (W : Type) : Type := {
  Write : W → bytes → W * nat * option ioError;
  written : W → bytes;
}.
#[global] Hint Mode Writer ! : typeclass_instances.

(** The contract of [io.Writer]: [0 <= n <= len(p)], a non-nil error
    if [n < len(p)], and the stream receives the first [n] bytes of
    [p] after what it held. *)
Class WriterOk (W : Type) `{Writer W} : Prop := {
  Write_count (w : W) p w' n e : Write w p = (w', n, e) → n ≤ length p;
  Write_short (w : W) p w' n e :
    Write w p = (w', n, e) → n < length p → is_Some e;
  Write_written (w : W) p w' n e :
    Write w p = (w', n, e) → written w' = written w ++ take n p;
}.
#[global] Hint Mode WriterOk ! - : typeclass_instances.

(** Writes one after the other, up to the first that fails. *)
Fixpoint writeAll `{Writer W} (w : W) (chunks : list bytes)
    : W * option ioError :=
  match chunks with
  | [] => (w, None)
  | p :: chunks' =>
    match Write w p with
    | (w', _, None) => writeAll w' chunks'
    | (w', _, Some e) => (w', Some e)
    end
  end.

(** Writes one after the other whose counts and errors are dropped,
    the way package [flag] prints to its output. *)
Fixpoint writeEach `{Writer W} (w : W) (chunks : list bytes) : W :=
  match chunks with
  | [] => w
  | p :: chunks' => writeEach (Write w p).1.1 chunks'
  end.

(** ** Three writers *)

(** A buffer takes every write. *)
#[export] Instance buffer_writer : Writer bytes := {|
  Write w p := (w ++ p, length p, None);
  written w := w;
|}.

(** A standard output that takes every write, with nothing written
    yet. *)
Definition terminal : bytes := [].

(** A file on a device: what it holds and the room that is left. *)
Record File : Type := mkFile {
  content : bytes;
  room : nat;
}.

(** [Write] of [os.File]: the system takes what fits; when that is not
    all of [p], the next [write(2)] fails with [ENOSPC]. *)
Definition fileWrite (f : File) (p : bytes) : File * nat * option ioError :=
  if decide (length p ≤ room f) then
    (mkFile (content f ++ p) (room f - length p), length p, None)
  else
    (mkFile (content f ++ take (room f) p) 0, room f, Some (PathError ENOSPC)).

#[export] Instance file_writer : Writer File := {|
  Write := fileWrite;
  written := content;
|}.

(** A writer that keeps the calls of [Write] apart. *)
Record Recorder : Type := mkRecorder { calls : list bytes }.

#[export] Instance recorder_writer : Writer Recorder := {|
  Write r p := (mkRecorder (calls r ++ [p]), length p, None);
  written r := concat (calls r);
|}.

(** ** What the contract gives *)

Section writer_lemmas.
Context `{WriterOk W}.
Implicit Types (w : W) (p : bytes) (chunks : list bytes) (e : ioError).

(** A write that reports no error has taken all of [p]. *)
Lemma Write_complete w p w' n :
  Write w p = (w', n, None) → n = length p ∧ written w' = written w ++ p.
Proof.
  intros Hw. pose proof (Write_count _ _ _ _ _ Hw).
  assert (n = length p) as ->.
  { destruct (decide (n < length p)) as [Hlt|]; [|lia].
    by destruct (Write_short _ _ _ _ _ Hw Hlt). }
  split; [done|]. by rewrite (Write_written _ _ _ _ _ Hw), firstn_all.
Qed.

(** A writer is append-only. *)
Lemma Write_prefix w p w' n eo :
  Write w p = (w', n, eo) → written w `prefix_of` written w'.
Proof. intros Hw. rewrite (Write_written _ _ _ _ _ Hw). by apply prefix_app_r. Qed.

(** What a sequence of writes leaves on the stream: a prefix of the
    pieces put together, all of it unless a write failed. *)
Lemma writeAll_written w chunks w' eo :
  writeAll w chunks = (w', eo) →
  ∃ b, written w' = written w ++ b ∧ b `prefix_of` concat chunks ∧
       (eo = None → b = concat chunks).
Proof.
  revert w. induction chunks as [|p chunks IH]; intros w; simpl.
  - intros [= <- <-]. exists []. by rewrite app_nil_r.
  - destruct (Write w p) as [[w1 n] [e|]] eqn:Hw.
    + intros [= <- <-]. exists (take n p).
      split; [by eapply Write_written|]. split; [|done].
      etrans; [apply prefix_take|by apply prefix_app_r].
    + intros (b & -> & Hb & Hall)%IH.
      destruct (Write_complete _ _ _ _ Hw) as [_ ->].
      exists (p ++ b). rewrite (assoc_L (++)). split; [done|].
      split; [by apply prefix_app|]. by intros ->%Hall.
Qed.

Lemma writeAll_prefix w chunks :
  written w `prefix_of` written (writeAll w chunks).1.
Proof.
  destruct (writeAll w chunks) as [w' eo] eqn:Hw.
  destruct (writeAll_written _ _ _ _ Hw) as (b & Hb & _).
  cbn [fst]. rewrite Hb. by apply prefix_app_r.
Qed.
End writer_lemmas.

(** ** The three writers keep the contract *)

#[export] Instance buffer_writer_ok : WriterOk bytes.
Proof.
  split; intros w p w' n e [= <- <- <-]; [done|lia|by rewrite firstn_all].
Qed.

#[export] Instance file_writer_ok : WriterOk File.
Proof.
  split; intros f p f' n e; cbn [Write written file_writer]; unfold fileWrite;
    case_decide; intros [= <- <- <-]; cbn [content]; try done; try lia.
  by rewrite firstn_all.
Qed.

#[export] Instance recorder_writer_ok : WriterOk Recorder.
Proof.
  split; intros r p r' n e [= <- <- <-]; [done|lia|].
  cbn. by rewrite concat_app, firstn_all; cbn; rewrite app_nil_r.
Qed.

Section writers.
Implicit Types (p wr : bytes) (chunks : list bytes) (f : File).

Lemma writeAll_app `{Writer W} (w : W) chunks1 chunks2 :
  writeAll w (chunks1 ++ chunks2) =
  match writeAll w chunks1 with
  | (w', None) => writeAll w' chunks2
  | r => r
  end.
Proof.
  revert w. induction chunks1 as [|p chunks1 IH]; intros w; simpl; [done|].
  by destruct (Write w p) as [[w' n] [e|]].
Qed.

(** A buffer holds the pieces one after the other. *)
Lemma writeAll_buffer wr chunks :
  writeAll wr chunks = (wr ++ concat chunks, None).
Proof.
  revert wr. induction chunks as [|p chunks IH]; intros wr; simpl.
  - by rewrite app_nil_r.
  - by rewrite IH, (assoc_L (++)).
Qed.

(** A recorder holds the pieces. *)
Lemma writeAll_recorder r chunks :
  writeAll r chunks = (mkRecorder (calls r ++ chunks), None).
Proof.
  revert r. induction chunks as [|p chunks IH]; intros [l]; simpl.
  - by rewrite app_nil_r.
  - by rewrite IH; cbn; rewrite <-(assoc_L (++)).
Qed.

(** A file holds what fits of the pieces, and the sequence fails
    exactly when they do not all fit. *)
Lemma writeAll_file f chunks :
  writeAll f chunks =
  if decide (length (concat chunks) ≤ room f) then
    (mkFile (content f ++ concat chunks) (room f - length (concat chunks)), None)
  else
    (mkFile (content f ++ take (room f) (concat chunks)) 0,
     Some (PathError ENOSPC)).
Proof.
  revert f. induction chunks as [|p chunks IH]; intros [c n].
  - cbn. rewrite decide_True by lia. by rewrite app_nil_r, Nat.sub_0_r.
  - cbn [writeAll Write file_writer concat]. unfold fileWrite. cbn [room content].
    rewrite length_app. destruct (decide (length p ≤ n)) as [Hp|Hp].
    + rewrite IH. cbn [room content].
      rewrite take_app_ge, <-!(assoc_L (++)) by done.
      repeat case_decide; try lia; [|done]. do 2 f_equal. lia.
    + rewrite decide_False, take_app_le by lia. done.
Qed.

Lemma writeEach_app `{Writer W} (w : W) chunks1 chunks2 :
  writeEach w (chunks1 ++ chunks2) = writeEach (writeEach w chunks1) chunks2.
Proof. revert w. induction chunks1 as [|p chunks1 IH]; intros w; cbn; [done|apply IH]. Qed.

(** Writes whose errors are dropped: a buffer holds the pieces, a file
    what fits of them. *)
Lemma writeEach_buffer wr chunks : writeEach wr chunks = wr ++ concat chunks.
Proof.
  revert wr. induction chunks as [|p chunks IH]; intros wr; cbn.
  - by rewrite app_nil_r.
  - by rewrite IH, (assoc_L (++)).
Qed.

Lemma fileWrite_file f p :
  (fileWrite f p).1.1 = mkFile (content f ++ take (room f) p) (room f - length p).
Proof.
  unfold fileWrite. case_decide; cbn; [by rewrite take_ge|].
  f_equal. lia.
Qed.

Lemma writeEach_file f chunks :
  writeEach f chunks =
  mkFile (content f ++ take (room f) (concat chunks))
         (room f - length (concat chunks)).
Proof.
  revert f. induction chunks as [|p chunks IH]; intros [c n].
  - cbn. by rewrite take_nil, app_nil_r, Nat.sub_0_r.
  - cbn [writeEach Write file_writer concat]. rewrite fileWrite_file, IH.
    cbn [content room].
    rewrite take_app, length_app, <-(assoc_L (++)). f_equal. lia.
Qed.
End writers.
