(* ===== verification/Fmt.v ===== *)
(** * Formatted output ([fmt.Printf])

    Line 60 of [swissknife.go] calls [fmt.Printf] with a format and no
    operand.  [Printf] formats into a buffer ([doPrintf]) and hands the
    buffer to [os.Stdout] in one [Write], whose count and error the
    program drops.

    [doPrintf] is the loop of [fmt/print.go] for a call without
    operands: text is copied up to the next [%]; [%%] is a percent sign;
    a verb finds no operand and prints as [%!v(MISSING)]; a [%] at the
    end prints as [%!(NOVERB)].  Flags, width, precision and argument
    indexes between the [%] and the verb, and verbs that are not ASCII,
    are outside the model ([None]). *)

From Stdlib Require Import Ascii.
From stdpp Require Import base tactics option list strings.
From S2P Require Import Prelude Writer.

Definition percent : ascii := "%"%char.

(** [noVerbString], [percentBangString] and [missingString]. *)
Definition noVerbString : bytes := B "%!(NOVERB)".
Definition percentBangString : bytes := B "%!".
Definition missingString : bytes := B "(MISSING)".

(** The bytes that start a flag, a width, a precision or an argument
    index after a [%]. *)
Definition verbModifiers : bytes := B "#0+- 123456789*.[".

(** [p.missingArg(verb)]. *)
Definition missingArg (verb : ascii) : bytes :=
  percentBangString ++ [verb] ++ missingString.

(** [p.doPrintf(format, a)] with [len(a) = 0]: what the buffer holds in
    the end. *)
Fixpoint doPrintf (format : bytes) : option bytes :=
  match format with
  | [] => Some []
  | c :: rest =>
    if decide (c = percent) then
      match rest with
      | [] => Some noVerbString
      | verb :: rest' =>
        if decide (verb = percent) then (percent ::.) <$> doPrintf rest'
        else if bool_decide (verb ∈ verbModifiers) then None
        else if decide (byte_val verb < 128) then
          (missingArg verb ++.) <$> doPrintf rest'
        else None
      end
    else (c ::.) <$> doPrintf rest
  end.

(** [fmt.Fprintf(w, format)]: format, then one [Write]. *)
Definition Fprintf `{Writer W} (w : W) (format : bytes)
    : option (W * nat * option ioError) :=
  buf ← doPrintf format; Some (Write w buf).

(** [fmt.Printf(format)] is [Fprintf] on [os.Stdout]. *)
Definition Printf `{Writer W} (Stdout : W) (format : bytes)
    : option (W * nat * option ioError) :=
  Fprintf Stdout format.

Section fmt_lemmas.
Implicit Types (format s : bytes) (c : ascii).

(** A format without [%] is copied as it is. *)
Lemma doPrintf_plain format : percent ∉ format → doPrintf format = Some format.
Proof.
  induction format as [|c format IH]; [done|].
  intros [Hc Hformat]%not_elem_of_cons. cbn [doPrintf].
  by rewrite decide_False, IH by done.
Qed.

(** Text in front of the first [%] is copied. *)
Lemma doPrintf_app s format :
  percent ∉ s → doPrintf (s ++ format) = (s ++.) <$> doPrintf format.
Proof.
  induction s as [|c s IH]; intros Hs; cbn [app];
    [by destruct (doPrintf format)|].
  apply not_elem_of_cons in Hs as [Hc Hs]. cbn [doPrintf].
  rewrite decide_False, IH by done. by destruct (doPrintf format).
Qed.

(** A verb without operand: the output says so. *)
Lemma doPrintf_missing verb format :
  verb ≠ percent → verb ∉ verbModifiers → byte_val verb < 128 →
  doPrintf (percent :: verb :: format) = (missingArg verb ++.) <$> doPrintf format.
Proof.
  intros Hverb Hmod Hascii. cbn [doPrintf].
  by rewrite decide_True, decide_False, bool_decide_false, decide_True by done.
Qed.

(** C39: a format that holds no [%], given no operand, is printed as it
    is and in one write: [Printf] hands the writer the format itself,
    whatever the writer. *)
Theorem Printf_plain `{Writer W} (Stdout : W) format :
  percent ∉ format → Printf Stdout format = Some (Write Stdout format).
Proof. intros Hformat. unfold Printf, Fprintf. by rewrite doPrintf_plain. Qed.
End fmt_lemmas.

(** What [go vet] warns about: verbs without operands and a [%] that
    ends the format are printed, marked as errors. *)
Lemma doPrintf_examples :
  doPrintf (B "%d spiders, 100%") = Some (B "%!d(MISSING) spiders, 100%!(NOVERB)") ∧
  doPrintf (B "100%% done") = Some (B "100% done") ∧
  doPrintf (B "%5d") = None.
Proof. by vm_compute. Qed.

Lemma Printf_plain_witness :
  Printf (mkFile [] 5) (B "error: no name") =
  Some (mkFile (B "error") 0, 5, Some (PathError ENOSPC)).
Proof. rewrite Printf_plain; [done|]. apply (bool_decide_unpack _). by vm_compute. Defined.
