(* ===== verification/Spider.v ===== *)
(** * The parameter model: [struct Spider]

    The record the program fills from its flags (lines 40-46 of
    [swissknife.go]) and the view the template engine has of it: the
    engine resolves a field access [.F] by reflection, looking the name
    [F] up among the exported fields of the struct. *)

From Stdlib Require Import Ascii.
From stdpp Require Import base tactics option list strings.
From S2P Require Import Prelude.

(** [type Spider struct { Name string; Doc string; URL string }] *)
Record Spider : Type := mkSpider {
  Name : bytes;
  Doc : bytes;
  URL : bytes;
}.

#[export] Instance Spider_eq_dec : EqDecision Spider.
Proof. solve_decision. Defined.

(** The fields of the struct type, in declaration order. *)
Inductive SpiderField : Type := FName | FDoc | FURL.

#[export] Instance SpiderField_eq_dec : EqDecision SpiderField.
Proof. solve_decision. Defined.

Definition fieldName (f : SpiderField) : bytes :=
  match f with
  | FName => B "Name"
  | FDoc => B "Doc"
  | FURL => B "URL"
  end.

Definition spiderFields : list SpiderField := [FName; FDoc; FURL].

(** [reflect.Type.FieldByName]: the first field whose name is [name],
    compared byte for byte. *)
Definition FieldByName (name : bytes) : option SpiderField :=
  list_find (λ f, fieldName f = name) spiderFields ≫= λ p, Some p.2.

(** [reflect.Value.FieldByIndex]: the value stored in a field. *)
Definition fieldValue (sp : Spider) (f : SpiderField) : bytes :=
  match f with
  | FName => Name sp
  | FDoc => Doc sp
  | FURL => URL sp
  end.

(** A field access by name, as the engine performs it. *)
Definition lookupField (sp : Spider) (name : bytes) : option bytes :=
  fieldValue sp <$> FieldByName name.

Section spider_lemmas.
Implicit Types (sp : Spider) (f : SpiderField) (name : bytes).

Lemma fieldName_inj : Inj (=) (=) fieldName.
Proof. intros [] [] ?; by simplify_eq. Qed.

Lemma FieldByName_fieldName f : FieldByName (fieldName f) = Some f.
Proof. by destruct f. Qed.

Lemma FieldByName_Some name f :
  FieldByName name = Some f ↔ name = fieldName f.
Proof.
  split; [|intros ->; apply FieldByName_fieldName].
  unfold FieldByName. intros H.
  destruct (list_find _ _) as [[i g]|] eqn:E; [|done].
  apply list_find_Some in E as (_ & <- & _). by injection H as <-.
Qed.

Lemma FieldByName_None name :
  FieldByName name = None ↔ name ∉ fieldName <$> spiderFields.
Proof.
  rewrite list_elem_of_fmap. split.
  - intros H (f & -> & _). by rewrite FieldByName_fieldName in H.
  - intros H. destruct (FieldByName name) as [f|] eqn:E; [|done].
    apply FieldByName_Some in E as ->. destruct H. exists f.
    split; [done|]. destruct f; repeat constructor.
Qed.

(** A field access succeeds exactly for the three names [Name],
    [Doc] and [URL], and yields the value stored in the record. *)
Theorem lookupField_spec sp name v :
  lookupField sp name = Some v ↔
  (name = B "Name" ∧ v = Name sp) ∨ (name = B "Doc" ∧ v = Doc sp) ∨
  (name = B "URL" ∧ v = URL sp).
Proof.
  unfold lookupField. rewrite fmap_Some. split.
  - intros (f & ->%FieldByName_Some & ->). destruct f; auto.
  - intros [[-> ->]|[[-> ->]|[-> ->]]];
      [exists FName | exists FDoc | exists FURL]; done.
Qed.

Lemma lookupField_fieldName sp f :
  lookupField sp (fieldName f) = Some (fieldValue sp f).
Proof. unfold lookupField. by rewrite FieldByName_fieldName. Qed.

(** Field names are case sensitive: [.name] is no field of [Spider]. *)
Lemma lookupField_lowercase sp : lookupField sp (B "name") = None.
Proof. done. Qed.
End spider_lemmas.

#[export] Hint Rewrite FieldByName_fieldName : spider_rw.
