(* ===== verification/Utf8.v ===== *)
(** * Rune decoding ([unicode/utf8])

    [htmlReplacer] walks its input rune by rune with
    [utf8.DecodeRuneInString].  This file states what the escaper needs of
    a decoder as the class [RuneDecoder] and gives the model of Go's
    decoder, [DecodeRuneInString], as its instance.  Runes and byte values
    are numbers of [N]; all values stay far below the width of Go's
    [rune] (int32), so no wrap-around arises. *)

From Stdlib Require Import Ascii NArith ZArith Lia.
From stdpp Require Import base tactics option list numbers.
From S2P Require Import Prelude.

Local Open Scope N_scope.

(** The value of a byte as a number, Go's [rune(s[i])]. *)
Definition byteN (c : ascii) : N := N_of_ascii c.

(** [utf8.RuneSelf]: bytes below it are single-byte runes. *)
Definition RuneSelf : N := 0x80.
(** [utf8.RuneError], the replacement character U+FFFD. *)
Definition RuneError : N := 0xFFFD.

(** What a caller may rely on: a byte below [RuneSelf] decodes to itself
    with width 1; any other first byte yields a rune of at least
    [RuneSelf] and consumes between one and the available bytes, all of
    them at least [RuneSelf]. *)
Class RuneDecoder : Type := {
  decodeRune : bytes → N * nat;
  decodeRune_ascii c s :
    byteN c < RuneSelf → decodeRune (c :: s) = (byteN c, 1%nat);
  decodeRune_multi c s r w :
    RuneSelf ≤ byteN c → decodeRune (c :: s) = (r, w) →
    RuneSelf ≤ r ∧ (1 ≤ w ≤ S (length s))%nat ∧
    Forall (λ b, RuneSelf ≤ byteN b) (take w (c :: s));
}.

(** ** Go's decoder *)

Definition locb : N := 0x80.
Definition hicb : N := 0xBF.
Definition maskx : N := 0x3F.
Definition mask2 : N := 0x1F.
Definition mask3 : N := 0x0F.
Definition mask4 : N := 0x07.

(** Codes of the table [first]: the low three bits are the size of the
    sequence, the high four an index into [acceptRanges]. *)
Definition t_xx : N := 0xF1.
Definition t_as : N := 0xF0.
Definition t_s1 : N := 0x02.
Definition t_s2 : N := 0x13.
Definition t_s3 : N := 0x03.
Definition t_s4 : N := 0x23.
Definition t_s5 : N := 0x34.
Definition t_s6 : N := 0x04.
Definition t_s7 : N := 0x44.

(** [utf8.first]: information about the first byte of a sequence.  The
    256-entry array of the source is constant on these ranges. *)
Definition first (b : N) : N :=
  if b <? 0x80 then t_as
  else if b <? 0xC2 then t_xx
  else if b <? 0xE0 then t_s1
  else if b =? 0xE0 then t_s2
  else if b <? 0xED then t_s3
  else if b =? 0xED then t_s4
  else if b <? 0xF0 then t_s3
  else if b =? 0xF0 then t_s5
  else if b <? 0xF4 then t_s6
  else if b =? 0xF4 then t_s7
  else t_xx.

(** [utf8.acceptRanges]: the range of a valid second byte. *)
Definition acceptRanges (i : N) : N * N :=
  match i with
  | 0 => (locb, hicb)
  | 1 => (0xA0, hicb)
  | 2 => (locb, 0x9F)
  | 3 => (0x90, hicb)
  | 4 => (locb, 0x8F)
  | _ => (0, 0)
  end.

(** [s[i]] where the code has checked [i < len(s)]. *)
Definition byteAt (s : bytes) (i : nat) : N := from_option byteN 0 (s !! i).

(** [utf8.DecodeRuneInString]. *)
Definition DecodeRuneInString (s : bytes) : N * nat :=
  let n := length s in
  if decide (n < 1)%nat then (RuneError, 0%nat) else
  let s0 := byteAt s 0 in
  let x := first s0 in
  if t_as <=? x then ((if x =? t_xx then RuneError else s0), 1%nat) else
  let sz := N.to_nat (N.land x 7) in
  let accept := acceptRanges (N.shiftr x 4) in
  if decide (n < sz)%nat then (RuneError, 1%nat) else
  let s1 := byteAt s 1 in
  if (s1 <? accept.1) || (accept.2 <? s1) then (RuneError, 1%nat) else
  if decide (sz ≤ 2)%nat then
    (N.lor (N.shiftl (N.land s0 mask2) 6) (N.land s1 maskx), 2%nat) else
  let s2 := byteAt s 2 in
  if (s2 <? locb) || (hicb <? s2) then (RuneError, 1%nat) else
  if decide (sz ≤ 3)%nat then
    (N.lor (N.lor (N.shiftl (N.land s0 mask3) 12)
                  (N.shiftl (N.land s1 maskx) 6)) (N.land s2 maskx), 3%nat) else
  let s3 := byteAt s 3 in
  if (s3 <? locb) || (hicb <? s3) then (RuneError, 1%nat) else
  (N.lor (N.lor (N.lor (N.shiftl (N.land s0 mask4) 18)
                       (N.shiftl (N.land s1 maskx) 12))
                (N.shiftl (N.land s2 maskx) 6)) (N.land s3 maskx), 4%nat).

(** ** The decoder satisfies the interface *)

(** Bitwise or is above both operands. *)
Lemma N_le_lor_l a b : a ≤ N.lor a b.
Proof.
  rewrite <-(N.land_le_r a (N.lor a b)) at 1.
  apply N.eq_le_incl, N.bits_inj. intros n.
  rewrite N.land_spec, N.lor_spec. by destruct (N.testbit a n).
Qed.

Ltac mask_to_mod :=
  unfold mask2, mask3, mask4, maskx;
  change 0x1F with (N.ones 5); change 0x0F with (N.ones 4);
  change 0x07 with (N.ones 3); change 0x3F with (N.ones 6);
  rewrite ?N.land_ones, ?N.shiftl_mul_pow2;
  change (2 ^ 3) with 8; change (2 ^ 4) with 16; change (2 ^ 5) with 32;
  change (2 ^ 6) with 64; change (2 ^ 12) with 4096; change (2 ^ 18) with 262144.

Ltac lia_mod := zify; Z.to_euclidean_division_equations; lia.

Lemma first_spec b :
  (b < 0x80 ∧ first b = t_as) ∨ (first b = t_xx ∧ 0x80 ≤ b) ∨
  (first b = t_s1 ∧ 0xC2 ≤ b ≤ 0xDF) ∨ (first b = t_s2 ∧ b = 0xE0) ∨
  (first b = t_s3 ∧ 0xE1 ≤ b ≤ 0xEF) ∨ (first b = t_s4 ∧ b = 0xED) ∨
  (first b = t_s5 ∧ b = 0xF0) ∨ (first b = t_s6 ∧ 0xF1 ≤ b ≤ 0xF3) ∨
  (first b = t_s7 ∧ b = 0xF4).
Proof.
  unfold first.
  repeat match goal with
  | |- context [?a <? ?c] => destruct (N.ltb_spec a c)
  | |- context [?a =? ?c] => destruct (N.eqb_spec a c)
  end; try (left; split; [lia|done]); right; 
  repeat (first [left; split; [done|lia] | right; split; [done|lia] | right ]).
Qed.

Lemma DecodeRuneInString_ascii c s :
  byteN c < RuneSelf → DecodeRuneInString (c :: s) = (byteN c, 1%nat).
Proof.
  intros Hc. unfold DecodeRuneInString, RuneSelf in *.
  change (byteAt (c :: s) 0) with (byteN c).
  destruct (first_spec (byteN c)) as [[_ ->]|H]; [done|].
  destruct_or!; destruct_and!; lia.
Qed.

Lemma accept_false s1 lo hi :
  (s1 <? lo) || (hi <? s1) = false ↔ lo ≤ s1 ≤ hi.
Proof. rewrite orb_false_iff, !N.ltb_ge. done. Qed.


Lemma N_le_lor_r a b : b ≤ N.lor a b.
Proof. rewrite N.lor_comm. apply N_le_lor_l. Qed.

Lemma lor_ge_l k a b : k ≤ a → k ≤ N.lor a b.
Proof. intros. etrans; [done|apply N_le_lor_l]. Qed.
Lemma lor_ge_r k a b : k ≤ b → k ≤ N.lor a b.
Proof. intros. etrans; [done|apply N_le_lor_r]. Qed.

Ltac lor_bound :=
  first [ apply lor_ge_l; lor_bound | apply lor_ge_r; lor_bound
        | unfold RuneSelf, RuneError, locb, hicb in *; mask_to_mod; lia_mod ].

Ltac norm_code :=
  repeat match goal with
  | |- context [N.to_nat (N.land ?x 7)] =>
      let v := eval vm_compute in (N.to_nat (N.land x 7)) in
      change (N.to_nat (N.land x 7)) with v
  | |- context [acceptRanges ?i] =>
      let v := eval vm_compute in (acceptRanges i) in
      change (acceptRanges i) with v
  | |- context [t_as <=? ?x] =>
      let v := eval vm_compute in (t_as <=? x) in change (t_as <=? x) with v
  | |- context [?x =? t_xx] =>
      let v := eval vm_compute in (x =? t_xx) in change (x =? t_xx) with v
  end.

Ltac decode_leaf :=
  intros [= <- <-]; split_and!;
  [ lor_bound | simpl; lia | simpl; lia
  | repeat constructor; unfold RuneSelf, locb, hicb in *; simpl in *; lia ].

Lemma DecodeRuneInString_multi c s r w :
  RuneSelf ≤ byteN c → DecodeRuneInString (c :: s) = (r, w) →
  RuneSelf ≤ r ∧ (1 ≤ w ≤ S (length s))%nat ∧
  Forall (λ b, RuneSelf ≤ byteN b) (take w (c :: s)).
Proof.
  intros Hc. unfold DecodeRuneInString.
  change (byteAt (c :: s) 0) with (byteN c).
  destruct (first_spec (byteN c)) as [[? _]|H]; [unfold RuneSelf in *; lia|].
  destruct_or!; destruct H as [-> Hr]; norm_code;
  destruct s as [|c1 [|c2 [|c3 s]]];
  cbn [length byteAt lookup list_lookup from_option fst snd];
  repeat match goal with
  | |- context [(?a <? ?lo) || (?hi <? ?a)] =>
      let E := fresh "E" in
      destruct ((a <? lo) || (hi <? a)) eqn:E;
        [| apply accept_false in E]
  | |- _ => case_decide; try lia
  end; decode_leaf.
Qed.

#[export] Instance utf8_decoder : RuneDecoder := {|
  decodeRune := DecodeRuneInString;
  decodeRune_ascii := DecodeRuneInString_ascii;
  decodeRune_multi := DecodeRuneInString_multi;
|}.

(** An empty input decodes to [RuneError] with width 0; [htmlReplacer]
    never asks, its loop runs while [i < len(s)]. *)
Lemma DecodeRuneInString_nil : DecodeRuneInString [] = (RuneError, 0%nat).
Proof. done. Qed.

(** [DecodeRuneInString] never reports a width of more than four
    bytes, nor of more bytes than the string holds. *)
Theorem DecodeRuneInString_width s :
  ((DecodeRuneInString s).2 ≤ 4)%nat ∧ ((DecodeRuneInString s).2 ≤ length s)%nat.
Proof.
  split.
  - unfold DecodeRuneInString.
    repeat first [case_decide | case_match]; simpl; lia.
  - destruct s as [|c s]; [done|].
    destruct (decide (byteN c < RuneSelf)) as [Hc|Hc].
    + rewrite DecodeRuneInString_ascii by done. simpl. lia.
    + destruct (DecodeRuneInString (c :: s)) as [r w] eqn:E.
      apply DecodeRuneInString_multi in E as (_ & ? & _); [simpl; lia|lia].
Qed.
