(* ===== verification/HtmlEscape.v ===== *)
(** * The HTML escaper of [html/template]

    [main] executes its template with [html/template] (line 71), which
    rewrites every action of a template in HTML text context so that its
    value passes through [htmlEscaper] before it is written.  This file
    models [htmlReplacementTable], the loop [htmlReplacer] and
    [htmlEscaper] as they are written in [html/template/html.go], and
    proves the loop equal to a byte-wise reference, [escape_ref].

    The loop is stated over any [RuneDecoder]; [htmlEscaper] calls
    [htmlReplacer] with [badRunes = true], which makes the branch for
    runes outside the table a no-op, and the other setting of that flag
    is not modelled. *)

From Stdlib Require Import Ascii NArith.
From stdpp Require Import base tactics option list numbers strings.
From S2P Require Import Prelude Utf8.

(** The index of a byte in a replacement table, Go's [int(r)] for a
    single-byte rune. *)
Definition byteIdx (c : ascii) : nat := N.to_nat (byteN c).

(** ["�"], the UTF-8 encoding of the replacement character. *)
Definition replacementChar : bytes :=
  [ascii_of_N 0xEF; ascii_of_N 0xBF; ascii_of_N 0xBD].

(** [htmlReplacementTable]: a [[]string] literal with keyed entries; an
    entry that is not set is the empty string, and the length is one
    more than the largest key, ['>']. *)
Definition htmlReplacementTable : list bytes :=
  <[byteIdx NUL := replacementChar]> $
  <[byteIdx DQUOTE := B "&#34;"]> $
  <[byteIdx "&" := B "&amp;"]> $
  <[byteIdx "'" := B "&#39;"]> $
  <[byteIdx "+" := B "&#43;"]> $
  <[byteIdx "<" := B "&lt;"]> $
  <[byteIdx ">" := B "&gt;"]> $
  replicate (S (byteIdx ">")) [].

(** [s[lo:hi]]. *)
Definition slice (s : bytes) (lo hi : nat) : bytes := take (hi - lo) (drop lo s).

(** [replacementTable[r]], read after the bound check. *)
Definition tableAt (tbl : list bytes) (r : nat) : bytes := default [] (tbl !! r).

Section replacer.
Context `{RuneDecoder}.

(** The loop of [htmlReplacer]: [i] is the read position, [written] the
    end of the part of [s] already copied, [b] the builder.  It returns
    [written] and the builder when [i] reaches [len(s)]. *)
Fixpoint htmlReplacer_loop (fuel : nat) (s : bytes) (tbl : list bytes)
    (i written : nat) (b : bytes) : nat * bytes :=
  match fuel with
  | 0 => (written, b)
  | S fuel =>
    if decide (i < length s) then
      let '(r, w) := decodeRune (drop i s) in
      if decide (N.to_nat r < length tbl) then
        let repl := tableAt tbl (N.to_nat r) in
        if decide (length repl ≠ 0) then
          htmlReplacer_loop fuel s tbl (i + w) (i + w)
            (b ++ slice s written i ++ repl)
        else htmlReplacer_loop fuel s tbl (i + w) written b
      else htmlReplacer_loop fuel s tbl (i + w) written b
    else (written, b)
  end.

(** [htmlReplacer(s, replacementTable, true)].  Every iteration advances
    [i] by the width of a rune, at least one byte, so [len(s)] iterations
    are enough ([htmlReplacer_loop_fuel]). *)
Definition htmlReplacer (s : bytes) (tbl : list bytes) : bytes :=
  let '(written, b) := htmlReplacer_loop (length s) s tbl 0 0 [] in
  if decide (written = 0) then s else b ++ drop written s.

(** [htmlEscaper] applied to one string argument: [stringify] returns the
    string itself with content type plain, so the replacer runs. *)
Definition htmlEscaper (s : bytes) : bytes := htmlReplacer s htmlReplacementTable.

End replacer.

(** ** The byte-wise reference *)

(** What one byte becomes: its table entry when there is a non-empty
    one, itself otherwise. *)
Definition escapeByte (tbl : list bytes) (c : ascii) : bytes :=
  match tbl !! byteIdx c with
  | Some (x :: repl) => x :: repl
  | _ => [c]
  end.

Definition escape_ref (tbl : list bytes) (s : bytes) : bytes :=
  s ≫= escapeByte tbl.

(** What escaping does to one byte, read off the entries of the table:
    the reference that [htmlEscaper] is proved to implement. *)
Definition htmlEscapeByte (c : ascii) : bytes :=
  if decide (c = NUL) then replacementChar
  else if decide (c = DQUOTE) then B "&#34;"
  else if decide (c = "&"%char) then B "&amp;"
  else if decide (c = "'"%char) then B "&#39;"
  else if decide (c = "+"%char) then B "&#43;"
  else if decide (c = "<"%char) then B "&lt;"
  else if decide (c = ">"%char) then B "&gt;"
  else [c].

(** The bytes [htmlReplacementTable] replaces. *)
Definition htmlSpecial : bytes := [NUL; DQUOTE; "&"; "'"; "+"; "<"; ">"]%char.

(** The bytes that never occur in escaped text: the replaced ones
    except [&], which opens every entity. *)
Definition htmlUnsafe : bytes := [NUL; DQUOTE; "'"; "+"; "<"; ">"]%char.

(** The inverse of the escaper on the entities it produces, used to state
    that escaping loses no information. *)
Fixpoint htmlUnescape (l : bytes) : bytes :=
  match l with
  | "&" :: "#" :: "3" :: "4" :: ";" :: r => DQUOTE :: htmlUnescape r
  | "&" :: "a" :: "m" :: "p" :: ";" :: r => "&" :: htmlUnescape r
  | "&" :: "#" :: "3" :: "9" :: ";" :: r => "'" :: htmlUnescape r
  | "&" :: "#" :: "4" :: "3" :: ";" :: r => "+" :: htmlUnescape r
  | "&" :: "l" :: "t" :: ";" :: r => "<" :: htmlUnescape r
  | "&" :: "g" :: "t" :: ";" :: r => ">" :: htmlUnescape r
  | c :: r => c :: htmlUnescape r
  | [] => []
  end%char.

(** The loop invariant of [htmlReplacer]: the builder followed by the
    pending part [s[written:i]] is the escaped prefix read so far. *)
Definition loop_inv (tbl : list bytes) (s : bytes) (i written : nat)
    (b : bytes) : Prop :=
  written ≤ i ≤ length s ∧ (written = 0 → b = []) ∧
  b ++ slice s written i = escape_ref tbl (take i s).

Arguments escape_ref : simpl never.
Arguments slice : simpl never.

Section slice_lemmas.
Implicit Types (s : bytes) (a b c i w : nat).

Lemma slice_nil s i : slice s i i = [].
Proof. unfold slice. by rewrite Nat.sub_diag. Qed.

Lemma slice_0 s i : slice s 0 i = take i s.
Proof. unfold slice. by rewrite Nat.sub_0_r. Qed.

Lemma slice_app s a b c : a ≤ b ≤ c → slice s a c = slice s a b ++ slice s b c.
Proof.
  intros [??]. unfold slice.
  replace (c - a) with ((b - a) + (c - b)) by lia.
  rewrite <-take_take_drop, drop_drop. do 3 f_equal. lia.
Qed.

Lemma slice_end s a : slice s a (length s) = drop a s.
Proof. unfold slice. rewrite take_ge; [done|]. rewrite length_drop. lia. Qed.

Lemma slice_width s i w : slice s i (i + w) = take w (drop i s).
Proof. unfold slice. f_equal. lia. Qed.

Lemma take_add s i w : take (i + w) s = take i s ++ take w (drop i s).
Proof. by rewrite take_take_drop. Qed.
End slice_lemmas.

Section escape_ref_lemmas.
Implicit Types (tbl : list bytes) (s t : bytes) (c : ascii).

Lemma escape_ref_nil tbl : escape_ref tbl [] = [].
Proof. done. Qed.

Lemma escape_ref_cons tbl c s :
  escape_ref tbl (c :: s) = escapeByte tbl c ++ escape_ref tbl s.
Proof. done. Qed.

Lemma escape_ref_app tbl s t :
  escape_ref tbl (s ++ t) = escape_ref tbl s ++ escape_ref tbl t.
Proof. apply bind_app. Qed.

Lemma escapeByte_tableAt tbl c :
  escapeByte tbl c =
  if decide (length (tableAt tbl (byteIdx c)) ≠ 0) then tableAt tbl (byteIdx c)
  else [c].
Proof.
  unfold escapeByte, tableAt.
  by destruct (tbl !! byteIdx c) as [[|??]|].
Qed.

Lemma escapeByte_out tbl c : length tbl ≤ byteIdx c → escapeByte tbl c = [c].
Proof.
  intros Hc. unfold escapeByte. by rewrite (lookup_ge_None_2 tbl _ Hc).
Qed.

Lemma escape_ref_high tbl s :
  length tbl ≤ 128 → Forall (λ b, (RuneSelf ≤ byteN b)%N) s →
  escape_ref tbl s = s.
Proof.
  intros Htbl. induction 1 as [|c s Hc _ IH]; [done|].
  rewrite escape_ref_cons, IH, escapeByte_out; [done|].
  unfold byteIdx, RuneSelf in *. lia.
Qed.
End escape_ref_lemmas.

Section replacer_correct.
Context `{RuneDecoder}.
Implicit Types (tbl : list bytes) (s b : bytes) (i written fuel : nat).

Lemma loop_inv_init tbl s : loop_inv tbl s 0 0 [].
Proof.
  unfold loop_inv. rewrite slice_nil, take_0. split_and!; [lia..|done|done].
Qed.

Lemma loop_inv_keep tbl s i w written b :
  loop_inv tbl s i written b → i + w ≤ length s →
  escape_ref tbl (take w (drop i s)) = take w (drop i s) →
  loop_inv tbl s (i + w) written b.
Proof.
  intros (? & ? & Hb) ? Hw. split_and!; [lia..|done|].
  rewrite (slice_app s written i (i + w)), slice_width by lia.
  by rewrite app_assoc, Hb, take_add, escape_ref_app, Hw.
Qed.

Lemma loop_inv_repl tbl s i written b c rest :
  loop_inv tbl s i written b → drop i s = c :: rest →
  loop_inv tbl s (i + 1) (i + 1) (b ++ slice s written i ++ escapeByte tbl c).
Proof.
  intros (? & ? & Hb) Hd.
  assert (i < length s).
  { apply (f_equal length) in Hd. rewrite length_drop in Hd. simpl in Hd. lia. }
  split_and!; [lia..|lia|].
  rewrite slice_nil, app_nil_r, app_assoc, Hb, take_add, escape_ref_app, Hd.
  simpl. by rewrite escape_ref_cons, app_nil_r.
Qed.

Lemma loop_inv_final tbl s written b :
  loop_inv tbl s (length s) written b →
  (if decide (written = 0) then s else b ++ drop written s) = escape_ref tbl s.
Proof.
  intros (? & Hnil & Hb). rewrite firstn_all, slice_end in Hb.
  case_decide as Hw; [|done]. by rewrite <-Hb, (Hnil Hw), Hw.
Qed.

Lemma htmlReplacer_loop_inv fuel tbl s i written b :
  length tbl ≤ 128 → length s - i ≤ fuel → loop_inv tbl s i written b →
  loop_inv tbl s (length s) (htmlReplacer_loop fuel s tbl i written b).1
    (htmlReplacer_loop fuel s tbl i written b).2.
Proof.
  intros Htbl. revert i written b.
  induction fuel as [|fuel IH]; intros i written b Hf Hinv; simpl.
  { replace (length s) with i; [done|]. destruct Hinv as ([??] & _). lia. }
  case_decide as Hi;
    [|by replace (length s) with i by (destruct Hinv as ([??] & _); lia)].
  destruct (drop i s) as [|c rest] eqn:Hd.
  { apply (f_equal length) in Hd. rewrite length_drop in Hd. simpl in Hd. lia. }
  assert (S (length rest) = length s - i) as Hlen.
  { apply (f_equal length) in Hd. rewrite length_drop in Hd. simpl in Hd. lia. }
  destruct (decodeRune (c :: rest)) as [r w] eqn:Hdec.
  destruct (decide (byteN c < RuneSelf)%N) as [Hc|Hc].
  - rewrite decodeRune_ascii in Hdec by done. simplify_eq.
    pose proof (loop_inv_repl tbl s i written b c rest Hinv Hd) as Hrepl.
    rewrite escapeByte_tableAt in Hrepl. fold (byteIdx c).
    assert (escapeByte tbl c = [c] → loop_inv tbl s (i + 1) written b) as Hkeep.
    { intros Hesc. apply loop_inv_keep; [done|lia|]. rewrite Hd. simpl.
      by rewrite take_0, escape_ref_cons, Hesc, escape_ref_nil. }
    rewrite escapeByte_tableAt in Hkeep.
    destruct (decide (byteIdx c < length tbl)) as [Hlt|Hge].
    + destruct (decide (length (tableAt tbl (byteIdx c)) ≠ 0));
        apply IH; auto with lia.
    + apply IH; [lia|]. apply Hkeep. unfold tableAt.
      by rewrite lookup_ge_None_2 by lia.
  - apply decodeRune_multi in Hdec as (Hr & Hw & Hall); [|lia].
    rewrite decide_False by (unfold RuneSelf in *; lia).
    apply IH; [lia|]. apply loop_inv_keep; [done|lia|].
    rewrite Hd. by apply escape_ref_high.
Qed.

(** For a table of at most 128 entries, the loop of [htmlReplacer]
    computes the byte-wise replacement [escape_ref]. *)
Lemma htmlReplacer_escape_ref tbl s :
  length tbl ≤ 128 → htmlReplacer s tbl = escape_ref tbl s.
Proof.
  intros Htbl. unfold htmlReplacer.
  pose proof (htmlReplacer_loop_inv (length s) tbl s 0 0 [] Htbl) as Hinv.
  destruct (htmlReplacer_loop _ _ _ _ _ _) as [written b].
  apply loop_inv_final, Hinv; [lia|apply loop_inv_init].
Qed.
End replacer_correct.

(** ** Properties of [htmlEscaper] *)

Lemma escapeByte_html_safe :
  ∀ c, Forall (λ x, x ∉ htmlUnsafe) (escapeByte htmlReplacementTable c).
Proof. byte_cases. Qed.

Lemma escapeByte_html_length :
  ∀ c, 1 ≤ length (escapeByte htmlReplacementTable c) ≤ 5.
Proof. byte_cases. Qed.

Lemma escapeByte_html_id :
  ∀ c, c ∉ htmlSpecial → escapeByte htmlReplacementTable c = [c].
Proof. byte_cases. Qed.

Lemma escapeByte_html_special :
  ∀ c, c ∈ htmlSpecial → 3 ≤ length (escapeByte htmlReplacementTable c).
Proof. byte_cases. Qed.

Lemma htmlUnescape_escapeByte c X :
  c ≠ NUL →
  htmlUnescape (escapeByte htmlReplacementTable c ++ X) = c :: htmlUnescape X.
Proof. destruct c as [[] [] [] [] [] [] [] []]; done. Qed.

Section html_escaper.
Context `{RuneDecoder}.
Implicit Types (s t : bytes) (c : ascii).

Lemma htmlEscaper_escape_ref s :
  htmlEscaper s = escape_ref htmlReplacementTable s.
Proof. apply htmlReplacer_escape_ref. vm_compute. lia. Qed.

Lemma htmlEscaper_nil : htmlEscaper [] = [].
Proof. by rewrite htmlEscaper_escape_ref. Qed.

Lemma htmlEscaper_cons c s :
  htmlEscaper (c :: s) = escapeByte htmlReplacementTable c ++ htmlEscaper s.
Proof. by rewrite !htmlEscaper_escape_ref. Qed.

Lemma htmlEscaper_app s t : htmlEscaper (s ++ t) = htmlEscaper s ++ htmlEscaper t.
Proof. rewrite !htmlEscaper_escape_ref. apply escape_ref_app. Qed.

(** C35: text escaped by [htmlEscaper] contains no NUL, quote, apostrophe,
    plus, [<] or [>], whatever the input. *)
Theorem htmlEscaper_safe s : Forall (λ x, x ∉ htmlUnsafe) (htmlEscaper s).
Proof.
  induction s as [|c s IH]; [by rewrite htmlEscaper_nil|].
  rewrite htmlEscaper_cons. apply Forall_app. split; [|done].
  apply escapeByte_html_safe.
Qed.

Lemma htmlEscaper_length_ge s : length s ≤ length (htmlEscaper s).
Proof.
  induction s as [|c s IH]; [by rewrite htmlEscaper_nil|].
  rewrite htmlEscaper_cons, length_app. simpl.
  pose proof (escapeByte_html_length c). lia.
Qed.

Lemma htmlEscaper_length_le s : length (htmlEscaper s) ≤ 5 * length s.
Proof.
  induction s as [|c s IH]; [by rewrite htmlEscaper_nil|].
  rewrite htmlEscaper_cons, length_app. simpl.
  pose proof (escapeByte_html_length c). lia.
Qed.

(** C37: escaping never shortens a string and at most multiplies its
    length by five. *)
Theorem htmlEscaper_length s :
  length s ≤ length (htmlEscaper s) ≤ 5 * length s.
Proof. split; [apply htmlEscaper_length_ge|apply htmlEscaper_length_le]. Qed.

(** The loop against the reference, byte by byte. *)
Lemma htmlEscaper_bind s : htmlEscaper s = s ≫= htmlEscapeByte.
Proof.
  rewrite htmlEscaper_escape_ref. unfold escape_ref.
  apply list_bind_ext; [|done]. byte_cases.
Qed.

(** C6: [htmlEscaper], the rune-wise loop of [htmlReplacer] over the
    replacement table, replaces each of the seven special bytes by its
    entity and copies every other byte, whatever the decoder makes of the
    bytes above 127. *)
Theorem htmlEscaper_bytewise s : htmlEscaper s = s ≫= htmlEscapeByte.
Proof. apply htmlEscaper_bind. Qed.

Lemma htmlEscaper_id s :
  Forall (λ c, c ∉ htmlSpecial) s → htmlEscaper s = s.
Proof.
  induction 1 as [|c s Hc _ IH]; [by rewrite htmlEscaper_nil|].
  by rewrite htmlEscaper_cons, IH, escapeByte_html_id.
Qed.

Lemma htmlEscaper_length_eq s :
  length (htmlEscaper s) = length s → Forall (λ c, c ∉ htmlSpecial) s.
Proof.
  induction s as [|c s IH]; [constructor|].
  rewrite htmlEscaper_cons, length_app. simpl. intros Hlen.
  pose proof (htmlEscaper_length_ge s). pose proof (escapeByte_html_length c).
  constructor; [|apply IH; lia].
  intros Hc%escapeByte_html_special. lia.
Qed.

(** [htmlEscaper] returns its argument unchanged exactly when the
    argument contains none of the seven bytes of the table. *)
Theorem htmlEscaper_id_iff s :
  htmlEscaper s = s ↔ Forall (λ c, c ∉ htmlSpecial) s.
Proof.
  split; [|apply htmlEscaper_id].
  intros Heq. apply htmlEscaper_length_eq. by rewrite Heq.
Qed.

(** C36: on input without NUL, decoding the entities of the escaped text
    gives the input back. *)
Theorem htmlUnescape_htmlEscaper s :
  NUL ∉ s → htmlUnescape (htmlEscaper s) = s.
Proof.
  induction s as [|c s IH]; [by rewrite htmlEscaper_nil|].
  rewrite not_elem_of_cons. intros [??].
  by rewrite htmlEscaper_cons, htmlUnescape_escapeByte, IH.
Qed.

(** NUL and the replacement character are escaped to the same text. *)
Lemma htmlEscaper_NUL_collision :
  htmlEscaper [NUL] = htmlEscaper replacementChar.
Proof. by rewrite !htmlEscaper_escape_ref. Qed.

(** The loop of [htmlReplacer] ends within [len(s) - i] iterations:
    any two amounts of fuel of at least that many give the same result. *)
Theorem htmlReplacer_loop_fuel fuel fuel' tbl s i written b :
  length s - i ≤ fuel → length s - i ≤ fuel' →
  htmlReplacer_loop fuel s tbl i written b =
  htmlReplacer_loop fuel' s tbl i written b.
Proof.
  revert fuel' i written b.
  induction fuel as [|fuel IH]; intros [|fuel'] i written b Hf Hf'; simpl;
    try done; try (by rewrite decide_False by lia).
  case_decide as Hi; [|done].
  destruct (drop i s) as [|c rest] eqn:Hd.
  { apply (f_equal length) in Hd. rewrite length_drop in Hd. simpl in Hd. lia. }
  destruct (decodeRune (c :: rest)) as [r w] eqn:Hdec.
  assert (1 ≤ w) as Hw.
  { destruct (decide (byteN c < RuneSelf)%N) as [Hc|Hc].
    - rewrite decodeRune_ascii in Hdec by done. by simplify_eq.
    - apply decodeRune_multi in Hdec as (_ & ? & _); lia. }
  repeat case_decide; apply IH; lia.
Qed.
End html_escaper.

(** ** The properties at concrete inputs, with Go's decoder *)

Lemma htmlUnescape_htmlEscaper_witness :
  (NUL ∉ B "a<b & 'c'") ∧
  htmlUnescape (htmlEscaper (B "a<b & 'c'")) = B "a<b & 'c'".
Proof.
  assert (NUL ∉ (B "a<b & 'c'")) as Hnul
    by (apply (bool_decide_unpack _); by vm_compute).
  split; [exact Hnul|]. apply (htmlUnescape_htmlEscaper _ Hnul).
Defined.

Lemma htmlReplacer_loop_fuel_witness :
  htmlReplacer_loop 3 (B "a&b") htmlReplacementTable 0 0 [] =
  htmlReplacer_loop 7 (B "a&b") htmlReplacementTable 0 0 [].
Proof. apply htmlReplacer_loop_fuel; simpl; lia. Defined.
