(* ===== verification/Lexer.v ===== *)
(** * The template lexer ([text/template/parse/lex.go])

    [template.Parse] (line 71 of [swissknife.go]) first cuts the template
    text into items.  The lexer is a state machine: a state function
    reads the input from the current position, possibly emits an item,
    and names the state function to run next.

    The lexer's position pair is carried as two byte strings: [pending]
    is [input[start:pos]], the bytes read and not yet emitted, and [rest]
    is [input[pos:]].  Positions and line numbers of items are left out;
    Go uses them only in error messages.

    Modelled: text, the delimiters with their trim markers, runs of
    spaces, field accesses [.F] and the lone dot.  Every other branch of
    [lexInsideAction] (pipes, identifiers, literals, variables,
    parentheses, comments, bytes above 127) answers [Unmodelled]. *)

From Stdlib Require Import Ascii.
From stdpp Require Import base tactics option list strings.
From S2P Require Import Prelude GoStrings.

(** ** Items *)

Inductive itemType : Type :=
  | itemError
  | itemDot
  | itemEOF
  | itemField
  | itemLeftDelim
  | itemRightDelim
  | itemSpace
  | itemText.

#[export] Instance itemType_eq_dec : EqDecision itemType.
Proof. solve_decision. Defined.

(** [item]: the type of the item and its text; for [itemError] the text
    is the message, without the position Go puts before it. *)
Record item : Type := mkItem { typ : itemType; val : bytes }.

#[export] Instance item_eq_dec : EqDecision item.
Proof. solve_decision. Defined.

(** ** Constants *)

Definition leftDelim : bytes := B "{{".
Definition rightDelim : bytes := B "}}".
Definition leftComment : bytes := B "/*".
Definition spaceChars : bytes := [" "%char; TAB; CR; LF].
Definition trimMarker : ascii := "-"%char.
Definition trimMarkerLen : nat := 2.

(** ** The lexer and its primitive moves *)

Record lexer : Type := mkLexer {
  pending : bytes;
  rest : bytes;
  parenDepth : nat;
  insideAction : bool;
}.

Inductive stateFn : Type :=
  | LexText
  | LexLeftDelim
  | LexRightDelim
  | LexInsideAction
  | LexSpace
  | LexField.

(** What running one state function yields: the next state function; an
    item (the function returned [nil] after [emitItem]); the end of the
    scan with an error item ([errorf]); or a construct outside the
    model. *)
Inductive lexStepResult : Type :=
  | Goto (f : stateFn) (l : lexer)
  | Emit (i : item) (l : lexer)
  | Halt (i : item)
  | Unmodelled (what : string).

(** [l.pos += n]. *)
Definition advance (n : nat) (l : lexer) : lexer :=
  mkLexer (pending l ++ take n (rest l)) (drop n (rest l))
          (parenDepth l) (insideAction l).

(** [l.ignore()]: [l.start = l.pos]. *)
Definition ignore (l : lexer) : lexer :=
  mkLexer [] (rest l) (parenDepth l) (insideAction l).

(** [l.thisItem(t)]: the item of the pending bytes; [start] moves up. *)
Definition thisItem (t : itemType) (l : lexer) : item * lexer :=
  (mkItem t (pending l), ignore l).

(** [l.emit(t)]. *)
Definition emit (t : itemType) (l : lexer) : lexStepResult :=
  let '(i, l') := thisItem t l in Emit i l'.

(** [l.next()]: the next byte, [None] at the end of the input. *)
Definition next (l : lexer) : option ascii * lexer :=
  match rest l with
  | [] => (None, l)
  | c :: r => (Some c, mkLexer (pending l ++ [c]) r (parenDepth l) (insideAction l))
  end.

(** [l.backup()]: steps back one byte. *)
Definition backup (l : lexer) : lexer :=
  match reverse (pending l) with
  | [] => l
  | c :: p => mkLexer (reverse p) (c :: rest l) (parenDepth l) (insideAction l)
  end.

(** [l.peek()]. *)
Definition peek (l : lexer) : option ascii := head (rest l).

Definition setInsideAction (b : bool) (l : lexer) : lexer :=
  mkLexer (pending l) (rest l) (parenDepth l) b.

Definition setParenDepth (n : nat) (l : lexer) : lexer :=
  mkLexer (pending l) (rest l) n (insideAction l).

(** ** Character classes and markers *)

(** [isSpace]. *)
Definition isSpace (c : ascii) : bool := bool_decide (c ∈ spaceChars).

Definition isDigit (c : ascii) : bool :=
  bool_decide (48 ≤ nat_of_ascii c ≤ 57).

(** [isAlphaNumeric] on a byte below 128: underscore, letter or digit. *)
Definition isAlphaNumeric (c : ascii) : bool :=
  bool_decide (c = "_"%char) ||
  bool_decide (65 ≤ nat_of_ascii c ≤ 90) ||
  bool_decide (97 ≤ nat_of_ascii c ≤ 122) || isDigit c.

Definition isASCII (c : ascii) : bool := bool_decide (nat_of_ascii c < 128).

(** [hasLeftTrimMarker(s)]: [s] starts with the marker and a space. *)
Definition hasLeftTrimMarker (s : bytes) : bool :=
  match s with
  | c0 :: c1 :: _ => bool_decide (c0 = trimMarker) && isSpace c1
  | _ => false
  end.

(** [hasRightTrimMarker(s)]: [s] starts with a space and the marker. *)
Definition hasRightTrimMarker (s : bytes) : bool :=
  match s with
  | c0 :: c1 :: _ => isSpace c0 && bool_decide (c1 = trimMarker)
  | _ => false
  end.

(** [rightTrimLength(s)]: the number of spaces at the end of [s]. *)
Definition rightTrimLength (s : bytes) : nat :=
  length s - length (TrimRight s spaceChars).

(** [leftTrimLength(s)]: the number of spaces at the start of [s]. *)
Definition leftTrimLength (s : bytes) : nat :=
  length s - length (TrimLeft s spaceChars).

(** [l.atRightDelim()]: (at a right delimiter, with a trim marker). *)
Definition atRightDelim (l : lexer) : bool * bool :=
  if hasRightTrimMarker (rest l) &&
     HasPrefix (drop trimMarkerLen (rest l)) rightDelim then (true, true)
  else if HasPrefix (rest l) rightDelim then (true, false)
  else (false, false).

(** [l.atTerminator()]: what may follow a field name. *)
Definition atTerminator (l : lexer) : bool :=
  match peek l with
  | None => true
  | Some r =>
    isSpace r || bool_decide (r ∈ [".";  ","; "|"; ":"; ")"; "("]%char) ||
    HasPrefix (rest l) rightDelim
  end.

(** ** The state functions *)

(** [lexText]: scans until an opening delimiter. *)
Definition lexText (l : lexer) : lexStepResult :=
  match Index (rest l) leftDelim with
  | Some x =>
    if decide (0 < x) then
      let l1 := advance x l in
      let delimEnd := drop (length leftDelim) (rest l1) in
      let trimLength :=
        if hasLeftTrimMarker delimEnd then rightTrimLength (pending l1) else 0 in
      let i := mkItem itemText (take (length (pending l1) - trimLength) (pending l1)) in
      let l2 := ignore l1 in
      if decide (0 < length (val i)) then Emit i l2 else Goto LexLeftDelim l2
    else Goto LexLeftDelim l
  | None =>
    let l1 := advance (length (rest l)) l in
    if decide (0 < length (pending l1)) then emit itemText l1
    else emit itemEOF l1
  end.

(** [lexLeftDelim]: scans the left delimiter, known to be present. *)
Definition lexLeftDelim (l : lexer) : lexStepResult :=
  let l1 := advance (length leftDelim) l in
  let trimSpace := hasLeftTrimMarker (rest l1) in
  let afterMarker := if trimSpace then trimMarkerLen else 0 in
  if HasPrefix (drop afterMarker (rest l1)) leftComment then
    Unmodelled "comment"
  else
    let '(i, l2) := thisItem itemLeftDelim l1 in
    let l3 := setInsideAction true l2 in
    let l4 := ignore (advance afterMarker l3) in
    Emit i (setParenDepth 0 l4).

(** [lexRightDelim]: scans the right delimiter, known to be present. *)
Definition lexRightDelim (l : lexer) : lexStepResult :=
  let '(_, trimSpace) := atRightDelim l in
  let l1 := if trimSpace then ignore (advance trimMarkerLen l) else l in
  let l2 := advance (length rightDelim) l1 in
  let '(i, l3) := thisItem itemRightDelim l2 in
  let l4 :=
    if trimSpace then ignore (advance (leftTrimLength (rest l3)) l3) else l3 in
  Emit i (setInsideAction false l4).

(** The verb [%#U] of [fmt] on a byte below 128: the code point as
    [U+00XX], and the character in quotes when it is printable. *)
Definition upperhex (n : nat) : ascii :=
  ascii_of_nat (if decide (n < 10) then 48 + n else 55 + n).

Definition formatUnicode (c : ascii) : bytes :=
  let n := nat_of_ascii c in
  B "U+00" ++ [upperhex (n / 16); upperhex (n mod 16)] ++
  (if bool_decide (32 ≤ n < 127) then B " '" ++ [c] ++ B "'" else []).

(** [l.errorf(msg)]: the scan ends with an error item. *)
Definition errorf (msg : bytes) : lexStepResult := Halt (mkItem itemError msg).

(** [lexInsideAction]: scans the elements inside action delimiters. *)
Definition lexInsideAction (l : lexer) : lexStepResult :=
  let '(delim, _) := atRightDelim l in
  if delim then
    if decide (parenDepth l = 0) then Goto LexRightDelim l
    else errorf (B "unclosed left paren")
  else
    match next l with
    | (None, _) => errorf (B "unclosed action")
    | (Some r, l1) =>
      if isSpace r then Goto LexSpace (backup l1)
      else if bool_decide (r = "."%char) then
        match rest l1 with
        | c :: _ => if isDigit c then Unmodelled "number" else Goto LexField l1
        | [] => Unmodelled "number"
        end
      else Unmodelled "action element"
    end.

(** The loop of [lexSpace]: reads spaces while the next byte is one and
    counts them. *)
Fixpoint scanSpaces (pend rst : bytes) (numSpaces : nat) : bytes * bytes * nat :=
  match rst with
  | c :: r => if isSpace c then scanSpaces (pend ++ [c]) r (S numSpaces)
              else (pend, rst, numSpaces)
  | [] => (pend, rst, numSpaces)
  end.

(** [lexSpace]: scans a run of spaces; the first is known to be present.
    A space before a trim-marked right delimiter belongs to the
    delimiter. *)
Definition lexSpace (l : lexer) : lexStepResult :=
  let '(pend, rst, numSpaces) := scanSpaces (pending l) (rest l) 0 in
  let l1 := mkLexer pend rst (parenDepth l) (insideAction l) in
  match last pend with
  | None => Unmodelled "lexSpace entered with no space read"
  | Some c =>
    if hasRightTrimMarker (c :: rst) &&
       HasPrefix (drop trimMarkerLen (c :: rst)) rightDelim then
      let l2 := backup l1 in
      if decide (numSpaces = 1) then Goto LexRightDelim l2
      else emit itemSpace l2
    else emit itemSpace l1
  end.

(** The loop of [lexFieldOrVariable]: reads bytes while they are
    alphanumeric. *)
Fixpoint scanAlphaNumeric (pend rst : bytes) : bytes * bytes :=
  match rst with
  | c :: r => if isAlphaNumeric c then scanAlphaNumeric (pend ++ [c]) r
              else (pend, rst)
  | [] => (pend, rst)
  end.

(** [lexField]: scans a field, [.Alphanumeric]; the dot has been read. *)
Definition lexField (l : lexer) : lexStepResult :=
  if atTerminator l then emit itemDot l
  else
    let '(pend, rst) := scanAlphaNumeric (pending l) (rest l) in
    let l1 := mkLexer pend rst (parenDepth l) (insideAction l) in
    match rst with
    | c :: _ =>
      if negb (isASCII c) then Unmodelled "byte above 127 in action"
      else if atTerminator l1 then emit itemField l1
      else errorf (B "bad character " ++ formatUnicode c)
    | [] => emit itemField l1
    end.

(** One state function. *)
Definition lexStep (f : stateFn) (l : lexer) : lexStepResult :=
  match f with
  | LexText => lexText l
  | LexLeftDelim => lexLeftDelim l
  | LexRightDelim => lexRightDelim l
  | LexInsideAction => lexInsideAction l
  | LexSpace => lexSpace l
  | LexField => lexField l
  end.

(** ** The driver *)

(** The state [nextItem] starts from. *)
Definition startState (l : lexer) : stateFn :=
  if insideAction l then LexInsideAction else LexText.

(** What a scan yields: the items up to the first [itemEOF] or
    [itemError], or the construct that is outside the model. *)
Inductive lexOutcome : Type :=
  | Lexed (items : list item)
  | LexUnmodelled (what : string)
  | LexOutOfFuel.

(** [nextItem] called until the end of the input: state functions run
    one after the other; after an item the scan resumes in the state
    [nextItem] starts from. *)
Fixpoint lexRun (fuel : nat) (f : stateFn) (l : lexer) (acc : list item)
    : lexOutcome :=
  match fuel with
  | 0 => LexOutOfFuel
  | S fuel =>
    match lexStep f l with
    | Goto f' l' => lexRun fuel f' l' acc
    | Emit i l' =>
      if decide (typ i = itemEOF) then Lexed (acc ++ [i])
      else lexRun fuel (startState l') l' (acc ++ [i])
    | Halt i => Lexed (acc ++ [i])
    | Unmodelled what => LexUnmodelled what
    end
  end.

(** [lex(name, input, "", "")]: a lexer at the start of [input]. *)
Definition newLexer (input : bytes) : lexer := mkLexer [] input 0 false.

(** Steps that are enough for any input ([lexRun_fuel]). *)
Definition lexFuel (input : bytes) : nat := 3 * length input + 3.

Definition lex (input : bytes) : lexOutcome :=
  lexRun (lexFuel input) LexText (newLexer input) [].

(** ** Termination measure and preconditions *)

(** The weight of a state function: a step that reads nothing moves to a
    lighter one. *)
Definition lexWeight (f : stateFn) : nat :=
  match f with
  | LexLeftDelim | LexRightDelim => 0
  | LexText | LexSpace => 1
  | LexInsideAction => 2
  | LexField => 3
  end.

(** Three units per unread byte plus the weight of the state. *)
Definition lexMeasure (f : stateFn) (l : lexer) : nat :=
  3 * length (rest l) + lexWeight f.

(** What each state function expects of the lexer it is entered with. *)
Definition lexWf (f : stateFn) (l : lexer) : Prop :=
  match f with
  | LexText | LexInsideAction => pending l = []
  | LexLeftDelim => HasPrefix (rest l) leftDelim = true
  | LexRightDelim => (atRightDelim l).1 = true
  | LexSpace => ∃ c, head (rest l) = Some c ∧ isSpace c = true
  | LexField => pending l ≠ []
  end.

(** What a step guarantees for the step after it. *)
Definition lexStepOk (f : stateFn) (l : lexer) (r : lexStepResult) : Prop :=
  match r with
  | Goto f' l' => lexWf f' l' ∧ lexMeasure f' l' < lexMeasure f l
  | Emit i l' =>
    typ i ≠ itemEOF →
    lexWf (startState l') l' ∧ lexMeasure (startState l') l' < lexMeasure f l
  | Halt _ | Unmodelled _ => True
  end.

Section lexer_moves.
Implicit Types (l : lexer) (n : nat) (t : itemType).

Lemma rest_advance n l : rest (advance n l) = drop n (rest l).
Proof. done. Qed.
Lemma pending_advance n l :
  pending (advance n l) = pending l ++ take n (rest l).
Proof. done. Qed.
Lemma length_rest_advance n l :
  length (rest (advance n l)) = length (rest l) - n.
Proof. apply length_drop. Qed.

Lemma wf_start l : pending l = [] → lexWf (startState l) l.
Proof. unfold startState. by destruct (insideAction l). Qed.

Lemma weight_start l : lexWeight (startState l) ≤ 2.
Proof. unfold startState. destruct (insideAction l); simpl; lia. Qed.

Lemma HasPrefix_length s p : HasPrefix s p = true → length p ≤ length s.
Proof. intros ?%HasPrefix_true. by apply prefix_length. Qed.

Lemma backup_next l c r :
  rest l = c :: r → backup (next l).2 = l.
Proof.
  destruct l as [p rs d a]. simpl. intros ->. unfold next, backup. simpl.
  by rewrite reverse_snoc, reverse_involutive.
Qed.

Lemma atRightDelim_length l :
  (atRightDelim l).1 = true →
  length rightDelim + (if (atRightDelim l).2 then trimMarkerLen else 0)
  ≤ length (rest l).
Proof.
  unfold atRightDelim.
  destruct (hasRightTrimMarker (rest l) && _) eqn:E1; simpl.
  - apply andb_true_iff in E1 as [_ Hp%HasPrefix_length].
    rewrite length_drop in Hp. change (length rightDelim) with 2 in *.
    unfold trimMarkerLen in *. lia.
  - destruct (HasPrefix (rest l) rightDelim) eqn:E2; simpl; [|done].
    intros _. apply HasPrefix_length in E2.
    change (length rightDelim) with 2 in *. lia.
Qed.
End lexer_moves.

Ltac lex_simpl :=
  cbn [rest pending parenDepth insideAction advance ignore setInsideAction
       setParenDepth thisItem emit fst snd typ val lexWeight lexWf
       lexStepOk] in *.

Ltac lex_measure :=
  unfold lexMeasure; lex_simpl;
  rewrite ?length_drop, ?length_app, ?length_take in *;
  cbn [length] in *;
  change (length leftDelim) with 2 in *;
  change (length rightDelim) with 2 in *; unfold trimMarkerLen in *;
  repeat match goal with
  | |- context [startState ?l] =>
      pose proof (weight_start l); generalize dependent (startState l); intros
  end; simpl; try lia.

Section lexer_steps.
Implicit Types (l : lexer) (f : stateFn).

Lemma lexText_ok l : lexWf LexText l → lexStepOk LexText l (lexText l).
Proof.
  unfold lexText. intros Hp. lex_simpl.
  destruct (Index (rest l) leftDelim) as [x|] eqn:Hx.
  - apply Index_Some_split in Hx as (_ & Hpre & Hlen).
    rewrite length_take in Hlen.
    case_decide as Hx0; [case_decide as Hv|]; lex_simpl.
    + intros _. split; [by apply wf_start|]. lex_measure.
    + split; [done|]. lex_measure.
    + replace x with 0 in Hpre by lia. split; [done|]. lex_measure.
  - case_decide as Hv; lex_simpl; [|done]. intros _.
    split; [by apply wf_start|]. rewrite Hp in Hv. simpl in Hv.
    rewrite firstn_all in Hv. lex_measure.
Qed.

Lemma lexLeftDelim_ok l :
  lexWf LexLeftDelim l → lexStepOk LexLeftDelim l (lexLeftDelim l).
Proof.
  unfold lexLeftDelim. intros Hp%HasPrefix_length.
  case_match; [done|]. lex_simpl. intros _. split; [by apply wf_start|].
  lex_measure.
Qed.

Lemma lexRightDelim_ok l :
  lexWf LexRightDelim l → lexStepOk LexRightDelim l (lexRightDelim l).
Proof.
  unfold lexRightDelim. intros Hp%atRightDelim_length.
  destruct (atRightDelim l) as [d trimSpace]. lex_simpl.
  intros _. split; [apply wf_start; by destruct trimSpace|].
  destruct trimSpace; lex_measure.
Qed.

Lemma lexInsideAction_ok l :
  lexWf LexInsideAction l → lexStepOk LexInsideAction l (lexInsideAction l).
Proof.
  unfold lexInsideAction. intros Hp.
  destruct (atRightDelim l) as [d t] eqn:Hd. destruct d.
  { case_decide; [|done]. lex_simpl. rewrite Hd. split; [done|]. lex_measure. }
  destruct (rest l) as [|c r] eqn:Hr; unfold next; rewrite Hr; [done|].
  pose proof (backup_next l c r Hr) as Hb. unfold next in Hb. rewrite Hr in Hb.
  destruct (isSpace c) eqn:Hc.
  - simpl in Hb. rewrite Hb. lex_simpl. split.
    + exists c. by rewrite Hr.
    + lex_measure.
  - case_bool_decide; [|done]. lex_simpl. destruct r as [|c' r]; [done|].
    case_match; [done|]. lex_simpl. split.
    + by intros [_ ?]%app_eq_nil.
    + unfold lexMeasure. lex_simpl. rewrite Hr. simpl. lia.
Qed.

Lemma scanSpaces_spec pend rst n :
  ∃ a b, scanSpaces pend rst n = (pend ++ a, b, n + length a) ∧
         rst = a ++ b ∧ (∀ c, head b = Some c → isSpace c = false).
Proof.
  revert pend n. induction rst as [|c r IH]; intros pend n; simpl.
  { exists [], []. by rewrite app_nil_r, Nat.add_0_r. }
  destruct (isSpace c) eqn:Hc.
  - destruct (IH (pend ++ [c]) (S n)) as (a & b & -> & -> & Hb).
    exists (c :: a), b. rewrite <-app_assoc. simpl.
    split_and!; [do 2 f_equal; lia|done..].
  - exists [], (c :: r). rewrite app_nil_r, Nat.add_0_r.
    split_and!; [done..|]. by intros ? [= <-].
Qed.

Lemma scanAlphaNumeric_spec pend rst :
  ∃ a b, scanAlphaNumeric pend rst = (pend ++ a, b) ∧ rst = a ++ b.
Proof.
  revert pend. induction rst as [|c r IH]; intros pend; simpl.
  { exists [], []. by rewrite app_nil_r. }
  destruct (isAlphaNumeric c).
  - destruct (IH (pend ++ [c])) as (a & b & -> & ->).
    exists (c :: a), b. by rewrite <-app_assoc.
  - exists [], (c :: r). by rewrite app_nil_r.
Qed.

Lemma backup_snoc p c r d a :
  backup (mkLexer (p ++ [c]) r d a) = mkLexer p (c :: r) d a.
Proof. unfold backup. simpl. by rewrite reverse_snoc, reverse_involutive. Qed.

Lemma lexSpace_ok l : lexWf LexSpace l → lexStepOk LexSpace l (lexSpace l).
Proof.
  unfold lexSpace. intros (c0 & Hc0 & Hsp).
  destruct (scanSpaces_spec (pending l) (rest l) 0) as (a & b & -> & Hr & Hb).
  destruct a as [|x a _] using rev_ind.
  { simpl in Hr. rewrite <-Hr in Hb. by rewrite (Hb c0 Hc0) in Hsp. }
  rewrite app_assoc, last_snoc, backup_snoc, length_app, Nat.add_0_l.
  apply (f_equal length) in Hr. rewrite !length_app in Hr. simpl in Hr.
  destruct (hasRightTrimMarker _ && _) eqn:Htrim;
    [case_decide as Hn; simpl in Hn|]; lex_simpl.
  - split; [|lex_measure]. unfold atRightDelim. lex_simpl. by rewrite Htrim.
  - intros _. split; [by apply wf_start|]. lex_measure.
  - intros _. split; [by apply wf_start|]. lex_measure.
Qed.

Lemma lexField_ok l : lexWf LexField l → lexStepOk LexField l (lexField l).
Proof.
  unfold lexField. intros Hp.
  case_match; lex_simpl; [intros _; split; [by apply wf_start|lex_measure]|].
  destruct (scanAlphaNumeric_spec (pending l) (rest l)) as (a & b & -> & Hr).
  apply (f_equal length) in Hr. rewrite length_app in Hr.
  destruct b as [|c b]; repeat case_match; lex_simpl; try done;
    intros _; (split; [by apply wf_start|lex_measure]).
Qed.

(** A state function entered with its precondition hands a lexer that
    meets the precondition of the next state function, with a strictly
    smaller measure. *)
Lemma lexStep_ok f l : lexWf f l → lexStepOk f l (lexStep f l).
Proof.
  destruct f; simpl lexStep;
    auto using lexText_ok, lexLeftDelim_ok, lexRightDelim_ok,
      lexInsideAction_ok, lexSpace_ok, lexField_ok.
Qed.

Lemma lexRun_fuel_enough fuel f l acc :
  lexWf f l → lexMeasure f l < fuel → lexRun fuel f l acc ≠ LexOutOfFuel.
Proof.
  revert f l acc. induction fuel as [|fuel IH]; intros f l acc Hwf Hm; [lia|].
  simpl. pose proof (lexStep_ok f l Hwf) as Hok.
  destruct (lexStep f l) as [f' l'|i l'| |]; simpl in Hok; try done.
  - destruct Hok. apply IH; [done|lia].
  - case_decide as Hi; [done|]. destruct (Hok Hi). apply IH; [done|lia].
Qed.

(** The fuel of [lex] is enough. *)
Lemma lex_fuel_enough input : lex input ≠ LexOutOfFuel.
Proof.
  apply lexRun_fuel_enough; [done|]. unfold lexMeasure, lexFuel. simpl. lia.
Qed.

(** More fuel than needed changes nothing. *)
Lemma lexRun_fuel_mono fuel fuel' f l acc :
  fuel ≤ fuel' → lexRun fuel f l acc ≠ LexOutOfFuel →
  lexRun fuel' f l acc = lexRun fuel f l acc.
Proof.
  revert fuel' f l acc. induction fuel as [|fuel IH];
    intros [|fuel'] f l acc Hle; simpl; try done; try lia.
  destruct (lexStep f l) as [f' l'|i l'| |]; try done.
  - apply IH. lia.
  - case_decide; [done|]. apply IH. lia.
Qed.

(** Lexing ends on every input: the run of the state functions from
    [lexText] stops within [lexFuel] steps, and with any larger number of
    steps allowed it gives the same items. *)
Theorem lex_terminates input fuel :
  lexFuel input ≤ fuel →
  lexRun fuel LexText (newLexer input) [] = lex input ∧
  lex input ≠ LexOutOfFuel.
Proof.
  intros Hfuel. split; [|apply lex_fuel_enough].
  apply lexRun_fuel_mono; [done|apply lex_fuel_enough].
Qed.

(** [lexText] on input that holds no opening delimiter. *)
Lemma lexText_no_delim l :
  Index (rest l) leftDelim = None →
  lexText l =
  let l1 := advance (length (rest l)) l in
  if decide (0 < length (pending l1)) then emit itemText l1
  else emit itemEOF l1.
Proof. intros Hdelim. unfold lexText. by rewrite Hdelim. Qed.

(** Two steps on text without an opening delimiter. *)
Lemma lexRun_plain_text input :
  ¬ infix leftDelim input → input ≠ [] →
  lexRun 2 LexText (newLexer input) [] =
  Lexed [mkItem itemText input; mkItem itemEOF []].
Proof.
  intros Hdelim%Index_None Hne. cbn [lexRun lexStep].
  rewrite lexText_no_delim by done. cbv zeta.
  unfold advance, emit, thisItem, ignore.
  cbn [newLexer pending rest parenDepth insideAction app typ].
  rewrite firstn_all, drop_all.
  rewrite decide_True by (destruct input; [done|simpl; lia]).
  rewrite decide_False by done. cbn [startState insideAction lexStep].
  by rewrite lexText_no_delim.
Qed.

(** Text without an opening delimiter is one text item. *)
Lemma lex_plain_text input :
  ¬ infix leftDelim input → input ≠ [] →
  lex input = Lexed [mkItem itemText input; mkItem itemEOF []].
Proof.
  intros Hdelim Hne. unfold lex. rewrite <-(lexRun_plain_text input) by done.
  apply lexRun_fuel_mono; [unfold lexFuel; lia|].
  by rewrite lexRun_plain_text.
Qed.

(** At the smallest input the bound is three steps. *)
Lemma lex_terminates_witness :
  lexRun 5 LexText (newLexer []) [] = lex [] ∧ lex [] ≠ LexOutOfFuel.
Proof. apply lex_terminates. vm_compute. lia. Defined.
End lexer_steps.
