(* ===== verification/LexerSteps.v ===== *)
(** * The scan as a transition system

    The lexer of [text/template] is a state machine: [nextItem] runs
    state functions one after the other until one of them returns
    [nil], hands the item that was emitted to the parser, and is called
    again.  [Lexer.lexRun] drives it with fuel.  Here the same machine
    is a step relation [lexTrans] on configurations, with no fuel:

    - [eventually] is the inductive "on every path, within finitely
      many steps" of a property of configurations;
    - [nextItem_returns] and [lex_eventually_final] are the liveness of
      the scan: every call of [nextItem] returns, and every scan
      reaches its last item;
    - [lexRun_lexReach] says that the items [lexRun] answers are those
      emitted along the path of [lexTrans] to that last item. *)

From Stdlib Require Import Ascii Wf_nat.
From stdpp Require Import base tactics option list strings.
From S2P Require Import Prelude GoStrings Lexer.

(** A configuration: [nextItem] is running state function [f];
    [nextItem] has returned item [i]; a state function has ended the
    scan with [errorf]; or the input holds a construct outside the
    model. *)
Inductive lexConfig : Type :=
  | Scanning (f : stateFn) (l : lexer)
  | Returned (i : item) (l : lexer)
  | Halted (i : item)
  | OutOfModel (what : string).

(** What running the state function of a configuration leads to. *)
Definition lexResultConfig (r : lexStepResult) : lexConfig :=
  match r with
  | Goto f l => Scanning f l
  | Emit i l => Returned i l
  | Halt i => Halted i
  | Unmodelled what => OutOfModel what
  end.

(** One step of the machine: the loop of [nextItem] runs a state
    function, and the parser asks for the next item unless the last one
    was [itemEOF]. *)
Inductive lexTrans : lexConfig → lexConfig → Prop :=
  | trans_state f l :
    lexTrans (Scanning f l) (lexResultConfig (lexStep f l))
  | trans_nextItem i l :
    typ i ≠ itemEOF → lexTrans (Returned i l) (Scanning (startState l) l).

(** The item that entering a configuration hands to the parser. *)
Definition emitted (c : lexConfig) : list item :=
  match c with
  | Returned i _ | Halted i => [i]
  | Scanning _ _ | OutOfModel _ => []
  end.

(** Paths of the machine with the items handed over on the way. *)
Inductive lexReach : lexConfig → list item → lexConfig → Prop :=
  | reach_refl c : lexReach c [] c
  | reach_step c c' c'' items :
    lexTrans c c' → lexReach c' items c'' →
    lexReach c (emitted c' ++ items) c''.

(** [P] holds on every path from [c] within finitely many steps. *)
Inductive eventually (P : lexConfig → Prop) : lexConfig → Prop :=
  | eventually_now c : P c → eventually P c
  | eventually_step c :
    (∃ c', lexTrans c c') →
    (∀ c', lexTrans c c' → eventually P c') →
    eventually P c.

(** [nextItem] is not running. *)
Definition lexReturned (c : lexConfig) : Prop :=
  match c with Scanning _ _ => False | _ => True end.

(** The scan is over: the last item is [itemEOF] or an error, or the
    input is outside the model. *)
Definition lexFinal (c : lexConfig) : Prop :=
  match c with
  | Scanning _ _ => False
  | Returned i _ => typ i = itemEOF
  | Halted _ | OutOfModel _ => True
  end.

#[export] Instance lexFinal_dec c : Decision (lexFinal c).
Proof. destruct c; apply _. Defined.

(** The configurations that the scan passes through. *)
Definition lexConfigWf (c : lexConfig) : Prop :=
  match c with
  | Scanning f l => lexWf f l
  | Returned i l => typ i ≠ itemEOF → lexWf (startState l) l
  | Halted _ | OutOfModel _ => True
  end.

(** What is left to do: the measure of the lexer, and one step more
    where [nextItem] has to be called again. *)
Definition lexConfigMeasure (c : lexConfig) : nat :=
  match c with
  | Scanning f l => 2 * lexMeasure f l + 1
  | Returned i l =>
    if decide (typ i = itemEOF) then 0
    else 2 * lexMeasure (startState l) l + 2
  | Halted _ | OutOfModel _ => 0
  end.

Section lexer_transitions.
Implicit Types (c : lexConfig) (f : stateFn) (l : lexer) (i : item).
Implicit Types (P Q : lexConfig → Prop) (items acc : list item).

(** ** The step relation *)

Lemma lexTrans_Scanning f l c :
  lexTrans (Scanning f l) c ↔ c = lexResultConfig (lexStep f l).
Proof. split; [by inversion 1|intros ->; constructor]. Qed.

Lemma lexTrans_Returned i l c :
  lexTrans (Returned i l) c ↔ typ i ≠ itemEOF ∧ c = Scanning (startState l) l.
Proof. split; [by inversion 1|intros [? ->]; by constructor]. Qed.

(** The machine is deterministic. *)
Lemma lexTrans_det c c1 c2 : lexTrans c c1 → lexTrans c c2 → c1 = c2.
Proof. by do 2 inversion 1. Qed.

(** It stops exactly in the final configurations. *)
Lemma lexFinal_stuck c c' : lexFinal c → ¬ lexTrans c c'.
Proof. intros Hfinal Htrans. by destruct Htrans. Qed.

Lemma lexTrans_progress c : ¬ lexFinal c → ∃ c', lexTrans c c'.
Proof.
  destruct c as [f l|i l| |]; simpl; [|by eexists; constructor|done..].
  intros _. eexists. constructor.
Qed.

(** A step keeps the configuration well formed and lowers the
    measure. *)
Lemma lexTrans_wf c c' :
  lexConfigWf c → lexTrans c c' →
  lexConfigWf c' ∧ lexConfigMeasure c' < lexConfigMeasure c.
Proof.
  intros Hwf Htrans. destruct Htrans as [f l|i l Hi]; simpl in *.
  - pose proof (lexStep_ok f l Hwf) as Hok.
    destruct (lexStep f l) as [f' l'|i l'| |]; simpl in *;
      [| |split; [done|lia]..].
    + destruct Hok. split; [done|lia].
    + split; [intros Hi; by destruct (Hok Hi)|].
      case_decide as Hi; [lia|]. destruct (Hok Hi). lia.
  - rewrite decide_False by done. split; [by apply Hwf|lia].
Qed.

(** ** Liveness *)

Lemma eventually_mono P Q c :
  (∀ c', P c' → Q c') → eventually P c → eventually Q c.
Proof.
  intros HPQ. induction 1 as [c HP|c Hex _ IH]; [by left; apply HPQ|].
  by right.
Qed.

(** What holds eventually on the paths from the successor holds
    eventually from the configuration. *)
Lemma eventually_trans_step P c c' :
  lexTrans c c' → eventually P c' → eventually P c.
Proof.
  intros Htrans Hev. right; [by exists c'|].
  intros c'' Htrans'. by rewrite (lexTrans_det c c'' c').
Qed.

(** The scan reaches a final configuration from every well-formed
    one: by induction on the measure. *)
Lemma eventually_lexFinal c : lexConfigWf c → eventually lexFinal c.
Proof.
  remember (lexConfigMeasure c) as n eqn:Hn. revert c Hn.
  induction (lt_wf n) as [n _ IH]. intros c -> Hwf.
  destruct (decide (lexFinal c)) as [|Hfinal]; [by left|].
  right; [by apply lexTrans_progress|].
  intros c' Htrans. destruct (lexTrans_wf c c' Hwf Htrans). by eapply IH.
Qed.

(** Every call of [nextItem] returns. *)
Lemma nextItem_returns f l : lexWf f l → eventually lexReturned (Scanning f l).
Proof.
  intros Hwf. apply (eventually_mono lexFinal); [by intros []|].
  by apply eventually_lexFinal.
Qed.

(** Well-formedness is an invariant of the paths. *)
Lemma lexReach_wf c items c' :
  lexReach c items c' → lexConfigWf c → lexConfigWf c'.
Proof.
  induction 1 as [|c c' c'' items Htrans _ IH]; [done|]. intros Hwf.
  by destruct (lexTrans_wf c c' Hwf Htrans) as [? _]; apply IH.
Qed.

(** C26: the scan is live.  From the start of any input and from every
    configuration that the machine reaches from there, on every path
    and within finitely many steps, [nextItem] hands over a last item,
    [itemEOF] or an error, or meets a construct outside the model. *)
Theorem lex_eventually_final input items c :
  lexReach (Scanning LexText (newLexer input)) items c →
  eventually lexFinal c.
Proof. intros Hreach. by eapply eventually_lexFinal, lexReach_wf. Qed.

(** ** The fuelled driver and the machine *)

(** What [lex] answers for a path that ends in [c] with [items] handed
    over. *)
Definition lexAnswer (items : list item) (c : lexConfig) : lexOutcome :=
  match c with
  | OutOfModel what => LexUnmodelled what
  | _ => Lexed items
  end.

Lemma reach_state f l items items' c :
  lexReach (lexResultConfig (lexStep f l)) items c →
  items' = emitted (lexResultConfig (lexStep f l)) ++ items →
  lexReach (Scanning f l) items' c.
Proof. intros Hreach ->. eapply reach_step; [constructor|done]. Qed.

Lemma reach_emit f l i l' :
  lexStep f l = Emit i l' → lexReach (Scanning f l) [i] (Returned i l').
Proof.
  intros Hstep. eapply reach_state; rewrite Hstep; [apply reach_refl|done].
Qed.

Lemma reach_goto f l f' l' items c :
  lexStep f l = Goto f' l' → lexReach (Scanning f' l') items c →
  lexReach (Scanning f l) items c.
Proof. intros Hstep Hreach. by eapply reach_state; rewrite Hstep. Qed.

Lemma reach_emit_next f l i l' items c :
  lexStep f l = Emit i l' → lexReach (Returned i l') items c →
  lexReach (Scanning f l) (i :: items) c.
Proof. intros Hstep Hreach. by eapply reach_state; rewrite Hstep. Qed.

Lemma reach_nextItem i l items c :
  typ i ≠ itemEOF → lexReach (Scanning (startState l) l) items c →
  lexReach (Returned i l) items c.
Proof.
  intros Hi Hreach.
  by apply (reach_step _ (Scanning (startState l) l)); [constructor|].
Qed.

Lemma lexReach_trans c1 items1 c2 items2 c3 :
  lexReach c1 items1 c2 → lexReach c2 items2 c3 →
  lexReach c1 (items1 ++ items2) c3.
Proof.
  induction 1 as [|c1 c' c2 items1 Htrans _ IH]; [done|]. intros Hreach.
  rewrite <-(assoc_L (++)). eapply reach_step; [done|by apply IH].
Qed.

Lemma lexReach_items c items items' c' :
  lexReach c items c' → items = items' → lexReach c items' c'.
Proof. by intros ? <-. Qed.

(** A final configuration is the end of one path only. *)
Lemma lexReach_final_det c items1 c1 items2 c2 :
  lexReach c items1 c1 → lexReach c items2 c2 → lexFinal c1 → lexFinal c2 →
  items1 = items2 ∧ c1 = c2.
Proof.
  intros Hreach1. revert items2.
  induction Hreach1 as [c|c c' c1 items1 Htrans _ IH]; intros items2 Hreach2 Hf1 Hf2.
  - destruct Hreach2 as [|c c' c2 items2 Htrans _]; [done|].
    by destruct (lexFinal_stuck c c').
  - destruct Hreach2 as [|c d c2 items2 Htrans' Hreach2].
    + by destruct (lexFinal_stuck c c').
    + rewrite (lexTrans_det c d c') in * by done.
      by destruct (IH items2 Hreach2 Hf1 Hf2) as [-> ->].
Qed.

(** A run of the driver that ends follows a path of the machine to a
    final configuration and answers the items handed over on it. *)
Lemma lexRun_lexReach fuel f l acc :
  lexRun fuel f l acc ≠ LexOutOfFuel →
  ∃ items c, lexReach (Scanning f l) items c ∧ lexFinal c ∧
    lexRun fuel f l acc = lexAnswer (acc ++ items) c.
Proof.
  revert f l acc. induction fuel as [|fuel IH]; intros f l acc; [done|].
  cbn [lexRun]. destruct (lexStep f l) as [f' l'|i l'|i|what] eqn:Hstep.
  - intros (items & c & Hreach & Hfinal & ->)%IH. exists items, c.
    split; [|done]. eapply reach_state; by rewrite Hstep.
  - case_decide as Hi.
    + intros _. exists [i], (Returned i l'). split; [|done].
      eapply reach_state; rewrite Hstep; [constructor|done].
    + intros (items & c & Hreach & Hfinal & ->)%IH. exists (i :: items), c.
      rewrite <-(assoc_L (++)). split; [|done].
      eapply reach_state; rewrite Hstep; [by apply reach_nextItem|done].
  - intros _. exists [i], (Halted i). split; [|done].
    eapply reach_state; rewrite Hstep; [constructor|done].
  - intros _. exists [], (OutOfModel what). split; [|done].
    eapply reach_state; rewrite Hstep; [constructor|done].
Qed.

(** Any path of the machine from the start of the input to a final
    configuration gives what [lex] answers. *)
Lemma lexReach_lex input items c :
  lexReach (Scanning LexText (newLexer input)) items c → lexFinal c →
  lex input = lexAnswer items c.
Proof.
  intros Hreach Hfinal.
  destruct (lexRun_lexReach (lexFuel input) LexText (newLexer input) [])
    as (items' & c' & Hreach' & Hfinal' & Hlex); [apply lex_fuel_enough|].
  by destruct (lexReach_final_det _ _ _ _ _ Hreach Hreach' Hfinal Hfinal')
    as [-> ->].
Qed.

(** C27: [lex] implements the machine.  From the start of an input the
    machine has a path to a final configuration, and the items that the
    fuelled driver answers for the input are those handed over on that
    path, whichever way the path is found; a construct outside the
    model ends both. *)
Theorem lex_lexReach input :
  (∃ items c,
    lexReach (Scanning LexText (newLexer input)) items c ∧ lexFinal c) ∧
  ∀ items c,
    lexReach (Scanning LexText (newLexer input)) items c → lexFinal c →
    lex input = lexAnswer items c.
Proof.
  split; [|apply lexReach_lex].
  destruct (lexRun_lexReach (lexFuel input) LexText (newLexer input) [])
    as (items & c & Hreach & Hfinal & _); [apply lex_fuel_enough|].
  by exists items, c.
Qed.
End lexer_transitions.

(** Follows the machine from a configuration whose input is known up
    to a tail, one step after the other. *)
Ltac lex_path :=
  repeat first
    [ apply reach_refl
    | eapply reach_nextItem; [done|]
    | eapply reach_state; [|reflexivity]; vm_compute lexResultConfig ].

(** Liveness after the first two items of [{{.Name}}]. *)
Lemma lex_eventually_final_witness :
  eventually lexFinal
    (Returned (mkItem itemField (B ".Name")) (mkLexer [] (B "}}") 0 true)).
Proof.
  apply (lex_eventually_final (B "{{.Name}}")
           [mkItem itemLeftDelim (B "{{"); mkItem itemField (B ".Name")]).
  eapply lexReach_items; [lex_path|done].
Defined.

(** The path of the machine on the input [{{.Name}}], step by step. *)
Lemma lex_lexReach_witness :
  lex (B "{{.Name}}") =
  Lexed [mkItem itemLeftDelim (B "{{"); mkItem itemField (B ".Name");
         mkItem itemRightDelim (B "}}"); mkItem itemEOF []].
Proof.
  apply (proj2 (lex_lexReach (B "{{.Name}}")) _
           (Returned (mkItem itemEOF []) (mkLexer [] [] 0 false)));
    [lex_path|done].
Defined.
