(* ===== verification/Parser.v ===== *)
(** * The template parser ([text/template/parse/parse.go])

    The second half of [template.Parse] (line 71 of [swissknife.go]):
    the items of the lexer become a list of nodes.  The parser reads the
    items one at a time with a short look-ahead; since the lexer does not
    depend on the parser, the model parses the list of items that [lex]
    produces.  Past the end of the list the lexer keeps answering
    [itemEOF].

    Modelled: text nodes and actions whose pipeline is one command made of
    field chains and dots, which is all the lexer of [Lexer] lets through.
    Keywords, declarations, pipes and function calls cannot appear in the
    items and have no case here. *)

From Stdlib Require Import Ascii.
From stdpp Require Import base tactics option list strings.
From S2P Require Import Prelude GoStrings Lexer.

(** ** The parse tree ([text/template/parse/node.go]) *)

(** The operands of a command.  [IdentifierNode] never comes out of the
    parser here; the escaping pass of [html/template] adds it. *)
Inductive ArgNode : Type :=
  | FieldNode (ident : list bytes)
  | DotNode
  | IdentifierNode (name : bytes).

Record CommandNode : Type := mkCommand { Args : list ArgNode }.

Record PipeNode : Type := mkPipe { Cmds : list CommandNode }.

Inductive Node : Type :=
  | TextNode (text : bytes)
  | ActionNode (pipe : PipeNode).

#[export] Instance ArgNode_eq_dec : EqDecision ArgNode.
Proof. solve_decision. Defined.
#[export] Instance CommandNode_eq_dec : EqDecision CommandNode.
Proof. solve_decision. Defined.
#[export] Instance PipeNode_eq_dec : EqDecision PipeNode.
Proof. solve_decision. Defined.
#[export] Instance Node_eq_dec : EqDecision Node.
Proof. solve_decision. Defined.

(** ** Errors *)

(** The errors [Parse] reports, by the call that raises them. *)
Inductive parseError : Type :=
  | ErrLex (msg : bytes)
  | ErrUnexpected (i : item) (context : string)
  | ErrMissingValue (context : string)
  | ErrEmptyCommand
  | ErrDotAfterTerm.

Inductive parseFailure : Type :=
  | ParseFailed (e : parseError)
  | ParseUnmodelled (what : string)
  | ParseOutOfFuel.

(** ** Reading items *)

Definition eofItem : item := mkItem itemEOF [].

(** [t.next()] on the remaining items. *)
Definition nextItem (ts : list item) : item * list item :=
  match ts with
  | i :: ts' => (i, ts')
  | [] => (eofItem, [])
  end.

(** The items from the first that is not a space, as [t.nextNonSpace()]
    leaves them before it returns that item. *)
Fixpoint skipSpace (ts : list item) : list item :=
  match ts with
  | i :: ts' => if decide (typ i = itemSpace) then skipSpace ts' else ts
  | [] => []
  end.

(** [t.unexpected(token, context)]: an error item carries the lexer's
    message. *)
Definition unexpected {A} (i : item) (context : string)
    : result parseFailure A :=
  if decide (typ i = itemError) then Err (ParseFailed (ErrLex (val i)))
  else Err (ParseFailed (ErrUnexpected i context)).

(** The name in a field item, [token.val[1:]]. *)
Definition fieldIdent (i : item) : bytes := drop 1 (val i).

(** ** Operands and commands *)

(** [t.term()]: a dot or a field; any other item is put back and the
    result is [nil]. *)
Definition term (ts : list item) : option ArgNode * list item :=
  let '(i, ts') := nextItem (skipSpace ts) in
  match typ i with
  | itemDot => (Some DotNode, ts')
  | itemField => (Some (FieldNode [fieldIdent i]), ts')
  | _ => (None, skipSpace ts)
  end.

(** The loop of [t.operand()] that adds the fields directly after a
    term to a chain. *)
Fixpoint chainFields (ts : list item) : list bytes * list item :=
  match ts with
  | i :: ts' =>
    if decide (typ i = itemField) then
      let '(fs, ts'') := chainFields ts' in (fieldIdent i :: fs, ts'')
    else ([], ts)
  | [] => ([], [])
  end.

(** [t.operand()]: a term, with the fields that follow it at once. *)
Definition operand (ts : list item)
    : result parseFailure (option ArgNode * list item) :=
  match term ts with
  | (None, ts') => Ok (None, ts')
  | (Some node, ts') =>
    if decide (typ (nextItem ts').1 = itemField) then
      let '(fs, ts'') := chainFields ts' in
      match node with
      | FieldNode ids => Ok (Some (FieldNode (ids ++ fs)), ts'')
      | _ => Err (ParseFailed ErrDotAfterTerm)
      end
    else Ok (Some node, ts')
  end.

(** [t.command()]: operands separated by spaces, up to the right
    delimiter, which is left for the caller. *)
Fixpoint command (fuel : nat) (ts : list item) (args : list ArgNode)
    : result parseFailure (CommandNode * list item) :=
  match fuel with
  | 0 => Err ParseOutOfFuel
  | S fuel =>
    '(o, ts1) ← operand ts;
    let args := args ++ option_list o in
    let '(i, ts2) := nextItem ts1 in
    match typ i with
    | itemSpace => command fuel ts2 args
    | itemRightDelim =>
      if decide (length args = 0) then Err (ParseFailed ErrEmptyCommand)
      else Ok (mkCommand args, ts1)
    | _ => unexpected i "operand"
    end
  end.

(** [t.pipeline("command", itemRightDelim)]: commands up to the right
    delimiter, which is read; an empty pipeline is an error. *)
Fixpoint pipeline (fuel : nat) (ts : list item) (cmds : list CommandNode)
    : result parseFailure (PipeNode * list item) :=
  match fuel with
  | 0 => Err ParseOutOfFuel
  | S fuel =>
    let '(i, ts') := nextItem (skipSpace ts) in
    match typ i with
    | itemRightDelim =>
      if decide (length cmds = 0) then
        Err (ParseFailed (ErrMissingValue "command"))
      else Ok (mkPipe cmds, ts')
    | itemDot | itemField =>
      '(cmd, ts1) ← command (S (length ts)) (skipSpace ts) [];
      pipeline fuel ts1 (cmds ++ [cmd])
    | _ => unexpected i "command"
    end
  end.

(** ** The top level *)

(** [t.textOrAction()]. *)
Definition textOrAction (ts : list item)
    : result parseFailure (Node * list item) :=
  let '(i, ts') := nextItem (skipSpace ts) in
  match typ i with
  | itemText => Ok (TextNode (val i), ts')
  | itemLeftDelim =>
    '(pipe, ts1) ← pipeline (S (length ts')) ts' [];
    Ok (ActionNode pipe, ts1)
  | _ => unexpected i "input"
  end.

(** The loop of [t.parse()]: nodes until [itemEOF]. *)
Fixpoint parseLoop (fuel : nat) (ts : list item) (nodes : list Node)
    : result parseFailure (list Node) :=
  match fuel with
  | 0 => Err ParseOutOfFuel
  | S fuel =>
    if decide (typ (nextItem ts).1 = itemEOF) then Ok nodes
    else
      '(n, ts1) ← textOrAction ts;
      parseLoop fuel ts1 (nodes ++ [n])
  end.

(** The parser on the items of a scan. *)
Definition parseItems (ts : list item) : result parseFailure (list Node) :=
  parseLoop (S (length ts)) ts [].

(** [parse.Parse] on a template text: the root list of the tree. *)
Definition parse (text : bytes) : result parseFailure (list Node) :=
  match lex text with
  | Lexed ts => parseItems ts
  | LexUnmodelled what => Err (ParseUnmodelled what)
  | LexOutOfFuel => Err ParseOutOfFuel
  end.

(** ** Fuel is sufficient *)

Section parser_fuel.
Implicit Types (ts : list item) (i : item) (fuel : nat).

Lemma skipSpace_length ts : length (skipSpace ts) ≤ length ts.
Proof. induction ts as [|i ts IH]; simpl; [done|]. case_decide; simpl; lia. Qed.

Lemma skipSpace_head ts : typ (nextItem (skipSpace ts)).1 ≠ itemSpace.
Proof. induction ts as [|i ts IH]; simpl; [done|]. by case_decide. Qed.

Lemma skipSpace_id ts : typ (nextItem ts).1 ≠ itemSpace → skipSpace ts = ts.
Proof. destruct ts; simpl; [done|]. intros. by rewrite decide_False. Qed.

Lemma nextItem_length ts i ts' :
  nextItem ts = (i, ts') → typ i ≠ itemEOF → length ts = S (length ts').
Proof. destruct ts; simpl; intros [= <- <-]; done. Qed.

Lemma nextItem_length_le ts : length (nextItem ts).2 ≤ length ts.
Proof. destruct ts; simpl; lia. Qed.

Lemma term_length ts : length (term ts).2 ≤ length ts.
Proof.
  unfold term. pose proof (skipSpace_length ts).
  pose proof (nextItem_length_le (skipSpace ts)).
  destruct (nextItem (skipSpace ts)) as [i ts']. simpl in *.
  destruct (typ i); simpl; lia.
Qed.

Lemma chainFields_length ts : length (chainFields ts).2 ≤ length ts.
Proof.
  induction ts as [|i ts IH]; simpl; [done|].
  case_decide; [|done]. destruct (chainFields ts). simpl in *. lia.
Qed.

Lemma operand_length ts o ts' :
  operand ts = Ok (o, ts') → length ts' ≤ length ts.
Proof.
  unfold operand. pose proof (term_length ts).
  destruct (term ts) as [[node|] ts1]; simpl in *; [|intros [= <- <-]; lia].
  case_decide; [|intros [= <- <-]; lia].
  pose proof (chainFields_length ts1). destruct (chainFields ts1).
  destruct node; intros; simplify_eq/=. lia.
Qed.

(** A command, when it parses, stops in front of the right delimiter. *)
Lemma command_ok fuel ts args :
  length ts < fuel →
  match command fuel ts args with
  | Ok (_, ts1) =>
    length ts1 ≤ length ts ∧ typ (nextItem ts1).1 = itemRightDelim
  | Err e => e ≠ ParseOutOfFuel
  end.
Proof.
  revert ts args. induction fuel as [|fuel IH]; intros ts args Hf; [lia|].
  simpl. destruct (operand ts) as [[o ts1]|e] eqn:Ho; simpl.
  2: { unfold operand in Ho. repeat case_match; by simplify_eq. }
  apply operand_length in Ho.
  destruct (nextItem ts1) as [i ts2] eqn:Hn.
  destruct (typ i) eqn:Hi; try (unfold unexpected; by case_decide).
  - case_decide; [done|]. by rewrite Hn.
  - apply nextItem_length in Hn; [|by rewrite Hi].
    specialize (IH ts2 (args ++ option_list o)).
    destruct (command fuel ts2 _) as [[??]|]; [|apply IH; lia].
    destruct IH; [lia|]. split; [lia|done].
Qed.

Lemma pipeline_S fuel ts cmds :
  pipeline (S fuel) ts cmds =
  let '(i, ts') := nextItem (skipSpace ts) in
  match typ i with
  | itemRightDelim =>
    if decide (length cmds = 0) then
      Err (ParseFailed (ErrMissingValue "command"))
    else Ok (mkPipe cmds, ts')
  | itemDot | itemField =>
    '(cmd, ts1) ← command (S (length ts)) (skipSpace ts) [];
    pipeline fuel ts1 (cmds ++ [cmd])
  | _ => unexpected i "command"
  end.
Proof. done. Qed.

Lemma pipeline_end fuel ts cmds :
  typ (nextItem ts).1 = itemRightDelim → cmds ≠ [] →
  pipeline (S fuel) ts cmds = Ok (mkPipe cmds, (nextItem ts).2) ∧
  length ts = S (length (nextItem ts).2).
Proof.
  intros Hrd Hc. rewrite pipeline_S, skipSpace_id by (by rewrite Hrd).
  destruct (nextItem ts) as [j ts2] eqn:Hn. simpl in *. rewrite Hrd.
  rewrite decide_False by (by destruct cmds).
  split; [done|]. apply nextItem_length in Hn; [done|by rewrite Hrd].
Qed.

Lemma pipeline_command fuel ts cmds :
  1 ≤ fuel →
  match command (S (length ts)) (skipSpace ts) [] ≫=
          (λ '(cmd, ts1), pipeline fuel ts1 (cmds ++ [cmd])) with
  | Ok (_, ts1) => length ts1 < length ts
  | Err e => e ≠ ParseOutOfFuel
  end.
Proof.
  intros Hf. pose proof (skipSpace_length ts) as Hs.
  pose proof (command_ok (S (length ts)) (skipSpace ts) []) as Hc.
  destruct (command _ _ _) as [[cmd ts1]|]; [|apply Hc; lia].
  destruct Hc as [Hlen Hrd]; [lia|]. unfold mbind, result_bind.
  destruct fuel as [|fuel]; [lia|].
  destruct (pipeline_end fuel ts1 (cmds ++ [cmd]) Hrd) as [-> ?].
  - by intros [_ ?]%app_eq_nil.
  - lia.
Qed.

Lemma pipeline_ok fuel ts cmds :
  length ts < fuel →
  match pipeline fuel ts cmds with
  | Ok (_, ts1) => length ts1 < length ts
  | Err e => e ≠ ParseOutOfFuel
  end.
Proof.
  destruct fuel as [|fuel]; [lia|]. intros Hf. rewrite pipeline_S.
  pose proof (skipSpace_length ts) as Hs.
  destruct (nextItem (skipSpace ts)) as [i ts'] eqn:Hn.
  assert (typ i ≠ itemEOF → ts ≠ []) as Hne.
  { intros Hi ->. by simplify_eq/=. }
  destruct (typ i) eqn:Hi; try (unfold unexpected; by case_decide).
  - apply pipeline_command. destruct ts; [by destruct Hne|simpl in Hf; lia].
  - apply pipeline_command. destruct ts; [by destruct Hne|simpl in Hf; lia].
  - case_decide; [done|]. apply nextItem_length in Hn; [lia|by rewrite Hi].
Qed.

Lemma textOrAction_ok ts :
  match textOrAction ts with
  | Ok (_, ts1) => length ts1 < length ts
  | Err e => e ≠ ParseOutOfFuel
  end.
Proof.
  unfold textOrAction. pose proof (skipSpace_length ts) as Hs.
  destruct (nextItem (skipSpace ts)) as [i ts'] eqn:Hn.
  destruct (typ i) eqn:Hi; try (unfold unexpected; by case_decide).
  - apply nextItem_length in Hn; [|by rewrite Hi].
    pose proof (pipeline_ok (S (length ts')) ts' []) as Hp.
    destruct (pipeline _ _ _) as [[pipe ts1]|]; simpl; [|apply Hp; lia].
    specialize (Hp ltac:(lia)). lia.
  - apply nextItem_length in Hn; [lia|by rewrite Hi].
Qed.

Lemma parseLoop_ok fuel ts nodes :
  length ts < fuel → parseLoop fuel ts nodes ≠ Err ParseOutOfFuel.
Proof.
  revert ts nodes. induction fuel as [|fuel IH]; intros ts nodes Hf; [lia|].
  simpl. case_decide; [done|].
  pose proof (textOrAction_ok ts) as Ht.
  destruct (textOrAction ts) as [[n ts1]|e]; simpl; [apply IH; lia|].
  by intros [= ->].
Qed.

(** C34: parsing ends within the fuel [parse] provides, on every text. *)
Theorem parse_terminates text : parse text ≠ Err ParseOutOfFuel.
Proof.
  unfold parse. pose proof (lex_fuel_enough text).
  destruct (lex text); [|done..]. apply parseLoop_ok. lia.
Qed.
End parser_fuel.

(** ** Text without actions *)

(** A template text that holds no opening delimiter and is not empty
    parses to the single text node of that text. *)
Theorem parse_plain_text text :
  ¬ infix leftDelim text → text ≠ [] → parse text = Ok [TextNode text].
Proof.
  intros Hdelim Hne. unfold parse. by rewrite lex_plain_text.
Qed.

Lemma parse_plain_text_witness :
  parse (B "import scrapy") = Ok [TextNode (B "import scrapy")].
Proof.
  apply parse_plain_text; [|discriminate].
  apply (bool_decide_unpack _). by vm_compute.
Defined.
