(* ===== verification/Exec.v ===== *)
(** * Escaping and execution ([html/template], [text/template])

    [t.Execute(os.Stdout, spider)] (line 76 of [swissknife.go]) does two
    things.  First, once per template, [html/template] walks the parse
    tree and appends to the pipeline of every action the escaper its
    context calls for ([escapeTree]).  Then [text/template] walks the
    rewritten tree, writes text nodes as they are and, for an action,
    evaluates the pipeline on the data and prints the value ([walk]).

    The context of the escaping pass stays [stateText] as long as no text
    node contains [<]; a text node that contains one is outside the model
    ([ExecUnmodelled]).  Execution writes to any [Writer]; an error, of
    the evaluation or of a write, stops the walk and leaves what was
    written.  What is written does not depend on the writer: the walk
    is the sequence of writes [executeChunks] ([Execute_chunks]). *)

From Stdlib Require Import Ascii.
From stdpp Require Import base tactics option list strings.
From S2P Require Import Prelude GoStrings Writer Spider Utf8 HtmlEscape Lexer Parser.

(** ** Values and errors *)

(** The values a pipeline of the fragment can hold: a string, the data
    itself (a [*Spider]), or no value yet. *)
Inductive Value : Type :=
  | VString (s : bytes)
  | VStruct (sp : Spider)
  | VMissing.

(** The errors [Execute] reports. *)
Inductive execError : Type :=
  | ErrCantEvaluateField (fieldName : bytes) (typeName : string)
  | ErrHasArguments (fieldName : bytes)
  | ErrNotDefinedFunction (name : bytes)
  | ErrArgToNonFunction.

(** What [Execute] returns: an [ExecError] of the evaluation, or the
    error of the writer as it is ([errRecover] strips the wrapper of a
    [writeError]). *)
Inductive execFailure : Type :=
  | ExecFailed (e : execError)
  | ExecWrite (e : ioError)
  | ExecUnmodelled (what : string).

(** ** The escaping pass of [html/template] *)

Definition htmlEscaperName : bytes := B "_html_template_htmlescaper".

(** [normalizeEscFn]: escapers that do the same work count as one. *)
Definition normalizeEscFn (e : bytes) : bytes :=
  if bool_decide (e ∈ [B "_html_template_attrescaper"; htmlEscaperName;
                      B "_html_template_rcdataescaper"]) then B "html"
  else if bool_decide (e ∈ [B "_html_template_urlescaper";
                           B "_html_template_urlnormalizer"]) then B "urlquery"
  else e.

(** [newIdentCmd]: a command that calls the function [name]. *)
Definition newIdentCmd (name : bytes) : CommandNode :=
  mkCommand [IdentifierNode name].

(** The escapers a pipeline already calls, normalised. *)
Definition insertedIdents (cmds : list CommandNode) : list bytes :=
  omap (λ cmd, match Args cmd with
               | IdentifierNode id :: _ => Some (normalizeEscFn id)
               | _ => None
               end) cmds.

(** [ensurePipelineContains(p, s)]: the escapers of [s] that the pipeline
    does not call yet are added at its end, each once. *)
Fixpoint ensurePipelineContains (cmds : list CommandNode) (s : list bytes)
    : list CommandNode :=
  match s with
  | [] => cmds
  | name :: s' =>
    if bool_decide (normalizeEscFn name ∈ insertedIdents cmds) then
      ensurePipelineContains cmds s'
    else ensurePipelineContains (cmds ++ [newIdentCmd name]) s'
  end.

(** [escapeAction] in context [stateText] with no delimiter: the
    pipeline gets [_html_template_htmlescaper]. *)
Definition escapeAction (pipe : PipeNode) : PipeNode :=
  mkPipe (ensurePipelineContains (Cmds pipe) [htmlEscaperName]).

(** [escapeText] in context [stateText]: text without [<] leaves the
    context and the node as they are. *)
Definition escapeText (text : bytes) : result execFailure Node :=
  if bool_decide ("<"%char ∈ text) then Err (ExecUnmodelled "text with <")
  else Ok (TextNode text).

(** [escapeTree] on the root list, from context [stateText]. *)
Fixpoint escapeTree (nodes : list Node) : result execFailure (list Node) :=
  match nodes with
  | [] => Ok []
  | TextNode text :: ns =>
    n ← escapeText text; ns' ← escapeTree ns; Ok (n :: ns')
  | ActionNode pipe :: ns =>
    ns' ← escapeTree ns; Ok (ActionNode (escapeAction pipe) :: ns')
  end.

(** ** Evaluation ([text/template/exec.go]) *)

Section exec.
Context `{RuneDecoder} `{Writer W}.

(** [s.evalField]: the field [fieldName] of [receiver].  [hasArgs] says
    that the access was given arguments, which only a method accepts. *)
Definition evalField (fieldName : bytes) (hasArgs : bool) (receiver : Value)
    : result execFailure Value :=
  match receiver with
  | VStruct sp =>
    match lookupField sp fieldName with
    | Some v =>
      if hasArgs then Err (ExecFailed (ErrHasArguments fieldName))
      else Ok (VString v)
    | None => Err (ExecFailed (ErrCantEvaluateField fieldName "*main.Spider"))
    end
  | VString _ => Err (ExecFailed (ErrCantEvaluateField fieldName "string"))
  | VMissing => Ok VMissing
  end.

(** [s.evalFieldChain]: [receiver.A.B...]; only the last access gets the
    arguments. *)
Fixpoint evalFieldChain (receiver : Value) (ident : list bytes)
    (hasArgs : bool) : result execFailure Value :=
  match ident with
  | [] => Ok receiver
  | [name] => evalField name hasArgs receiver
  | name :: ident' =>
    r ← evalField name false receiver; evalFieldChain r ident' hasArgs
  end.

(** [isMissing(final)]. *)
Definition isMissing (v : Value) : bool :=
  match v with VMissing => true | _ => false end.

(** [s.evalFunction] and [s.evalCall] for the functions a template of the
    fragment can name: the escaper that [escapeAction] adds, applied to
    the value of the command before it. *)
Definition evalFunction (name : bytes) (args : list ArgNode) (final : Value)
    : result execFailure Value :=
  if bool_decide (name = htmlEscaperName) then
    match args, final with
    | [_], VString s => Ok (VString (htmlEscaper s))
    | _, _ => Err (ExecUnmodelled "escaper call on a value that is no string")
    end
  else Err (ExecFailed (ErrNotDefinedFunction name)).

(** [s.evalCommand]: the first word decides. *)
Definition evalCommand (dot : Value) (cmd : CommandNode) (final : Value)
    : result execFailure Value :=
  let hasArgs := bool_decide (1 < length (Args cmd)) || negb (isMissing final) in
  match Args cmd with
  | FieldNode ident :: _ => evalFieldChain dot ident hasArgs
  | IdentifierNode name :: _ => evalFunction name (Args cmd) final
  | DotNode :: _ =>
    if hasArgs then Err (ExecFailed ErrArgToNonFunction)
    else Err (ExecUnmodelled "dot as a value")
  | [] => Err (ExecUnmodelled "empty command")
  end.

(** [s.evalPipeline]: the value of each command is the last argument of
    the next. *)
Fixpoint evalPipeline (dot : Value) (cmds : list CommandNode) (value : Value)
    : result execFailure Value :=
  match cmds with
  | [] => Ok value
  | cmd :: cmds' => v ← evalCommand dot cmd value; evalPipeline dot cmds' v
  end.

(** [s.printValue]: what [fmt.Fprint] writes for the value. *)
Definition printValue (v : Value) : result execFailure bytes :=
  match v with
  | VString s => Ok s
  | VMissing => Ok (B "<no value>")
  | VStruct _ => Err (ExecUnmodelled "printing a struct")
  end.

(** A write of the walk, [s.wr.Write(p)] or [fmt.Fprint(s.wr, v)]: the
    count is dropped, an error ends the walk ([s.writeError]). *)
Definition wrWrite (wr : W) (p : bytes) : W * option execFailure :=
  let '(wr', _, err) := Write wr p in (wr', ExecWrite <$> err).

(** [s.walk] on one node: the writer [wr] afterwards and the error that
    stopped the walk, if any. *)
Definition walk (dot : Value) (n : Node) (wr : W) : W * option execFailure :=
  match n with
  | TextNode text => wrWrite wr text
  | ActionNode pipe =>
    match evalPipeline dot (Cmds pipe) VMissing ≫= printValue with
    | Ok out => wrWrite wr out
    | Err e => (wr, Some e)
    end
  end.

(** [s.walk] on the root list. *)
Fixpoint walkList (dot : Value) (nodes : list Node) (wr : W)
    : W * option execFailure :=
  match nodes with
  | [] => (wr, None)
  | n :: ns =>
    match walk dot n wr with
    | (wr', None) => walkList dot ns wr'
    | r => r
    end
  end.

(** [Template.Execute(wr, data)] of [html/template]: escape, then walk.  An
    error of the escaping pass comes before anything is written. *)
Definition Execute (tree : list Node) (data : Spider) (wr : W)
    : W * option execFailure :=
  match escapeTree tree with
  | Err e => (wr, Some e)
  | Ok tree' => walkList (VStruct data) tree' wr
  end.

(** ** The walk as a sequence of writes *)

(** What a node hands to the writer. *)
Definition nodeChunk (dot : Value) (n : Node) : result execFailure bytes :=
  match n with
  | TextNode text => Ok text
  | ActionNode pipe => evalPipeline dot (Cmds pipe) VMissing ≫= printValue
  end.

(** The pieces that the nodes of a list hand to the writer, in order,
    up to the first node that fails to evaluate, and its error. *)
Fixpoint walkChunks (dot : Value) (nodes : list Node)
    : list bytes * option execFailure :=
  match nodes with
  | [] => ([], None)
  | n :: ns =>
    match nodeChunk dot n with
    | Ok p => (p :: (walkChunks dot ns).1, (walkChunks dot ns).2)
    | Err e => ([], Some e)
    end
  end.

(** The pieces that [Execute] hands to the writer. *)
Definition executeChunks (tree : list Node) (data : Spider)
    : list bytes * option execFailure :=
  match escapeTree tree with
  | Err e => ([], Some e)
  | Ok tree' => walkChunks (VStruct data) tree'
  end.

(** Writing pieces one after the other: the first write that fails
    ends the sequence with its error; when none does, the error is that
    of the evaluation, if any. *)
Definition writeChunks (wr : W) (cs : list bytes * option execFailure)
    : W * option execFailure :=
  match writeAll wr cs.1 with
  | (wr', Some e) => (wr', Some (ExecWrite e))
  | (wr', None) => (wr', cs.2)
  end.

End exec.

(** ** The escaping pass *)

Section escape_lemmas.
Implicit Types (cmds : list CommandNode) (pipe : PipeNode) (nodes : list Node).

Lemma insertedIdents_app cmds1 cmds2 :
  insertedIdents (cmds1 ++ cmds2) = insertedIdents cmds1 ++ insertedIdents cmds2.
Proof. apply omap_app. Qed.

(** After the pass a pipeline calls the escaper. *)
Lemma escapeAction_inserted pipe :
  B "html" ∈ insertedIdents (Cmds (escapeAction pipe)).
Proof.
  unfold escapeAction. cbn [ensurePipelineContains Cmds].
  case_bool_decide as Hin; [done|].
  rewrite insertedIdents_app, elem_of_app. right. repeat constructor.
Qed.

(** The pass adds the escaper at most once: a second pass changes
    nothing. *)
Lemma escapeAction_idemp pipe :
  escapeAction (escapeAction pipe) = escapeAction pipe.
Proof.
  unfold escapeAction at 1. cbn [ensurePipelineContains].
  rewrite bool_decide_true by apply escapeAction_inserted.
  by destruct (escapeAction pipe).
Qed.

(** The pass keeps the text of the pipeline's own commands in front. *)
Lemma escapeAction_prefix pipe :
  Cmds pipe `prefix_of` Cmds (escapeAction pipe).
Proof.
  unfold escapeAction. cbn [ensurePipelineContains Cmds].
  case_bool_decide; [done|]. by apply prefix_app_r.
Qed.

Lemma escapeTree_cons_text text nodes :
  "<"%char ∉ text →
  escapeTree (TextNode text :: nodes) =
  ns ← escapeTree nodes; Ok (TextNode text :: ns).
Proof. intros Hlt. simpl. unfold escapeText. by rewrite bool_decide_false. Qed.

Lemma escapeTree_length nodes nodes' :
  escapeTree nodes = Ok nodes' → length nodes' = length nodes.
Proof.
  revert nodes'. induction nodes as [|[text|pipe] ns IH]; intros nodes'; simpl.
  - by intros [= <-].
  - unfold escapeText. case_bool_decide; [done|]. simpl.
    destruct (escapeTree ns) as [ns'|]; [|done]. intros [= <-]. simpl.
    by rewrite (IH ns').
  - destruct (escapeTree ns) as [ns'|]; [|done]. intros [= <-]. simpl.
    by rewrite (IH ns').
Qed.

(** C38: the escaping pass is idempotent: run on a tree it has already
    rewritten, it succeeds and changes nothing, so no value is escaped
    twice. *)
Theorem escapeTree_idemp nodes nodes' :
  escapeTree nodes = Ok nodes' → escapeTree nodes' = Ok nodes'.
Proof.
  revert nodes'. induction nodes as [|[text|pipe] ns IH]; intros nodes'; simpl.
  - by intros [= <-].
  - unfold escapeText. case_bool_decide; [done|]. simpl.
    destruct (escapeTree ns) as [ns'|]; [|done]. intros [= <-].
    rewrite escapeTree_cons_text by done. by rewrite (IH ns').
  - destruct (escapeTree ns) as [ns'|]; [|done]. intros [= <-]. simpl.
    by rewrite (IH ns'), escapeAction_idemp.
Qed.
End escape_lemmas.

(** ** The walk *)

Section walk_lemmas.
Context `{RuneDecoder}.
Implicit Types (dot : Value) (n : Node) (nodes : list Node).
Implicit Types (cs : list bytes * option execFailure).

Section any_writer.
Context `{Writer W}.
Implicit Types (wr : W).

Lemma walk_nodeChunk dot n wr :
  walk dot n wr =
  match nodeChunk dot n with
  | Ok p => wrWrite wr p
  | Err e => (wr, Some e)
  end.
Proof. by destruct n. Qed.

Lemma writeChunks_cons wr p cs :
  writeChunks wr (p :: cs.1, cs.2) =
  match wrWrite wr p with
  | (wr', None) => writeChunks wr' cs
  | r => r
  end.
Proof.
  unfold writeChunks, wrWrite. cbn [writeAll fst snd].
  by destruct (Write wr p) as [[wr' k] [e|]].
Qed.

(** The walk is the sequence of the writes of its nodes. *)
Lemma walkList_chunks dot nodes wr :
  walkList dot nodes wr = writeChunks wr (walkChunks dot nodes).
Proof.
  revert wr. induction nodes as [|n ns IH]; intros wr; [done|].
  cbn [walkList walkChunks]. rewrite walk_nodeChunk.
  destruct (nodeChunk dot n) as [p|e]; [|done].
  rewrite writeChunks_cons. destruct (wrWrite wr p) as [wr' [e|]]; [done|apply IH].
Qed.

Lemma Execute_writeChunks tree sp wr :
  Execute tree sp wr = writeChunks wr (executeChunks tree sp).
Proof.
  unfold Execute, executeChunks.
  destruct (escapeTree tree); [apply walkList_chunks|done].
Qed.

(** Walking a list in two parts. *)
Lemma walkList_app dot nodes1 nodes2 wr :
  walkList dot (nodes1 ++ nodes2) wr =
  match walkList dot nodes1 wr with
  | (wr', None) => walkList dot nodes2 wr'
  | r => r
  end.
Proof.
  revert wr. induction nodes1 as [|n ns IH]; intros wr; simpl; [done|].
  destruct (walk dot n wr) as [wr' [e|]]; [done|]. apply IH.
Qed.

(** C5: an action [{{ .F }}], once the escaping pass has run over it,
    hands the writer the HTML-escaped value of the field [F] of the
    spider, in one write; for a name that is no field of [Spider] the
    walk stops with the error [can't evaluate field], and the writer is
    not called. *)
Theorem walk_field_action sp name wr :
  walk (VStruct sp)
       (ActionNode (escapeAction (mkPipe [mkCommand [FieldNode [name]]]))) wr =
  match lookupField sp name with
  | Some v => wrWrite wr (htmlEscaper v)
  | None => (wr, Some (ExecFailed (ErrCantEvaluateField name "*main.Spider")))
  end.
Proof.
  cbn [walk escapeAction ensurePipelineContains Cmds].
  rewrite bool_decide_false by (cbn; apply not_elem_of_nil).
  cbn [app evalPipeline evalCommand Args length evalFieldChain evalField
       isMissing negb]. rewrite bool_decide_false by lia. cbn [orb].
  by destruct (lookupField sp name).
Qed.

(** What a sequence of writes leaves on the stream of a writer that
    keeps the contract. *)
Lemma writeChunks_written `{!WriterOk W} wr cs wr' eo :
  writeChunks wr cs = (wr', eo) →
  ∃ b, written wr' = written wr ++ b ∧ b `prefix_of` concat cs.1 ∧
    ((eo = cs.2 ∧ b = concat cs.1) ∨ ∃ e, eo = Some (ExecWrite e)).
Proof.
  unfold writeChunks. destruct (writeAll wr cs.1) as [w1 [e|]] eqn:Hw;
    intros [= <- <-]; destruct (writeAll_written _ _ _ _ Hw) as (b & Hb & ? & Hall);
    exists b; (split; [done|]); (split; [done|]); [by right; eexists|].
  left. by rewrite Hall.
Qed.
End any_writer.

(** A buffer: the pieces one after the other, and the error of the
    evaluation. *)
Lemma writeChunks_buffer (wr : bytes) cs :
  writeChunks wr cs = (wr ++ concat cs.1, cs.2).
Proof. unfold writeChunks. by rewrite writeAll_buffer. Qed.

(** A file: what fits of the pieces, and [ENOSPC] when they do not all
    fit. *)
Lemma writeChunks_file (f : File) cs :
  writeChunks f cs =
  if decide (length (concat cs.1) ≤ room f) then
    (mkFile (content f ++ concat cs.1) (room f - length (concat cs.1)), cs.2)
  else (mkFile (content f ++ take (room f) (concat cs.1)) 0,
        Some (ExecWrite (PathError ENOSPC))).
Proof. unfold writeChunks. rewrite writeAll_file. by case_decide. Qed.

(** A recorder: the calls of [Write] are the pieces. *)
Lemma writeChunks_recorder (r : Recorder) cs :
  writeChunks r cs = (mkRecorder (calls r ++ cs.1), cs.2).
Proof. unfold writeChunks. by rewrite writeAll_recorder. Qed.

(** What [Execute] writes to a buffer does not depend on what the buffer
    holds. *)
Lemma Execute_writer tree sp (wr : bytes) :
  Execute tree sp wr =
  (wr ++ (Execute tree sp terminal).1, (Execute tree sp terminal).2).
Proof. by rewrite !Execute_writeChunks, !writeChunks_buffer. Qed.

(** C22: [Execute] on any writer that keeps the contract of [io.Writer]
    against [Execute] on a terminal.  The stream receives a prefix of
    what the terminal receives; either no write fails, and then it
    receives all of it and [Execute] returns what it returns on the
    terminal, or [Execute] returns the error of the write that
    failed. *)
Theorem Execute_refines `{WriterOk W} tree sp (wr wr' : W) eo :
  Execute tree sp wr = (wr', eo) →
  ∃ b, written wr' = written wr ++ b ∧
    b `prefix_of` (Execute tree sp terminal).1 ∧
    ((eo = (Execute tree sp terminal).2 ∧ b = (Execute tree sp terminal).1) ∨
     ∃ e, eo = Some (ExecWrite e)).
Proof.
  rewrite !Execute_writeChunks, writeChunks_buffer. apply writeChunks_written.
Qed.

(** C23: the order of the writes.  [Execute] calls [Write] once per node
    of the template, in the order of the nodes, with the text of a text
    node and the printed value of an action, up to the first node that
    fails to evaluate: a recorder holds [executeChunks]. *)
Theorem Execute_chunks tree sp (r : Recorder) :
  Execute tree sp r =
  (mkRecorder (calls r ++ (executeChunks tree sp).1), (executeChunks tree sp).2).
Proof. by rewrite Execute_writeChunks, writeChunks_recorder. Qed.
End walk_lemmas.

(** ** A template on a device that fills up *)

Lemma Execute_refines_witness :
  ∃ b, written (mkFile (B "class A") 0) = written (mkFile [] 7) ++ b ∧
    b `prefix_of`
      (Execute [TextNode (B "class "); ActionNode (mkPipe [mkCommand [FieldNode [B "Name"]]])]
               (mkSpider (B "A&B") [] []) terminal).1 ∧
    ((Some (ExecWrite (PathError ENOSPC)) =
      (Execute [TextNode (B "class "); ActionNode (mkPipe [mkCommand [FieldNode [B "Name"]]])]
               (mkSpider (B "A&B") [] []) terminal).2 ∧
      b = (Execute [TextNode (B "class "); ActionNode (mkPipe [mkCommand [FieldNode [B "Name"]]])]
                   (mkSpider (B "A&B") [] []) terminal).1) ∨
     ∃ e, Some (ExecWrite (PathError ENOSPC)) = Some (ExecWrite e)).
Proof.
  apply (Execute_refines
           [TextNode (B "class "); ActionNode (mkPipe [mkCommand [FieldNode [B "Name"]]])]
           (mkSpider (B "A&B") [] []) (mkFile [] 7)).
  by vm_compute.
Defined.

(** ** The escaping pass at a concrete tree *)

Lemma escapeTree_idemp_witness :
  escapeTree [TextNode (B "x = ");
              ActionNode (mkPipe [mkCommand [FieldNode [B "Name"]];
                                  newIdentCmd htmlEscaperName])] =
  Ok [TextNode (B "x = ");
      ActionNode (mkPipe [mkCommand [FieldNode [B "Name"]];
                          newIdentCmd htmlEscaperName])].
Proof.
  apply (escapeTree_idemp
           [TextNode (B "x = ");
            ActionNode (mkPipe [mkCommand [FieldNode [B "Name"]]])]).
  reflexivity.
Defined.
