(* ===== verification/Template.v ===== *)
(** * The spider template and its rendering

    The constant [spiderTemplate] (lines 19-38 of [swissknife.go]), the
    tree [template.Parse] builds from it, and what [Execute] writes for a
    [Spider]: the text of the template with each placeholder replaced by
    the HTML-escaped value of the field it names ([render_spec]).

    The rendering theorem is proved for every template made of text and
    field placeholders ([segment]), of which the spider template is
    one.  A [piece] is the same with any name in a placeholder:
    [renderPieces] is what [Execute] writes for such a template, up to
    the first placeholder that names no field of [Spider].
    [parseAndExecute_regions] locates the docstring, the class name,
    the attribute [name] and the list [start_urls] in what lines 71-78
    write. *)

From Stdlib Require Import Ascii.
From stdpp Require Import base tactics option list strings.
From S2P Require Import Prelude GoStrings Writer Spider Utf8 HtmlEscape Lexer Parser Exec.

(** ** The template text *)

(** The three quotes that open and close a Python docstring. *)
Definition tripleQuote : bytes := [DQUOTE; DQUOTE; DQUOTE].

(** A raw string literal that starts with a line break, line by line. *)
Definition rawLines (lines : list bytes) : bytes :=
  LF :: concat ((λ l, l ++ [LF]) <$> lines).

(** [const spiderTemplate]. *)
Definition spiderTemplate : bytes := rawLines [
  B "# -*- coding: utf-8 -*-";
  [];
  tripleQuote ++ B "{{ .Name }}.";
  [];
  B "{{ .Doc }}";
  [];
  tripleQuote;
  [];
  B "import scrapy";
  [];
  [];
  B "class {{ .Name }}Spider(scrapy.Spider):";
  [];
  B "    name = '{{ .Name }}'";
  B "    start_urls = [ {{ .URL }} ]";
  [];
  B "    def parse(self, response):";
  B "        print(response.body)"
].

(** ** Templates of text and placeholders *)

(** A piece of a template: literal text or a placeholder for a field. *)
Inductive segment : Type :=
  | Lit (text : bytes)
  | Hole (f : SpiderField).

(** The node the parser builds for a piece: [{{ .F }}] is an action whose
    pipeline is the one command [.F]. *)
Definition segNode (s : segment) : Node :=
  match s with
  | Lit text => TextNode text
  | Hole f => ActionNode (mkPipe [mkCommand [FieldNode [fieldName f]]])
  end.

(** A piece of any template of text and placeholders: the name in a
    placeholder is the name of a field of [Spider], or it is not. *)
Inductive piece : Type :=
  | PText (text : bytes)
  | PField (name : bytes).

Definition segPiece (s : segment) : piece :=
  match s with
  | Lit text => PText text
  | Hole f => PField (fieldName f)
  end.

(** The node the parser builds for a piece. *)
Definition pieceNode (p : piece) : Node :=
  match p with
  | PText text => TextNode text
  | PField name => ActionNode (mkPipe [mkCommand [FieldNode [name]]])
  end.

(** The node after the escaping pass: the pipeline of a placeholder ends
    in the HTML escaper. *)
Definition escPiece (p : piece) : Node :=
  match p with
  | PText text => TextNode text
  | PField name =>
    ActionNode (mkPipe [mkCommand [FieldNode [name]];
                        newIdentCmd htmlEscaperName])
  end.

(** The spider template as pieces. *)
Definition spiderSegments : list segment := [
  Lit ([LF] ++ B "# -*- coding: utf-8 -*-" ++ [LF; LF] ++ tripleQuote);
  Hole FName;
  Lit (B "." ++ [LF; LF]);
  Hole FDoc;
  Lit ([LF; LF] ++ tripleQuote ++ [LF; LF] ++ B "import scrapy" ++
       [LF; LF; LF] ++ B "class ");
  Hole FName;
  Lit (B "Spider(scrapy.Spider):" ++ [LF; LF] ++ B "    name = '");
  Hole FName;
  Lit (B "'" ++ [LF] ++ B "    start_urls = [ ");
  Hole FURL;
  Lit (B " ]" ++ [LF; LF] ++ B "    def parse(self, response):" ++ [LF] ++
       B "        print(response.body)" ++ [LF])
].

(** The parse tree of the spider template. *)
Definition spiderTree : list Node := segNode <$> spiderSegments.

Section render.
Context `{RuneDecoder}.

(** ** The rendering specification *)

(** What a piece contributes to the output. *)
Definition renderSegment (sp : Spider) (s : segment) : bytes :=
  match s with
  | Lit text => text
  | Hole f => htmlEscaper (fieldValue sp f)
  end.

(** Plain interpolation: the pieces in order. *)
Definition render (segs : list segment) (sp : Spider) : bytes :=
  concat (renderSegment sp <$> segs).

(** What a piece of any template contributes: a placeholder that names
    a field contributes its escaped value; one that names no field of
    [Spider] is the error of [evalField]. *)
Definition pieceChunk (sp : Spider) (p : piece) : result execFailure bytes :=
  match p with
  | PText text => Ok text
  | PField name =>
    match lookupField sp name with
    | Some v => Ok (htmlEscaper v)
    | None => Err (ExecFailed (ErrCantEvaluateField name "*main.Spider"))
    end
  end.

(** The contributions of the pieces in order, up to the first
    placeholder that names no field, and its error. *)
Fixpoint renderPieces (sp : Spider) (ps : list piece)
    : list bytes * option execFailure :=
  match ps with
  | [] => ([], None)
  | p :: ps' =>
    match pieceChunk sp p with
    | Ok c => (c :: (renderPieces sp ps').1, (renderPieces sp ps').2)
    | Err e => ([], Some e)
    end
  end.

(** The output for the spider template. *)
Definition render_spec (sp : Spider) : bytes := render spiderSegments sp.

(** The whole call sequence of lines 71-78 on a template text: parse,
    then execute on the data, writing to [wr]. *)
Definition parseAndExecute `{Writer W} (text : bytes) (sp : Spider) (wr : W)
    : result parseFailure (W * option execFailure) :=
  tree ← parse text; Ok (Execute tree sp wr).

End render.

(** ** Interpolation without escaping *)

(** What the specification of the renderer describes: each placeholder
    replaced by the raw value of its field. *)
Definition verbatimSegment (sp : Spider) (s : segment) : bytes :=
  match s with
  | Lit text => text
  | Hole f => fieldValue sp f
  end.

Definition renderVerbatim (segs : list segment) (sp : Spider) : bytes :=
  concat (verbatimSegment sp <$> segs).

(** The fields a template refers to. *)
Definition holes (segs : list segment) : list SpiderField :=
  omap (λ s, match s with Hole f => Some f | Lit _ => None end) segs.

(** The number of bytes of the spider template outside its
    placeholders. *)
Definition spiderTextLength : nat :=
  length (concat (omap (λ s, match s with Lit text => Some text | Hole _ => None end)
                       spiderSegments)).

(** The text of the piece at an index of the spider template. *)
Definition pieceText (i : nat) : bytes :=
  match spiderSegments !! i with Some (Lit text) => text | _ => [] end.

(** ** The engine as [main] sees it *)

(** A template engine: [Parse] turns a text into a template or fails,
    [Execute] writes a template applied to a [Spider] to a writer and may
    fail after part of the output. *)
Class TemplateEngine : Type := {
  Template : Type;
  engineParse : bytes → result parseFailure Template;
  engineExecute `{Writer W} : Template → Spider → W → W * option execFailure;
}.

(** What [main] needs of its engine: the spider template parses, and
    executing it hands [spec] of the data to the writer, in pieces that
    do not depend on the writer, up to the first write that fails. *)
Class RendersSpider (E : TemplateEngine) (spec : Spider → bytes) : Prop := {
  engine_parses : is_Ok (engineParse spiderTemplate);
  engine_executes t sp :
    engineParse spiderTemplate = Ok t →
    ∃ chunks, concat chunks = spec sp ∧
      ∀ W (HW : Writer W) (wr : W),
        engineExecute t sp wr = writeChunks wr (chunks, None);
}.

(** Go's engine: [template.New("spider").Funcs(fmap).Parse] with an
    empty function map, and [Execute] of [html/template]. *)
#[export] Instance goEngine `{RuneDecoder} : TemplateEngine := {|
  Template := list Node;
  engineParse := parse;
  engineExecute W _ := Execute;
|}.

(** A literal piece the escaping pass leaves alone. *)
Definition segment_plain (s : segment) : Prop :=
  match s with
  | Lit text => "<"%char ∉ text
  | Hole _ => True
  end.

#[export] Instance segment_plain_dec s : Decision (segment_plain s).
Proof. destruct s; simpl; apply _. Defined.

Definition piece_plain (p : piece) : Prop :=
  match p with
  | PText text => "<"%char ∉ text
  | PField _ => True
  end.

#[export] Instance piece_plain_dec p : Decision (piece_plain p).
Proof. destruct p; simpl; apply _. Defined.

(** ** The engine renders by interpolation *)

Section render_lemmas.
Context `{RuneDecoder}.
Implicit Types (segs : list segment) (s : segment) (sp : Spider) (wr : bytes).

Lemma render_nil sp : render [] sp = [].
Proof. done. Qed.

Lemma render_cons s segs sp :
  render (s :: segs) sp = renderSegment sp s ++ render segs sp.
Proof. done. Qed.

Lemma render_app segs1 segs2 sp :
  render (segs1 ++ segs2) sp = render segs1 sp ++ render segs2 sp.
Proof. unfold render. by rewrite fmap_app, concat_app. Qed.

(** The escaping pass on a template of text and placeholders. *)
Lemma escapeTree_pieces ps :
  Forall piece_plain ps → escapeTree (pieceNode <$> ps) = Ok (escPiece <$> ps).
Proof.
  induction 1 as [|[text|name] ps Hp _ IH]; [done|..]; cbn [fmap list_fmap pieceNode].
  - rewrite escapeTree_cons_text by done. fold (fmap pieceNode ps). by rewrite IH.
  - cbn [escapeTree]. fold (fmap pieceNode ps). by rewrite IH.
Qed.

(** An escaped placeholder hands the writer the escaped value of its
    field, or fails on a name that is no field. *)
Lemma nodeChunk_escPiece sp p :
  nodeChunk (VStruct sp) (escPiece p) = pieceChunk sp p.
Proof.
  destruct p as [text|name]; [done|].
  cbn [nodeChunk escPiece Cmds evalPipeline evalCommand Args newIdentCmd length
       evalFieldChain evalField isMissing negb orb pieceChunk].
  rewrite bool_decide_false by lia. cbn [orb].
  by destruct (lookupField sp name).
Qed.

Lemma walkChunks_pieces sp ps :
  walkChunks (VStruct sp) (escPiece <$> ps) = renderPieces sp ps.
Proof.
  induction ps as [|p ps IH]; [done|].
  cbn [fmap list_fmap walkChunks renderPieces]. rewrite nodeChunk_escPiece.
  fold (fmap escPiece ps). by rewrite IH.
Qed.

(** The pieces that [Execute] writes for a template of text and
    placeholders, and the error that ends it. *)
Lemma executeChunks_pieces ps sp :
  Forall piece_plain ps →
  executeChunks (pieceNode <$> ps) sp = renderPieces sp ps.
Proof.
  intros Hps. unfold executeChunks. rewrite escapeTree_pieces by done.
  apply walkChunks_pieces.
Qed.

(** Placeholders for the fields of [Spider] never fail. *)
Lemma segNode_segPiece segs : segNode <$> segs = pieceNode <$> (segPiece <$> segs).
Proof. rewrite <-list_fmap_compose. apply list_fmap_ext. by intros ? [] ?. Qed.

Lemma piece_plain_segPiece segs :
  Forall segment_plain segs → Forall piece_plain (segPiece <$> segs).
Proof. rewrite Forall_fmap. intros Hs. eapply Forall_impl; [done|]. by intros []. Qed.

Lemma renderPieces_segPiece sp segs :
  renderPieces sp (segPiece <$> segs) = (renderSegment sp <$> segs, None).
Proof.
  induction segs as [|[text|f] segs IH]; [done|..];
    cbn [fmap list_fmap renderPieces segPiece pieceChunk renderSegment];
    fold (fmap segPiece segs); rewrite ?lookupField_fieldName, IH; done.
Qed.

(** A placeholder that names no field ends the rendering. *)
Lemma renderPieces_unknown sp segs name ps :
  lookupField sp name = None →
  renderPieces sp ((segPiece <$> segs) ++ PField name :: ps) =
  (renderSegment sp <$> segs,
   Some (ExecFailed (ErrCantEvaluateField name "*main.Spider"))).
Proof.
  intros Hname. induction segs as [|s segs IH].
  - cbn [fmap list_fmap app renderPieces pieceChunk]. by rewrite Hname.
  - rewrite !fmap_cons. cbn [app renderPieces]. rewrite IH.
    destruct s; cbn [segPiece pieceChunk renderSegment];
      by rewrite ?lookupField_fieldName.
Qed.

Lemma executeChunks_segments segs sp :
  Forall segment_plain segs →
  executeChunks (segNode <$> segs) sp = (renderSegment sp <$> segs, None).
Proof.
  intros Hs. rewrite segNode_segPiece, executeChunks_pieces, renderPieces_segPiece;
    [done|by apply piece_plain_segPiece].
Qed.

Lemma Execute_segments_buffer segs sp (wr : bytes) :
  Forall segment_plain segs →
  Execute (segNode <$> segs) sp wr = (wr ++ render segs sp, None).
Proof.
  intros Hs.
  by rewrite Execute_writeChunks, executeChunks_segments, writeChunks_buffer.
Qed.

(** Executing a template of text and field placeholders, on any
    writer: the evaluation never fails, and the writer is handed the
    pieces in order, a text as it is and for a placeholder the
    HTML-escaped value of its field, up to the first write that fails;
    a buffer ends up with [render] after what it held. *)
Theorem Execute_segments `{Writer W} segs sp (wr : W) (buf : bytes) :
  Forall segment_plain segs →
  Execute (segNode <$> segs) sp wr =
    writeChunks wr (renderSegment sp <$> segs, None) ∧
  Execute (segNode <$> segs) sp buf = (buf ++ render segs sp, None).
Proof.
  intros Hs. split; [|by apply Execute_segments_buffer].
  by rewrite Execute_writeChunks, executeChunks_segments.
Qed.

(** The text of the spider template contains no [<]. *)
Lemma spiderSegments_plain : Forall segment_plain spiderSegments.
Proof. apply (bool_decide_unpack _). by vm_compute. Qed.

(** The template text parses, to the tree of its pieces. *)
Lemma parse_spiderTemplate : parse spiderTemplate = Ok spiderTree.
Proof. by vm_compute. Qed.

(** Executing the tree of the spider template. *)
Lemma executeChunks_spiderTree sp :
  executeChunks spiderTree sp = (renderSegment sp <$> spiderSegments, None).
Proof. apply executeChunks_segments, spiderSegments_plain. Qed.

Lemma Execute_spiderTree sp (wr : bytes) :
  Execute spiderTree sp wr = (wr ++ render_spec sp, None).
Proof. apply Execute_segments_buffer, spiderSegments_plain. Qed.

(** C3: lines 71-78 on the spider template: parsing succeeds, so the
    [panic] of line 73 is not reached; execution succeeds, so neither is
    the one of line 77; and the writer receives [render_spec], the text
    of the template with each placeholder replaced by the escaped value
    of its field. *)
Theorem parseAndExecute_spiderTemplate sp (wr : bytes) :
  parseAndExecute spiderTemplate sp wr = Ok (wr ++ render_spec sp, None).
Proof.
  unfold parseAndExecute. rewrite parse_spiderTemplate. cbn [mbind result_bind].
  by rewrite Execute_spiderTree.
Qed.

(** Escaping never shortens a piece. *)
Lemma verbatimSegment_length sp s :
  length (verbatimSegment sp s) ≤ length (renderSegment sp s).
Proof. destruct s; simpl; [done|apply htmlEscaper_length_ge]. Qed.

Lemma renderVerbatim_length segs sp :
  length (renderVerbatim segs sp) ≤ length (render segs sp).
Proof.
  induction segs as [|s segs IH]; [done|].
  unfold renderVerbatim, render in *. cbn [fmap list_fmap concat].
  rewrite !length_app. pose proof (verbatimSegment_length sp s). lia.
Qed.

(** A piece is rendered as it is exactly when its value needs no
    escaping. *)
Lemma renderSegment_verbatim sp s :
  renderSegment sp s = verbatimSegment sp s ↔
  Forall (λ f, Forall (λ c, c ∉ htmlSpecial) (fieldValue sp f)) (holes [s]).
Proof.
  destruct s as [text|f]; simpl.
  - split; [constructor|done].
  - rewrite Forall_singleton. split; [|apply htmlEscaper_id].
    intros Heq. apply htmlEscaper_length_eq. by rewrite Heq.
Qed.

Lemma holes_cons s segs : holes (s :: segs) = holes [s] ++ holes segs.
Proof. by destruct s. Qed.

(** A template is rendered as the plain interpolation of the raw values
    exactly when no field it refers to needs escaping. *)
Lemma render_verbatim_iff segs sp :
  render segs sp = renderVerbatim segs sp ↔
  Forall (λ f, Forall (λ c, c ∉ htmlSpecial) (fieldValue sp f)) (holes segs).
Proof.
  induction segs as [|s segs IH]; [split; [constructor|done]|].
  rewrite holes_cons, Forall_app, <-IH, <-renderSegment_verbatim.
  unfold render, renderVerbatim. cbn [fmap list_fmap concat].
  split; [|by intros [-> ->]].
  intros Heq. apply app_inj_1; [|done].
  pose proof (verbatimSegment_length sp s).
  pose proof (renderVerbatim_length segs sp) as Hlen.
  unfold render, renderVerbatim in Hlen.
  apply (f_equal length) in Heq. rewrite !length_app in Heq. lia.
Qed.

(** C29: the output for the spider template is the plain interpolation
    of the raw field values, as the specification of the renderer has
    it, exactly when none of [Name], [Doc] and [URL] holds one of the
    seven bytes that the engine escapes. *)
Theorem render_spec_verbatim sp :
  render_spec sp = renderVerbatim spiderSegments sp ↔
  Forall (λ c, c ∉ htmlSpecial) (Name sp ++ Doc sp ++ URL sp).
Proof.
  unfold render_spec. rewrite render_verbatim_iff. simpl.
  rewrite !Forall_cons, !Forall_app, Forall_nil. tauto.
Qed.

(** ** The regions of the output *)

(** A run of pieces between two pieces of text is rendered between the
    end of the first text and the start of the second. *)
Lemma infix_render segs1 t1 a mid b t2 segs2 sp :
  infix (a ++ render mid sp ++ b)
        (render (segs1 ++ Lit (t1 ++ a) :: mid ++ Lit (b ++ t2) :: segs2) sp).
Proof.
  rewrite render_app, render_cons, render_app, render_cons.
  cbn [renderSegment].
  exists (render segs1 sp ++ t1), (t2 ++ render segs2 sp).
  by rewrite <-!(assoc_L (++)).
Qed.

Lemma infix_render_spec segs1 t1 a mid b t2 segs2 r sp :
  spiderSegments = segs1 ++ Lit (t1 ++ a) :: mid ++ Lit (b ++ t2) :: segs2 →
  render mid sp ++ b = r → infix (a ++ r) (render_spec sp).
Proof. unfold render_spec. intros -> <-. apply infix_render. Qed.

(** Finds in the output the pieces from index [i] to index [j] of the
    spider template, from [a] at the end of the first to [b] at the
    start of the last. *)
Ltac region i j a b :=
  apply (infix_render_spec (take i spiderSegments)
           (take (length (pieceText i) - length a) (pieceText i)) a
           (take (j - S i) (drop (S i) spiderSegments)) b
           (drop (length b) (pieceText j)) (drop (S j) spiderSegments));
  [reflexivity|unfold render; cbn; by rewrite <-?(assoc_L (++)), ?app_nil_r].

(** The regions of the interpolation. *)
Lemma render_spec_regions sp :
  infix (tripleQuote ++ htmlEscaper (Name sp) ++ B "." ++ [LF; LF] ++
         htmlEscaper (Doc sp) ++ [LF; LF] ++ tripleQuote) (render_spec sp) ∧
  infix (B "class " ++ htmlEscaper (Name sp) ++ B "Spider(scrapy.Spider):")
        (render_spec sp) ∧
  infix (B "name = '" ++ htmlEscaper (Name sp) ++ B "'") (render_spec sp) ∧
  infix (B "start_urls = [ " ++ htmlEscaper (URL sp) ++ B " ]") (render_spec sp).
Proof.
  split_and!.
  - region 0 4 tripleQuote ([LF; LF] ++ tripleQuote).
  - region 4 6 (B "class ") (B "Spider(scrapy.Spider):").
  - region 6 8 (B "name = '") (B "'").
  - region 8 10 (B "start_urls = [ ") (B " ]").
Qed.

(** C28: the regions of the generated spider, for every [Spider].
    Lines 71-78 on the constant of lines 19-38 succeed, and in what
    they write the docstring holds the name, a full stop and the
    description between the two triple quotes; the class is named by
    the name followed by [Spider]; the attribute [name] is the name in
    single quotes; the list [start_urls] holds the URL, without quotes
    around it.  Each value is written byte by byte, a byte that HTML
    reserves as its entity ([htmlEscapeByte]) and every other byte as
    it is. *)
Theorem parseAndExecute_regions sp :
  ∃ out, parseAndExecute spiderTemplate sp terminal = Ok (out, None) ∧
    infix (tripleQuote ++ (Name sp ≫= htmlEscapeByte) ++ B "." ++ [LF; LF] ++
           (Doc sp ≫= htmlEscapeByte) ++ [LF; LF] ++ tripleQuote) out ∧
    infix (B "class " ++ (Name sp ≫= htmlEscapeByte) ++
           B "Spider(scrapy.Spider):") out ∧
    infix (B "name = '" ++ (Name sp ≫= htmlEscapeByte) ++ B "'") out ∧
    infix (B "start_urls = [ " ++ (URL sp ≫= htmlEscapeByte) ++ B " ]") out.
Proof.
  exists (render_spec sp). split.
  - unfold parseAndExecute. rewrite parse_spiderTemplate. cbn [mbind result_bind].
    by rewrite Execute_spiderTree.
  - rewrite <-!htmlEscaper_bind. apply render_spec_regions.
Qed.

(** The length of the output: the text of the template and the
    escaped values, the name three times. *)
Lemma render_spec_length sp :
  length (render_spec sp) =
  spiderTextLength + 3 * length (htmlEscaper (Name sp)) +
  length (htmlEscaper (Doc sp)) + length (htmlEscaper (URL sp)).
Proof.
  unfold render_spec, render, spiderSegments.
  cbn [fmap list_fmap concat renderSegment fieldValue].
  generalize (htmlEscaper (Name sp)) (htmlEscaper (Doc sp)) (htmlEscaper (URL sp)).
  intros n d u. rewrite !length_app. simpl. unfold spiderTextLength. lia.
Qed.

Lemma render_spec_bounds sp :
  let k := 3 * length (Name sp) + length (Doc sp) + length (URL sp) in
  spiderTextLength + k ≤ length (render_spec sp) ≤ spiderTextLength + 5 * k.
Proof.
  cbn zeta. rewrite render_spec_length.
  pose proof (htmlEscaper_length_ge (Name sp)). pose proof (htmlEscaper_length_le (Name sp)).
  pose proof (htmlEscaper_length_ge (Doc sp)). pose proof (htmlEscaper_length_le (Doc sp)).
  pose proof (htmlEscaper_length_ge (URL sp)). pose proof (htmlEscaper_length_le (URL sp)).
  lia.
Qed.

(** Go's engine meets what [main] needs, with [render_spec]. *)
#[export] Instance goEngine_renders : RendersSpider goEngine render_spec.
Proof.
  split.
  - exists spiderTree. apply parse_spiderTemplate.
  - intros t sp. simpl. rewrite parse_spiderTemplate. intros [= <-].
    exists (renderSegment sp <$> spiderSegments). split; [done|].
    intros W ? wr. by rewrite Execute_writeChunks, executeChunks_spiderTree.
Qed.
End render_lemmas.

(** ** The rendering theorem at a concrete template *)

Lemma Execute_segments_witness :
  Execute (segNode <$> [Lit (B "class "); Hole FName; Lit (B "Spider")])
          (mkSpider (B "A&B") [] []) (mkFile [] 9) =
  (mkFile (B "class A&a") 0, Some (ExecWrite (PathError ENOSPC))) ∧
  Execute (segNode <$> [Lit (B "class "); Hole FName; Lit (B "Spider")])
          (mkSpider (B "A&B") [] []) terminal =
  (B "class A&amp;BSpider", None).
Proof.
  destruct (Execute_segments [Lit (B "class "); Hole FName; Lit (B "Spider")]
              (mkSpider (B "A&B") [] []) (mkFile [] 9) terminal) as [-> ->].
  - apply (bool_decide_unpack _). by vm_compute.
  - by vm_compute.
Defined.
