(* ===== verification/RoundTrip.v ===== *)
(** * Printing a template and parsing it back

    A template of the kind this program uses is a sequence of pieces of
    text and placeholders [{{ .F }}].  [printPieces] writes such a
    sequence as template text, the way [const spiderTemplate] writes
    its own; this file shows that [template.Parse] reads the pieces
    back, whatever identifier a placeholder names: the lexer
    ([lex_printPieces]) hands over one text item per piece of text and
    the five items of each placeholder, and the parser
    ([parseItems_pieceItems]) builds one node per piece.  With the
    execution lemmas of [Template] this gives the behaviour of lines
    71-78 on every template of this kind ([parseAndExecute_pieces]):
    when the names are fields of [Spider] the interpolation is written
    ([printSegments], [parseAndExecute_printSegments]), of which the
    spider template is one instance; a name that is no field is found
    when the template is executed, after the pieces in front of it
    are written ([parseAndExecute_unknown_field]).
    [parse_trim_markers] is the behaviour of the trim
    markers [{{-] and [-}}], which the spider template does not use,
    and [parse_defects] the errors of [template.Parse] on three defects
    that a template can have. *)

From Stdlib Require Import Ascii.
From stdpp Require Import base tactics option list strings.
From S2P Require Import Prelude GoStrings Writer Spider Utf8 HtmlEscape Lexer LexerSteps.
From S2P Require Import Parser Exec Template.

(** ** Printing *)

(** A placeholder as the spider template writes it. *)
Definition printField (name : bytes) : bytes :=
  leftDelim ++ B " ." ++ name ++ B " " ++ rightDelim.

Definition printPiece (p : piece) : bytes :=
  match p with
  | PText text => text
  | PField name => printField name
  end.

Definition printPieces (ps : list piece) : bytes :=
  concat (printPiece <$> ps).

(** The pieces of the spider template name fields of [Spider]. *)
Definition printSegments (segs : list segment) : bytes :=
  printPieces (segPiece <$> segs).

(** The items of a placeholder and of a piece. *)
Definition fieldItems (name : bytes) : list item :=
  [mkItem itemLeftDelim leftDelim; mkItem itemSpace (B " ");
   mkItem itemField (B "." ++ name);
   mkItem itemSpace (B " "); mkItem itemRightDelim rightDelim].

Definition pieceItems (p : piece) : list item :=
  match p with
  | PText text => [mkItem itemText text]
  | PField name => fieldItems name
  end.

Definition segItems (s : segment) : list item := pieceItems (segPiece s).

(** Text that stays one piece of text when it is printed in front of a
    placeholder: it is not empty, holds no opening delimiter, and does
    not end in a brace that would open one with the next. *)
Definition plainText (text : bytes) : Prop :=
  text ≠ [] ∧ ¬ infix leftDelim text ∧ last text ≠ Some "{"%char.

#[export] Instance plainText_dec text : Decision (plainText text).
Proof. unfold plainText. apply _. Defined.

(** A name that the lexer reads as one field: a letter or an
    underscore, then letters, digits and underscores, all of them
    ASCII. *)
Definition identifier (name : bytes) : Prop :=
  match name with
  | [] => False
  | c :: name' =>
    isAlphaNumeric c ∧ ¬ isDigit c ∧ Forall (λ c, isAlphaNumeric c) name'
  end.

#[export] Instance identifier_dec name : Decision (identifier name).
Proof. destruct name; simpl; apply _. Defined.

(** Pieces that print to a text with the same pieces: each piece of
    text is plain and is followed by a placeholder or by nothing, and
    the name in each placeholder is an identifier. *)
Fixpoint wfPieces (ps : list piece) : Prop :=
  match ps with
  | [] => True
  | PText text :: ps' =>
    plainText text ∧
    match ps' with PText _ :: _ => False | _ => True end ∧ wfPieces ps'
  | PField name :: ps' => identifier name ∧ wfPieces ps'
  end.

#[export] Instance wfPieces_dec ps : Decision (wfPieces ps).
Proof.
  induction ps as [|[text|name] ps IH]; simpl; [apply _| |apply _].
  destruct ps as [|[] ?]; apply _.
Defined.

Definition wfSegments (segs : list segment) : Prop :=
  wfPieces (segPiece <$> segs).

#[export] Instance wfSegments_dec segs : Decision (wfSegments segs).
Proof. unfold wfSegments. apply _. Defined.

(** The lexer between two items in text mode, with [r] left to read. *)
Definition textLexer (r : bytes) : lexer := mkLexer [] r 0 false.

Section lexing_segments.
Implicit Types (text tail r name : bytes) (f : SpiderField) (p : piece).
Implicit Types (ps : list piece) (segs : list segment) (c : ascii).
Implicit Types (items : list item).

(** ** Paths of the lexer *)

(** What an alphanumeric byte is not. *)
Lemma isAlphaNumeric_terminator c :
  isAlphaNumeric c →
  isSpace c || bool_decide (c ∈ [".";  ","; "|"; ":"; ")"; "("]%char) = false ∧
  c ≠ "}"%char.
Proof.
  intros Hc.
  destruct c as [[] [] [] [] [] [] [] []]; vm_compute in Hc; try done; by vm_compute.
Qed.

(** The loop of [lexFieldOrVariable] reads a name up to the byte that
    ends it. *)
Lemma scanAlphaNumeric_app pend name c r :
  Forall (λ c, isAlphaNumeric c) name → ¬ isAlphaNumeric c →
  scanAlphaNumeric pend (name ++ c :: r) = (pend ++ name, c :: r).
Proof.
  intros Hname Hc. revert pend.
  induction Hname as [|d name Hd _ IH]; intros pend; cbn [app scanAlphaNumeric].
  - rewrite app_nil_r. by destruct (isAlphaNumeric c).
  - destruct (isAlphaNumeric d); [|done]. by rewrite IH, <-(assoc_L (++)).
Qed.

(** The dot in front of a name starts a field. *)
Lemma lexInsideAction_dot c r d :
  ¬ isDigit c →
  lexInsideAction (mkLexer [] ("."%char :: c :: r) d true) =
  Goto LexField (mkLexer ["."%char] (c :: r) d true).
Proof.
  intros Hc. unfold lexInsideAction, atRightDelim.
  cbn [rest hasRightTrimMarker next pending parenDepth insideAction app].
  change (isSpace "."%char) with false. cbn [andb].
  destruct (isDigit c); [by destruct Hc|done].
Qed.

(** [lexField] on a name that a space follows. *)
Lemma lexField_name c name r d a :
  isAlphaNumeric c → Forall (λ c, isAlphaNumeric c) name →
  lexField (mkLexer ["."%char] (c :: name ++ " "%char :: r) d a) =
  Emit (mkItem itemField ("."%char :: c :: name)) (mkLexer [] (" "%char :: r) d a).
Proof.
  intros Hc Hname. destruct (isAlphaNumeric_terminator c Hc) as [Hterm Hbrace].
  unfold lexField, atTerminator. cbn [peek rest head pending parenDepth insideAction].
  rewrite Hterm, (HasPrefix_cons_ne c "}"%char _ ["}"%char] Hbrace). cbn [orb].
  change (c :: name ++ " "%char :: r) with ((c :: name) ++ " "%char :: r).
  rewrite scanAlphaNumeric_app; [|by constructor|by vm_compute]. done.
Qed.

(** A placeholder: the delimiters, the field and the spaces between
    them, whatever the name and whatever follows. *)
Lemma lexReach_field name tail :
  identifier name →
  lexReach (Scanning LexText (textLexer (printField name ++ tail)))
    (fieldItems name)
    (Returned (mkItem itemRightDelim rightDelim) (textLexer tail)).
Proof.
  destruct name as [|c name]; [done|]. intros (Hc & Hd & Hname).
  unfold printField. rewrite <-!(assoc_L (++)).
  eapply lexReach_items.
  - eapply (lexReach_trans _ _
              (Scanning LexInsideAction
                 (mkLexer [] ("."%char :: c :: name ++ " "%char :: rightDelim ++ tail)
                          0 true))); [lex_path|].
    eapply reach_goto; [by apply lexInsideAction_dot|].
    eapply reach_emit_next; [by apply lexField_name|]. lex_path.
  - done.
Qed.

(** The end of the input. *)
Lemma lexReach_eof :
  lexReach (Scanning LexText (textLexer [])) [eofItem]
    (Returned eofItem (textLexer [])).
Proof. eapply lexReach_items; [lex_path|done]. Qed.

(** Plain text holds no opening delimiter, nor does it make one with
    the delimiter that follows it. *)
Lemma HasPrefix_leftDelim c text r :
  ¬ infix leftDelim (c :: text) → last (c :: text) ≠ Some "{"%char →
  HasPrefix (c :: text ++ leftDelim ++ r) leftDelim = false.
Proof.
  intros Hinfix Hlast. destruct (decide (c = "{"%char)) as [->|Hc];
    [|by apply HasPrefix_cons_ne].
  destruct text as [|d text]; [done|].
  change leftDelim with ["{"%char; "{"%char] in *. cbn [app].
  rewrite HasPrefix_cons.
  apply HasPrefix_cons_ne. intros ->. apply Hinfix. by exists [], text.
Qed.

Lemma Index_leftDelim text r :
  ¬ infix leftDelim text → last text ≠ Some "{"%char →
  Index (text ++ leftDelim ++ r) leftDelim = Some (length text).
Proof.
  induction text as [|c text IH]; intros Hinfix Hlast; [done|].
  cbn [app Index length]. rewrite HasPrefix_leftDelim by done.
  rewrite IH; [done|by intros ?%(infix_cons_r _ c)|].
  destruct text; [done|by rewrite last_cons_cons in Hlast].
Qed.

Lemma plainText_length text : plainText text → 0 < length text.
Proof. intros [Hne _]. destruct text; [done|simpl; lia]. Qed.

(** [lexText] on plain text in front of an action without trim
    marker. *)
Lemma lexText_lit_action text r :
  plainText text → hasLeftTrimMarker r = false →
  lexText (textLexer (text ++ leftDelim ++ r)) =
  Emit (mkItem itemText text) (textLexer (leftDelim ++ r)).
Proof.
  intros Hplain Hr. pose proof (plainText_length text Hplain).
  destruct Hplain as (_ & Hinfix & Hlast).
  unfold lexText, textLexer. cbn [rest]. rewrite Index_leftDelim by done.
  rewrite decide_True by done. unfold advance, ignore.
  cbn [pending rest parenDepth insideAction app].
  rewrite take_app_length, drop_app_length.
  change (drop (length leftDelim) (leftDelim ++ r)) with r.
  rewrite Hr, Nat.sub_0_r, firstn_all. cbn [val].
  by rewrite decide_True by done.
Qed.

(** [lexText] on text without delimiter at the end of the input. *)
Lemma lexText_lit_end text :
  text ≠ [] → ¬ infix leftDelim text →
  lexText (textLexer text) = Emit (mkItem itemText text) (textLexer []).
Proof.
  intros Hne Hinfix.
  assert (0 < length text) by (destruct text; [done|simpl; lia]).
  unfold lexText, textLexer. cbn [rest].
  rewrite (proj2 (Index_None _ _)) by done.
  unfold advance, emit, thisItem, ignore.
  cbn [pending rest parenDepth insideAction app].
  rewrite firstn_all, drop_all. by rewrite decide_True by done.
Qed.

Lemma wfPieces_tail p ps : wfPieces (p :: ps) → wfPieces ps.
Proof. destruct p; simpl; tauto. Qed.

Lemma printPieces_cons p ps :
  printPieces (p :: ps) = printPiece p ++ printPieces ps.
Proof. done. Qed.

Lemma printPieces_app ps1 ps2 :
  printPieces (ps1 ++ ps2) = printPieces ps1 ++ printPieces ps2.
Proof. unfold printPieces. by rewrite fmap_app, concat_app. Qed.

(** The path over one piece: its items are handed over, the last of
    them leaves the lexer in text mode in front of the other pieces. *)
Lemma lexReach_piece p ps :
  wfPieces (p :: ps) →
  ∃ i, typ i ≠ itemEOF ∧
    lexReach (Scanning LexText (textLexer (printPieces (p :: ps))))
      (pieceItems p) (Returned i (textLexer (printPieces ps))).
Proof.
  rewrite printPieces_cons. destruct p as [text|name].
  - intros (Hplain & Hnext & _). exists (mkItem itemText text).
    split; [done|]. apply reach_emit.
    destruct ps as [|[|name] ps]; [|done|]; cbn [printPiece lexStep].
    + rewrite app_nil_r. destruct Hplain as (? & ? & _). by apply lexText_lit_end.
    + rewrite printPieces_cons. cbn [printPiece]. unfold printField.
      rewrite <-(assoc_L (++) leftDelim). by apply lexText_lit_action.
  - intros [Hname _]. eexists. split; [|by apply lexReach_field]. done.
Qed.

(** The path over a whole template. *)
Lemma lexReach_pieces ps :
  wfPieces ps →
  lexReach (Scanning LexText (textLexer (printPieces ps)))
    (concat (pieceItems <$> ps) ++ [eofItem]) (Returned eofItem (textLexer [])).
Proof.
  induction ps as [|p ps IH]; intros Hwf; [apply lexReach_eof|].
  destruct (lexReach_piece p ps Hwf) as (i & Hi & Hreach).
  cbn [fmap list_fmap concat]. rewrite <-(assoc_L (++)).
  eapply lexReach_trans; [done|]. apply reach_nextItem; [done|].
  by eapply IH, wfPieces_tail.
Qed.

(** ** Trim markers *)

(** A placeholder with trim markers on both sides, [{{- .F -}}]. *)
Definition printTrimmedHole (f : SpiderField) : bytes :=
  leftDelim ++ B "- ." ++ fieldName f ++ B " -" ++ rightDelim.

(** Its items: the spaces next to the markers belong to the
    delimiters. *)
Definition trimmedHoleItems (f : SpiderField) : list item :=
  [mkItem itemLeftDelim leftDelim; mkItem itemField (B "." ++ fieldName f);
   mkItem itemRightDelim rightDelim].

Lemma take_TrimRight text :
  take (length text - rightTrimLength text) text = TrimRight text spaceChars.
Proof.
  unfold rightTrimLength. pose proof (TrimRight_length text spaceChars).
  destruct (TrimRight_prefix text spaceChars) as [k Hk].
  replace (length text - (length text - length (TrimRight text spaceChars)))
    with (length (TrimRight text spaceChars)) by lia.
  rewrite Hk at 2. by rewrite take_app_length.
Qed.

Lemma drop_TrimLeft text :
  drop (leftTrimLength text) text = TrimLeft text spaceChars.
Proof.
  unfold leftTrimLength.
  destruct (TrimLeft_suffix text spaceChars) as [k Hk].
  rewrite Hk at 1 3. rewrite length_app.
  replace (length k + length (TrimLeft text spaceChars) -
           length (TrimLeft text spaceChars)) with (length k) by lia.
  by rewrite drop_app_length.
Qed.

(** [lexText] in front of a left trim marker: the text item ends
    before the trailing spaces. *)
Lemma lexText_lit_trim text r :
  plainText text → TrimRight text spaceChars ≠ [] →
  hasLeftTrimMarker r = true →
  lexText (textLexer (text ++ leftDelim ++ r)) =
  Emit (mkItem itemText (TrimRight text spaceChars)) (textLexer (leftDelim ++ r)).
Proof.
  intros Hplain Hne Hr. pose proof (plainText_length text Hplain).
  destruct Hplain as (_ & Hinfix & Hlast).
  unfold lexText, textLexer. cbn [rest]. rewrite Index_leftDelim by done.
  rewrite decide_True by done. unfold advance, ignore.
  cbn [pending rest parenDepth insideAction app].
  rewrite take_app_length, drop_app_length.
  change (drop (length leftDelim) (leftDelim ++ r)) with r.
  rewrite Hr, take_TrimRight. cbn [val].
  rewrite decide_True; [done|].
  destruct (TrimRight text spaceChars); [done|simpl; lia].
Qed.

(** [lexRightDelim] on a right trim marker: the spaces after the
    delimiter are skipped. *)
Lemma lexRightDelim_trim r :
  lexRightDelim (mkLexer [] (B " -}}" ++ r) 0 true) =
  Emit (mkItem itemRightDelim rightDelim) (textLexer (TrimLeft r spaceChars)).
Proof. rewrite <-drop_TrimLeft. reflexivity. Qed.

Lemma lexReach_trimmed_hole f r :
  lexReach (Scanning LexText (textLexer (printTrimmedHole f ++ r)))
    (trimmedHoleItems f)
    (Returned (mkItem itemRightDelim rightDelim)
              (textLexer (TrimLeft r spaceChars))).
Proof.
  destruct f;
    (eapply lexReach_items;
     [eapply (lexReach_trans _ _
                (Scanning LexRightDelim (mkLexer [] (B " -}}" ++ r) 0 true)));
      [lex_path|apply reach_emit, lexRightDelim_trim]|done]).
Qed.

Lemma printTrimmedHole_app f r :
  printTrimmedHole f ++ r =
  leftDelim ++ B "- ." ++ fieldName f ++ B " -" ++ rightDelim ++ r.
Proof. unfold printTrimmedHole. by rewrite <-!(assoc_L (++)). Qed.

(** The path over text, a trimmed placeholder and text. *)
Lemma lexReach_trimmed text1 f text2 :
  plainText text1 → ¬ infix leftDelim text2 →
  TrimRight text1 spaceChars ≠ [] → TrimLeft text2 spaceChars ≠ [] →
  lexReach (Scanning LexText (textLexer (text1 ++ printTrimmedHole f ++ text2)))
    ([mkItem itemText (TrimRight text1 spaceChars)] ++ trimmedHoleItems f ++
     [mkItem itemText (TrimLeft text2 spaceChars)] ++ [eofItem])
    (Returned eofItem (textLexer [])).
Proof.
  intros Hplain Hdelim Hne1 Hne2.
  eapply lexReach_trans.
  { apply reach_emit. rewrite printTrimmedHole_app.
    apply lexText_lit_trim; [done..|by destruct f]. }
  rewrite <-printTrimmedHole_app. apply reach_nextItem; [done|].
  eapply lexReach_trans; [apply lexReach_trimmed_hole|].
  apply reach_nextItem; [done|].
  eapply lexReach_trans; [apply reach_emit, lexText_lit_end; [done|]|
                          apply reach_nextItem; [done|apply lexReach_eof]].
  intros Hinfix. apply Hdelim. eapply infix_trans; [done|].
  apply infix_suffix, TrimLeft_suffix.
Qed.

(** ** Defective templates *)

(** The items of an action up to its field. *)
Definition actionStart (f : SpiderField) : list item :=
  [mkItem itemLeftDelim leftDelim; mkItem itemSpace (B " ");
   mkItem itemField (B "." ++ fieldName f)].

(** The path over a text and what follows the delimiter after it. *)
Lemma lexReach_text text r items (cfg : lexConfig) :
  plainText text → hasLeftTrimMarker r = false →
  lexReach (Scanning LexText (textLexer (leftDelim ++ r))) items cfg →
  lexReach (Scanning LexText (textLexer (text ++ leftDelim ++ r)))
    (mkItem itemText text :: items) cfg.
Proof.
  intros Hplain Hr Hreach.
  eapply (lexReach_trans _ [_]); [by apply reach_emit, lexText_lit_action|].
  by apply reach_nextItem.
Qed.

(** An action that the text ends in: the scan ends with
    [unclosed action]. *)
Lemma lexReach_unclosed f :
  lexReach (Scanning LexText (textLexer (leftDelim ++ B " ." ++ fieldName f)))
    (actionStart f ++ [mkItem itemError (B "unclosed action")])
    (Halted (mkItem itemError (B "unclosed action"))).
Proof. destruct f; (eapply lexReach_items; [lex_path|done]). Qed.

(** A byte that is no part of a field name and ends none: the scan
    ends with [bad character]. *)
Lemma lexReach_bad_character f r :
  lexReach (Scanning LexText
              (textLexer (leftDelim ++ B " ." ++ fieldName f ++ B "-" ++ r)))
    ([mkItem itemLeftDelim leftDelim; mkItem itemSpace (B " ");
      mkItem itemError (B "bad character U+002D '-'")])
    (Halted (mkItem itemError (B "bad character U+002D '-'"))).
Proof. destruct f; (eapply lexReach_items; [lex_path|done]). Qed.

(** An action that holds nothing. *)
Lemma lexReach_empty_action :
  lexReach (Scanning LexText (textLexer (leftDelim ++ B " " ++ rightDelim)))
    ([mkItem itemLeftDelim leftDelim; mkItem itemSpace (B " ");
      mkItem itemRightDelim rightDelim; eofItem])
    (Returned eofItem (textLexer [])).
Proof. eapply lexReach_items; [lex_path|done]. Qed.

(** The items of a printed template. *)
Lemma lex_printPieces ps :
  wfPieces ps →
  lex (printPieces ps) = Lexed (concat (pieceItems <$> ps) ++ [eofItem]).
Proof.
  intros Hwf. by rewrite (lexReach_lex _ _ _ (lexReach_pieces ps Hwf)).
Qed.

Lemma segItems_segPiece segs : segItems <$> segs = pieceItems <$> (segPiece <$> segs).
Proof. by rewrite <-list_fmap_compose. Qed.

Lemma lex_printSegments segs :
  wfSegments segs →
  lex (printSegments segs) = Lexed (concat (segItems <$> segs) ++ [eofItem]).
Proof. intros Hwf. rewrite segItems_segPiece. by apply lex_printPieces. Qed.
End lexing_segments.

(** ** The parser on the items of pieces *)

Section parsing_segments.
Implicit Types (p : piece) (ps : list piece) (segs : list segment).
Implicit Types (ts : list item) (nodes : list Node) (sp : Spider).

Lemma textOrAction_pieceItems p ts :
  textOrAction (pieceItems p ++ ts) = Ok (pieceNode p, ts).
Proof. by destruct p. Qed.

Lemma pieceItems_length p : 0 < length (pieceItems p).
Proof. destruct p; simpl; lia. Qed.

Lemma pieceItems_head p ts : typ (nextItem (pieceItems p ++ ts)).1 ≠ itemEOF.
Proof. by destruct p. Qed.

Lemma parseLoop_pieceItems fuel ps nodes :
  length (concat (pieceItems <$> ps)) < fuel →
  parseLoop fuel (concat (pieceItems <$> ps) ++ [eofItem]) nodes =
  Ok (nodes ++ (pieceNode <$> ps)).
Proof.
  revert fuel nodes. induction ps as [|p ps IH]; intros [|fuel] nodes Hfuel;
    [simpl in Hfuel; lia|by rewrite app_nil_r|simpl in Hfuel; lia|].
  cbn [fmap list_fmap concat] in *. rewrite <-(assoc_L (++)).
  cbn [parseLoop]. rewrite decide_False by apply pieceItems_head.
  rewrite textOrAction_pieceItems. cbn [mbind result_bind].
  pose proof (pieceItems_length p). rewrite length_app in Hfuel.
  rewrite IH by lia. by rewrite <-(assoc_L (++)).
Qed.

(** One node for each piece. *)
Lemma parseItems_pieceItems ps :
  parseItems (concat (pieceItems <$> ps) ++ [eofItem]) = Ok (pieceNode <$> ps).
Proof.
  unfold parseItems. rewrite parseLoop_pieceItems; [done|].
  rewrite length_app. simpl. lia.
Qed.

Lemma parseItems_segItems segs :
  parseItems (concat (segItems <$> segs) ++ [eofItem]) = Ok (segNode <$> segs).
Proof. rewrite segItems_segPiece, segNode_segPiece. apply parseItems_pieceItems. Qed.

(** [template.Parse] on a printed template, and lines 71-78 on it. *)
Lemma parse_printPieces_nodes ps :
  wfPieces ps → parse (printPieces ps) = Ok (pieceNode <$> ps).
Proof.
  intros Hwf. unfold parse. by rewrite lex_printPieces, parseItems_pieceItems.
Qed.

Lemma parseAndExecute_pieces `{Writer W} ps sp (wr : W) :
  wfPieces ps → Forall piece_plain ps →
  parseAndExecute (printPieces ps) sp wr = Ok (writeChunks wr (renderPieces sp ps)).
Proof.
  intros Hwf Hplain. unfold parseAndExecute. rewrite parse_printPieces_nodes by done.
  cbn [mbind result_bind]. by rewrite Execute_writeChunks, executeChunks_pieces.
Qed.

(** C17: printing and parsing.  A template printed from well-formed
    pieces, whatever the names in its placeholders, is scanned into the
    items of its pieces and parsed into the nodes of its pieces:
    [template.Parse] succeeds and reads back what was printed. *)
Theorem parse_printPieces ps :
  wfPieces ps →
  lex (printPieces ps) = Lexed (concat (pieceItems <$> ps) ++ [eofItem]) ∧
  parse (printPieces ps) = Ok (pieceNode <$> ps).
Proof.
  intros Hwf. by rewrite lex_printPieces, parse_printPieces_nodes.
Qed.

(** The spider template and its like: the names are fields of
    [Spider]. *)
Lemma parse_printSegments segs :
  wfSegments segs →
  lex (printSegments segs) = Lexed (concat (segItems <$> segs) ++ [eofItem]) ∧
  parse (printSegments segs) = Ok (segNode <$> segs).
Proof.
  intros Hwf. unfold parse. rewrite lex_printSegments by done.
  split; [done|apply parseItems_segItems].
Qed.

(** C18: trim markers.  A placeholder written [{{- .F -}}] between two
    texts is parsed into the first text without its trailing spaces,
    the action, and the second text without its leading spaces: the
    markers remove the white space around the action, and the spaces
    next to the markers are no items of their own. *)
Theorem parse_trim_markers text1 f text2 :
  plainText text1 → ¬ infix leftDelim text2 →
  TrimRight text1 spaceChars ≠ [] → TrimLeft text2 spaceChars ≠ [] →
  parse (text1 ++ printTrimmedHole f ++ text2) =
  Ok [TextNode (TrimRight text1 spaceChars); segNode (Hole f);
      TextNode (TrimLeft text2 spaceChars)].
Proof.
  intros Hplain Hdelim Hne1 Hne2. unfold parse.
  rewrite (lexReach_lex _ _ _
             (lexReach_trimmed text1 f text2 Hplain Hdelim Hne1 Hne2)) by done.
  by destruct f.
Qed.

(** C19: defects of a template.  [template.Parse] fails, which is the
    panic of line 73, on a text followed by an action that is not
    closed, by an action that holds nothing, and by a field name that
    runs into a byte that cannot follow it; the errors are the ones of
    the lexer and of the parser of [text/template]. *)
Theorem parse_defects text f r :
  plainText text →
  parse (text ++ leftDelim ++ B " ." ++ fieldName f) =
    Err (ParseFailed (ErrLex (B "unclosed action"))) ∧
  parse (text ++ leftDelim ++ B " " ++ rightDelim) =
    Err (ParseFailed (ErrMissingValue "command")) ∧
  parse (text ++ leftDelim ++ B " ." ++ fieldName f ++ B "-" ++ r) =
    Err (ParseFailed (ErrLex (B "bad character U+002D '-'"))).
Proof.
  intros Hplain. unfold parse. split; [|split].
  - rewrite (lexReach_lex _ _ _
               (lexReach_text text (B " ." ++ fieldName f) _ _ Hplain eq_refl
                  (lexReach_unclosed f))) by done.
    by destruct f.
  - by rewrite (lexReach_lex _ _ _
               (lexReach_text text (B " " ++ rightDelim) _ _ Hplain eq_refl
                  lexReach_empty_action)).
  - by rewrite (lexReach_lex _ _ _
               (lexReach_text text (B " ." ++ fieldName f ++ B "-" ++ r) _ _
                  Hplain eq_refl (lexReach_bad_character f r))).
Qed.

(** C16: lines 71-78 on any template of text and placeholders, and on
    any writer: when the pieces are well formed and the text holds no
    [<], the printed template parses, its evaluation never fails, and
    the writer is handed the pieces in order, each placeholder replaced
    by the escaped value of its field, up to the first write that
    fails; a buffer ends up with [render] after what it held. *)
Theorem parseAndExecute_printSegments `{Writer W} segs sp (wr : W) (buf : bytes) :
  wfSegments segs → Forall segment_plain segs →
  parseAndExecute (printSegments segs) sp wr =
    Ok (writeChunks wr (renderSegment sp <$> segs, None)) ∧
  parseAndExecute (printSegments segs) sp buf = Ok (buf ++ render segs sp, None).
Proof.
  intros Hwf Hplain%piece_plain_segPiece. unfold printSegments.
  rewrite !parseAndExecute_pieces by done.
  by rewrite renderPieces_segPiece, writeChunks_buffer.
Qed.
(** C20: a placeholder that names no field of [Spider].
    [template.Parse] accepts the template, so the panic of line 73 is
    not reached: the name is looked up when the template is executed.
    [Execute] hands the writer the pieces in front of the placeholder,
    the escaped values of their fields among them, and then fails with
    [can't evaluate field], which is the panic of line 77; nothing of
    what follows the placeholder is written. *)
Theorem parseAndExecute_unknown_field `{Writer W} segs name ps sp (wr : W)
    (buf : bytes) :
  wfPieces ((segPiece <$> segs) ++ PField name :: ps) →
  Forall segment_plain segs → Forall piece_plain ps →
  lookupField sp name = None →
  let text := printSegments segs ++ printField name ++ printPieces ps in
  let e := ExecFailed (ErrCantEvaluateField name "*main.Spider") in
  parse text = Ok ((segNode <$> segs) ++ pieceNode (PField name) :: (pieceNode <$> ps)) ∧
  parseAndExecute text sp wr =
    Ok (writeChunks wr (renderSegment sp <$> segs, Some e)) ∧
  parseAndExecute text sp buf = Ok (buf ++ render segs sp, Some e).
Proof.
  intros Hwf Hsegs Hps Hname. cbn zeta.
  change (printField name ++ printPieces ps) with (printPieces (PField name :: ps)).
  unfold printSegments. rewrite <-printPieces_app.
  assert (Forall piece_plain ((segPiece <$> segs) ++ PField name :: ps)) as Hplain.
  { apply Forall_app. split; [by apply piece_plain_segPiece|by constructor]. }
  rewrite parse_printPieces_nodes, !parseAndExecute_pieces by done.
  rewrite fmap_app, <-segNode_segPiece, renderPieces_unknown by done.
  by rewrite writeChunks_buffer.
Qed.
End parsing_segments.

(** The spider template is what its pieces print. *)
Lemma printSegments_spiderSegments : printSegments spiderSegments = spiderTemplate.
Proof. reflexivity. Qed.

Lemma spiderSegments_wf : wfSegments spiderSegments.
Proof. apply (bool_decide_unpack _). by vm_compute. Qed.

Lemma parse_printPieces_witness :
  lex (printPieces (segPiece <$> spiderSegments)) =
    Lexed (concat (pieceItems <$> (segPiece <$> spiderSegments)) ++ [eofItem]) ∧
  parse (printPieces (segPiece <$> spiderSegments)) =
    Ok (pieceNode <$> (segPiece <$> spiderSegments)).
Proof.
  apply (parse_printPieces (segPiece <$> spiderSegments)).
  apply (bool_decide_unpack _). by vm_compute.
Defined.

(** The class line of the spider template with the name misspelled:
    the text in front of the placeholder is written, and nothing
    else. *)
Lemma parseAndExecute_unknown_field_witness :
  let text := printSegments [Lit (B "class ")] ++ printField (B "Nmae") ++
              printPieces [PText (B "Spider")] in
  let e := ExecFailed (ErrCantEvaluateField (B "Nmae") "*main.Spider") in
  let sp := mkSpider (B "MarineTraffic") [] [] in
  parse text =
    Ok ((segNode <$> [Lit (B "class ")]) ++ pieceNode (PField (B "Nmae")) ::
        (pieceNode <$> [PText (B "Spider")])) ∧
  parseAndExecute text sp (mkFile [] 100) =
    Ok (writeChunks (mkFile [] 100) (renderSegment sp <$> [Lit (B "class ")], Some e)) ∧
  parseAndExecute text sp terminal = Ok (terminal ++ render [Lit (B "class ")] sp, Some e).
Proof.
  apply (parseAndExecute_unknown_field [Lit (B "class ")] (B "Nmae")
           [PText (B "Spider")] (mkSpider (B "MarineTraffic") [] []));
    first [apply (bool_decide_unpack _); by vm_compute|by vm_compute].
Defined.

Lemma parseAndExecute_printSegments_witness :
  parseAndExecute (printSegments [Lit (B "a = "); Hole FURL])
    (mkSpider [] [] (B "x<y")) (mkFile [] 6) =
    Ok (mkFile (B "a = x&") 0, Some (ExecWrite (PathError ENOSPC))) ∧
  parseAndExecute (printSegments [Lit (B "a = "); Hole FURL])
    (mkSpider [] [] (B "x<y")) terminal = Ok (B "a = x&lt;y", None).
Proof.
  destruct (parseAndExecute_printSegments [Lit (B "a = "); Hole FURL]
              (mkSpider [] [] (B "x<y")) (mkFile [] 6) terminal) as [-> ->];
    [apply (bool_decide_unpack _); by vm_compute..|by vm_compute].
Defined.

Lemma parse_defects_witness :
  parse (B "class " ++ leftDelim ++ B " ." ++ fieldName FName) =
    Err (ParseFailed (ErrLex (B "unclosed action"))) ∧
  parse (B "class " ++ leftDelim ++ B " " ++ rightDelim) =
    Err (ParseFailed (ErrMissingValue "command")) ∧
  parse (B "class " ++ leftDelim ++ B " ." ++ fieldName FName ++ B "-" ++
         B "Spider }}:") =
    Err (ParseFailed (ErrLex (B "bad character U+002D '-'"))).
Proof.
  apply (parse_defects (B "class ") FName (B "Spider }}:")).
  apply (bool_decide_unpack _). by vm_compute.
Defined.

Lemma parse_trim_markers_witness :
  parse (B "name:  " ++ printTrimmedHole FName ++ [LF; LF] ++ B "end") =
  Ok [TextNode (B "name:"); segNode (Hole FName); TextNode (B "end")].
Proof.
  apply (parse_trim_markers (B "name:  ") FName ([LF; LF] ++ B "end"));
    apply (bool_decide_unpack _); by vm_compute.
Defined.
