(* ===== verification/Markers.v ===== *)
(** * Placeholder markers in the output

    The specification of the renderer asks that no output contains a
    placeholder marker.  The text of the spider template around its
    placeholders holds no brace, and escaping neither adds nor removes
    one, so the output contains the opening delimiter exactly when the
    value of a field does. *)

From Stdlib Require Import Ascii.
From stdpp Require Import base tactics option list strings.
From S2P Require Import Prelude GoStrings Spider Utf8 HtmlEscape Lexer Parser.
From S2P Require Import Exec Template.

(** [doubled x l]: [x] occurs twice in a row in [l]. *)
Definition doubled {A} (x : A) (l : list A) : Prop := infix [x; x] l.

(** The byte that opens a delimiter. *)
Definition brace : ascii := "{"%char.

(** [hasLeftDelim l]: the opening delimiter of a placeholder occurs in
    [l]. *)
Definition hasLeftDelim (l : bytes) : Prop := infix leftDelim l.

#[export] Instance hasLeftDelim_dec l : Decision (hasLeftDelim l).
Proof. unfold hasLeftDelim. apply _. Defined.

(** A template whose text pieces hold no [x], with a non-empty text
    piece between any two placeholders. *)
Fixpoint separated (x : ascii) (segs : list segment) : Prop :=
  match segs with
  | [] => True
  | Lit text :: segs' => (x ∉ text) ∧ separated x segs'
  | Hole _ :: segs' =>
    match segs' with
    | [] => True
    | Lit text :: _ => text ≠ [] ∧ separated x segs'
    | Hole _ :: _ => False
    end
  end.

#[export] Instance doubled_dec `{EqDecision A} (x : A) l : Decision (doubled x l).
Proof. unfold doubled. apply _. Defined.

#[export] Instance separated_dec x segs : Decision (separated x segs).
Proof.
  induction segs as [|[text|f] segs IH]; simpl; [apply _..|].
  destruct segs as [|[text|g] segs]; apply _.
Defined.

Section doubled_lemmas.
Context {A : Type}.
Implicit Types (x c : A) (l k t : list A).

Lemma doubled_nil x : ¬ doubled x [].
Proof. by intros ?%infix_nil_r. Qed.

Lemma doubled_cons x c l :
  doubled x (c :: l) ↔ (c = x ∧ head l = Some x) ∨ doubled x l.
Proof.
  unfold doubled. rewrite infix_cons_inv. apply or_iff_compat_r. split.
  - intros [k Hk]. destruct l as [|d l]; simplify_eq/=. done.
  - intros [-> Hl]. destruct l as [|d l]; simplify_eq/=. by exists l.
Qed.

Lemma doubled_app x l k :
  doubled x (l ++ k) ↔
  doubled x l ∨ doubled x k ∨ (last l = Some x ∧ head k = Some x).
Proof.
  induction l as [|c l IH]; cbn [app].
  - pose proof (doubled_nil x). simpl. intuition congruence.
  - rewrite !doubled_cons, IH. destruct l as [|d l].
    + pose proof (doubled_nil x). simpl. intuition congruence.
    + change (last (c :: d :: l)) with (last (d :: l)). simpl. tauto.
Qed.

Lemma doubled_free x l : x ∉ l → ¬ doubled x l.
Proof.
  intros Hx (a & b & ->). apply Hx.
  rewrite elem_of_app. right. by left.
Qed.

Lemma last_free x l : x ∉ l → last l ≠ Some x.
Proof. intros Hx Hl. apply Hx. by apply last_Some_elem_of. Qed.

Lemma head_free x l : x ∉ l → head l ≠ Some x.
Proof. intros Hx Hl. apply Hx. by apply head_Some_elem_of. Qed.

(** A piece without [x] in front contributes nothing. *)
Lemma doubled_app_free x t k : x ∉ t → doubled x (t ++ k) ↔ doubled x k.
Proof.
  intros Hx. rewrite doubled_app.
  pose proof (doubled_free x t Hx). pose proof (last_free x t Hx). tauto.
Qed.

(** Nor does one between two others, if it is not empty. *)
Lemma doubled_app_sep x l t k :
  x ∉ t → t ≠ [] → doubled x (l ++ t ++ k) ↔ doubled x l ∨ doubled x k.
Proof.
  intros Hx Ht. rewrite doubled_app, doubled_app_free by done.
  destruct t as [|c t]; [done|]. simpl.
  assert (c ≠ x) by (intros ->; apply Hx; by left).
  intuition congruence.
Qed.
End doubled_lemmas.

(** ** Escaping keeps the braces where they are *)

Lemma escapeByte_nonempty : ∀ c, escapeByte htmlReplacementTable c ≠ [].
Proof. byte_cases. Qed.

Lemma escapeByte_head_brace :
  ∀ c, head (escapeByte htmlReplacementTable c) = Some brace ↔ c = brace.
Proof. byte_cases. Qed.

Lemma escapeByte_last_brace :
  ∀ c, last (escapeByte htmlReplacementTable c) = Some brace ↔ c = brace.
Proof. byte_cases. Qed.

Lemma escapeByte_not_doubled :
  ∀ c, ¬ doubled brace (escapeByte htmlReplacementTable c).
Proof. byte_cases. Qed.

Section markers.
Context `{RuneDecoder}.
Implicit Types (s : bytes) (sp : Spider) (segs : list segment).

Lemma head_htmlEscaper s :
  head (htmlEscaper s) = Some brace ↔ head s = Some brace.
Proof.
  destruct s as [|c s]; [by rewrite htmlEscaper_nil|].
  rewrite htmlEscaper_cons. pose proof (escapeByte_nonempty c).
  pose proof (escapeByte_head_brace c) as Hc.
  destruct (escapeByte htmlReplacementTable c); [done|].
  simpl in *. rewrite Hc. split; congruence.
Qed.

(** Escaping neither creates nor destroys a doubled brace. *)
Lemma doubled_htmlEscaper s :
  doubled brace (htmlEscaper s) ↔ doubled brace s.
Proof.
  induction s as [|c s IH]; [by rewrite htmlEscaper_nil|].
  rewrite htmlEscaper_cons, doubled_app, doubled_cons, IH.
  rewrite head_htmlEscaper, escapeByte_last_brace.
  pose proof (escapeByte_not_doubled c). tauto.
Qed.

Lemma doubled_renderSegment sp f :
  doubled brace (renderSegment sp (Hole f)) ↔ doubled brace (fieldValue sp f).
Proof. apply doubled_htmlEscaper. Qed.

(** The output of a separated template holds a doubled brace exactly
    when a field it refers to does. *)
Lemma doubled_render segs sp :
  separated brace segs →
  doubled brace (render segs sp) ↔
  Exists (λ f, doubled brace (fieldValue sp f)) (holes segs).
Proof.
  induction segs as [|[text|f] segs IH]; intros Hsep.
  - rewrite Exists_nil. split; [apply doubled_nil|done].
  - destruct Hsep as [Htext Hsep]. rewrite render_cons. cbn [renderSegment].
    rewrite doubled_app_free by done. by apply IH.
  - rewrite holes_cons, Exists_app. change (holes [Hole f]) with [f].
    rewrite Exists_cons, Exists_nil, render_cons, <-doubled_renderSegment.
    destruct segs as [|[text|g] segs]; [|destruct Hsep as [Htext Hsep]|done].
    + rewrite render_nil, app_nil_r, Exists_nil. simpl. tauto.
    + rewrite <-(IH Hsep), !render_cons. cbn [renderSegment] in *.
      destruct Hsep as [Hfree _].
      rewrite doubled_app_sep, doubled_app_free by done. simpl. tauto.
Qed.

Lemma spiderSegments_separated : separated brace spiderSegments.
Proof. apply (bool_decide_unpack _). by vm_compute. Qed.

(** C30: the output for the spider template contains the opening
    delimiter of a placeholder exactly when the value of one of the
    three fields contains it: the template leaves no marker of its own
    behind, and a marker in a value is written as it is. *)
Theorem render_spec_leftDelim sp :
  hasLeftDelim (render_spec sp) ↔
  hasLeftDelim (Name sp) ∨ hasLeftDelim (Doc sp) ∨ hasLeftDelim (URL sp).
Proof.
  change hasLeftDelim with (doubled brace). unfold render_spec.
  rewrite doubled_render by apply spiderSegments_separated. simpl.
  rewrite !Exists_cons, Exists_nil. simpl. tauto.
Qed.
End markers.

(** A name that is itself a placeholder is written as it is: the
    output then contains a placeholder marker. *)
Theorem render_spec_marker_leak :
  hasLeftDelim (render_spec (mkSpider (B "{{ .Name }}") [] [])) ∧
  infix (B "class {{ .Name }}Spider")
        (render_spec (mkSpider (B "{{ .Name }}") [] [])).
Proof. split; apply (bool_decide_unpack _); by vm_compute. Qed.
