(* ===== verification/Flags.v ===== *)
(** * Command-line flags (package [flag])

    [main] defines three string flags on the package's flag set
    [CommandLine] (lines 50-53 of [swissknife.go]) and calls
    [flag.Parse()] (line 57), which runs [FlagSet.Parse] on the program's
    arguments with the error handling [ExitOnError].

    A [*string] that [flag.String] returns is modelled by the name of its
    flag: a flag set never holds two flags of one name ([Var] panics on a
    redefinition), so the name identifies the variable, and [deref] reads
    it through the flag set.  What the package writes to its output (the
    standard error stream) is kept as a trace of events; [Usage] gives
    their bytes.

    [wfFlagSet] is the invariant of the flag sets the package builds and
    [sameDecls] the relation between flag sets that declare the same
    flags; [Parse_wf] shows that parsing preserves both. *)

From Stdlib Require Import Ascii.
From stdpp Require Import base tactics option list strings gmap.
From S2P Require Import Prelude GoStrings.

Module flag.

(** [type Flag struct]: the state of a flag.  [Value] is the current
    content of the string variable behind the flag. *)
Record Flag : Type := mkFlag {
  Name : bytes;
  Usage : bytes;
  Value : bytes;
  DefValue : bytes;
}.

(** [type ErrorHandling]. *)
Inductive ErrorHandling : Type :=
  | ContinueOnError
  | ExitOnError
  | PanicOnError.

(** The errors of [parseOne]; [ErrHelp] is the package's sentinel.  A
    string flag accepts every value, so no error of [Value.Set] arises. *)
Inductive flagError : Type :=
  | ErrHelp
  | ErrBadSyntax (s : bytes)
  | ErrNotDefined (name : bytes)
  | ErrNeedsArgument (name : bytes).

(** The panics of [Var]. *)
Inductive flagPanic : Type :=
  | PanicBeginsWithMinus (name : bytes)
  | PanicContainsEquals (name : bytes)
  | PanicRedefined (name : bytes).

(** What is written to [f.Output()]: a line of text, or the usage
    message. *)
Inductive outEvent : Type :=
  | WriteLine (msg : bytes)
  | UsageCalled.

(** The values the field [Usage func()] of a flag set takes: [nil], or
    the function [commandLineUsage] that the package installs on
    [CommandLine]. *)
Inductive usageFunc : Type :=
  | UsageNil
  | UsageCommandLine.

(** [type FlagSet struct].  [actual] holds the names of the flags that
    were set; the flag behind a name is the one of [formal]. *)
Record FlagSet : Type := mkFlagSet {
  usageFn : usageFunc;
  name : bytes;
  parsed : bool;
  actual : gset bytes;
  formal : gmap bytes Flag;
  args : list bytes;
  errorHandling : ErrorHandling;
  output : list outEvent;
}.

#[export] Instance Flag_eq_dec : EqDecision Flag.
Proof. solve_decision. Defined.
#[export] Instance ErrorHandling_eq_dec : EqDecision ErrorHandling.
Proof. solve_decision. Defined.
#[export] Instance flagError_eq_dec : EqDecision flagError.
Proof. solve_decision. Defined.
#[export] Instance flagPanic_eq_dec : EqDecision flagPanic.
Proof. solve_decision. Defined.
#[export] Instance usageFunc_eq_dec : EqDecision usageFunc.
Proof. solve_decision. Defined.
#[export] Instance outEvent_eq_dec : EqDecision outEvent.
Proof. solve_decision. Defined.

(** Assignments to the fields of a flag set. *)
Definition setParsed (f : FlagSet) (b : bool) : FlagSet :=
  mkFlagSet (usageFn f) (name f) b (actual f) (formal f) (args f) (errorHandling f) (output f).
Definition setActual (f : FlagSet) (a : gset bytes) : FlagSet :=
  mkFlagSet (usageFn f) (name f) (parsed f) a (formal f) (args f) (errorHandling f) (output f).
Definition setFormal (f : FlagSet) (m : gmap bytes Flag) : FlagSet :=
  mkFlagSet (usageFn f) (name f) (parsed f) (actual f) m (args f) (errorHandling f) (output f).
Definition setArgs (f : FlagSet) (a : list bytes) : FlagSet :=
  mkFlagSet (usageFn f) (name f) (parsed f) (actual f) (formal f) a (errorHandling f) (output f).
Definition write (f : FlagSet) (e : outEvent) : FlagSet :=
  mkFlagSet (usageFn f) (name f) (parsed f) (actual f) (formal f) (args f) (errorHandling f)
            (output f ++ [e]).

(** [NewFlagSet(name, errorHandling)]. *)
Definition NewFlagSet (name : bytes) (errorHandling : ErrorHandling) : FlagSet :=
  mkFlagSet UsageNil name false ∅ ∅ [] errorHandling [].

Definition setUsage (f : FlagSet) (u : usageFunc) : FlagSet :=
  mkFlagSet u (name f) (parsed f) (actual f) (formal f) (args f)
            (errorHandling f) (output f).

(** [var CommandLine = NewFlagSet(os.Args[0], ExitOnError)], with the
    assignment [CommandLine.Usage = commandLineUsage] of the package's
    [init]. *)
Definition CommandLine (arg0 : bytes) : FlagSet :=
  setUsage (NewFlagSet arg0 ExitOnError) UsageCommandLine.

(** The text of an error. *)
Definition errorText (e : flagError) : bytes :=
  match e with
  | ErrHelp => B "flag: help requested"
  | ErrBadSyntax s => B "bad flag syntax: " ++ s
  | ErrNotDefined name => B "flag provided but not defined: -" ++ name
  | ErrNeedsArgument name => B "flag needs an argument: -" ++ name
  end.

(** [f.usage()]. *)
Definition usage (f : FlagSet) : FlagSet := write f UsageCalled.

(** [f.failf]: the message goes to the output, then the usage. *)
Definition failf (f : FlagSet) (e : flagError) : FlagSet * bool * option flagError :=
  (usage (write f (WriteLine (errorText e))), false, Some e).

(** [f.Var(value, name, usage)] for a string variable holding [value].
    Before each of its panics Go writes the message of the panic to the
    output of the flag set ([f.sprintf]); that line is left out, as no
    run of the program reaches a panic of [Var]
    ([Main.defineFlags_ok]).  The check of recent versions of Go that
    the name was not set before it is defined ([f.undef], filled by
    [Set] only) is left out as well: the program calls [String] before
    [Parse] and never calls [Set]. *)
Definition Var (f : FlagSet) (value name usage : bytes) : result flagPanic FlagSet :=
  if HasPrefix name (B "-") then Err (PanicBeginsWithMinus name)
  else if bool_decide ("="%char ∈ name) then Err (PanicContainsEquals name)
  else
    let flag := mkFlag name usage value value in
    match formal f !! name with
    | Some _ => Err (PanicRedefined name)
    | None => Ok (setFormal f (<[name := flag]> (formal f)))
    end.

(** [f.String(name, value, usage)]: a new variable set to [value], bound
    to the flag, and its address. *)
Definition String (f : FlagSet) (name value usage : bytes)
    : result flagPanic (FlagSet * bytes) :=
  f' ← Var f value name usage; Ok (f', name).

(** [*p] for a pointer that [String] returned.  The variable that
    [String] allocates is read and written through the flag only, so a
    pointer is modelled by the name of its flag and the variable by the
    [Value] field. *)
Definition deref (f : FlagSet) (p : bytes) : bytes :=
  from_option Value [] (formal f !! p).

(** The loop of [parseOne] that looks for [=] from index 1 on: the name,
    the value and whether there is one. *)
Definition splitValue (name : bytes) : bytes * bytes * bool :=
  match name with
  | c :: rest =>
    match Index rest (B "=") with
    | Some i => (c :: take i rest, drop (S i) rest, true)
    | None => (name, [], false)
    end
  | [] => (name, [], false)
  end.

(** [stringValue.Set] on the variable of the flag [name], and the entry
    in [actual]. *)
Definition setFlag (f : FlagSet) (name : bytes) (flag : Flag) (value : bytes)
    : FlagSet :=
  let flag' := mkFlag (Name flag) (Usage flag) value (DefValue flag) in
  setActual (setFormal f (<[name := flag']> (formal f))) ({[name]} ∪ actual f).

(** [f.parseOne()]: the flag set after the step, whether a flag was seen,
    and the error. *)
Definition parseOne (f : FlagSet) : FlagSet * bool * option flagError :=
  match args f with
  | [] => (f, false, None)
  | s :: args' =>
    match s with
    | c0 :: c1 :: _ =>
      if bool_decide (c0 ≠ "-"%char) then (f, false, None) else
      let numMinuses := if bool_decide (c1 = "-"%char) then 2 else 1 in
      if bool_decide (c1 = "-"%char) && bool_decide (length s = 2) then
        (setArgs f args', false, None)
      else
      let name := drop numMinuses s in
      if bool_decide (length name = 0) ||
         bool_decide (head name = Some "-"%char) ||
         bool_decide (head name = Some "="%char)
      then failf f (ErrBadSyntax s) else
      let f := setArgs f args' in
      let '(name, value, hasValue) := splitValue name in
      match formal f !! name with
      | None =>
        if bool_decide (name = B "help") || bool_decide (name = B "h") then
          (usage f, false, Some ErrHelp)
        else failf f (ErrNotDefined name)
      | Some flag =>
        match hasValue, args f with
        | true, _ => (setFlag f name flag value, true, None)
        | false, value :: args'' =>
          (setFlag (setArgs f args'') name flag value, true, None)
        | false, [] => failf f (ErrNeedsArgument name)
        end
      end
    | _ => (f, false, None)
    end
  end.

(** How [Parse] ends. *)
Inductive parseOutcome : Type :=
  | Parsed (f : FlagSet)
  | ParseError (f : FlagSet) (e : flagError)
  | ParseExit (f : FlagSet) (code : nat)
  | ParsePanic (f : FlagSet) (e : flagError)
  | ParseOutOfFuel.

(** What [Parse] does with an error of [parseOne]. *)
Definition handleError (f : FlagSet) (e : flagError) : parseOutcome :=
  match errorHandling f with
  | ContinueOnError => ParseError f e
  | ExitOnError =>
    if bool_decide (e = ErrHelp) then ParseExit f 0 else ParseExit f 2
  | PanicOnError => ParsePanic f e
  end.

(** The loop of [Parse]. *)
Fixpoint Parse_loop (fuel : nat) (f : FlagSet) : parseOutcome :=
  match fuel with
  | 0 => ParseOutOfFuel
  | S fuel' =>
    match parseOne f with
    | (f', true, _) => Parse_loop fuel' f'
    | (f', false, None) => Parsed f'
    | (f', false, Some e) => handleError f' e
    end
  end.

(** [f.Parse(arguments)].  Every step that continues the loop consumes
    an argument, so one more step than there are arguments is enough. *)
Definition Parse (f : FlagSet) (arguments : list bytes) : parseOutcome :=
  Parse_loop (S (length arguments)) (setArgs (setParsed f true) arguments).

(** ** Reference behaviour: assignments *)

(** A flag name that [parseOne] reads back from [-name=value]. *)
Definition validName (k : bytes) : Prop :=
  match k with
  | c :: k' => c ≠ "-"%char ∧ c ≠ "="%char ∧ "="%char ∉ k'
  | [] => False
  end.

#[export] Instance validName_dec k : Decision (validName k).
Proof. destruct k; simpl; apply _. Defined.

(** An argument that names a flag: one dash or two, the name, and a
    value after [=] if there is one. *)
Definition flagArg (two : bool) (k : bytes) (ov : option bytes) : bytes :=
  (if two then B "--" else B "-") ++ k ++
  match ov with Some v => B "=" ++ v | None => [] end.

(** The argument [-k=v]. *)
Definition assignArg (kv : bytes * bytes) : bytes :=
  flagArg false kv.1 (Some kv.2).

(** What the argument [-k=v] does to a flag set. *)
Definition assign (f : FlagSet) (kv : bytes * bytes) : FlagSet :=
  match formal f !! kv.1 with
  | Some fl => setFlag f kv.1 fl kv.2
  | None => f
  end.

(** The value the last assignment to [k] gives. *)
Definition lastValue (kvs : list (bytes * bytes)) (k : bytes) : option bytes :=
  snd <$> last (filter (λ kv, kv.1 = k) kvs).

(** ** Well-formed flag sets *)

(** What a flag was declared with: its name, its usage text and the text
    of its default.  Parsing changes the value of a flag, never these. *)
Definition decl (fl : Flag) : bytes * bytes * bytes :=
  (Name fl, Usage fl, DefValue fl).

(** The flag sets that [NewFlagSet], [Var] and [Parse] build: a flag is
    stored under its own name, a name passed the checks of [Var], and
    only defined flags are recorded as set. *)
Record wfFlagSet (f : FlagSet) : Prop := mkWfFlagSet {
  wf_names : ∀ k fl, formal f !! k = Some fl → Name fl = k;
  wf_checked : ∀ k, k ∈ dom (formal f) →
    HasPrefix k (B "-") = false ∧ "="%char ∉ k;
  wf_actual : actual f ⊆ dom (formal f);
}.

(** [f'] declares the flags of [f], and prints usage as [f] does. *)
Definition sameDecls (f f' : FlagSet) : Prop :=
  decl <$> formal f' = decl <$> formal f ∧
  usageFn f' = usageFn f ∧ name f' = name f ∧
  errorHandling f' = errorHandling f.

(** What a failing step writes: the message of the error, but for a
    request for help, and the usage. *)
Definition errorEvents (e : flagError) : list outEvent :=
  match e with
  | ErrHelp => [UsageCalled]
  | _ => [WriteLine (errorText e); UsageCalled]
  end.

(** The exit code for an error under [ExitOnError]. *)
Definition exitCode (e : flagError) : nat :=
  if bool_decide (e = ErrHelp) then 0 else 2.

(** The flag set [Parse] ends with, if it ends. *)
Definition finalFlagSet (o : parseOutcome) : option FlagSet :=
  match o with
  | Parsed f | ParseError f _ | ParseExit f _ | ParsePanic f _ => Some f
  | ParseOutOfFuel => None
  end.

(** Settles the first test of a goal. *)
Ltac decide_test :=
  let solve_test := solve [done | congruence | by intros [] | simpl; lia] in
  first [ rewrite bool_decide_true by solve_test
        | rewrite bool_decide_false by solve_test ].

Section flag_lemmas.
Implicit Types (f : FlagSet) (k v s : bytes) (fl : Flag) (e : flagError).
Implicit Types (kv : bytes * bytes) (kvs : list (bytes * bytes)).

Lemma splitValue_assign k v : validName k → splitValue (k ++ B "=" ++ v) = (k, v, true).
Proof.
  destruct k as [|c k]; [done|]. intros (_ & _ & Hk).
  change (B "=") with ["="%char]. cbn [splitValue app].
  rewrite Index_byte by done.
  replace (S (length k)) with (length k + 1) by lia.
  by rewrite take_app_length, drop_app_add.
Qed.

Lemma splitValue_plain k : "="%char ∉ tail k → splitValue k = (k, [], false).
Proof.
  destruct k as [|c k]; [done|]. intros Hk. cbn [splitValue].
  change (B "=") with ["="%char]. by rewrite Index_byte_None.
Qed.

(** The name that [splitValue] returns is a prefix of the text. *)
Lemma splitValue_length s : length (splitValue s).1.1 ≤ length s.
Proof.
  destruct s as [|c s]; [done|]. cbn [splitValue].
  destruct (Index s (B "=")); simpl; [rewrite length_take|]; lia.
Qed.


(** One step of [parseOne] on an argument that names a flag. *)
Lemma parseOne_flagArg f two k ov rest :
  validName k → args f = flagArg two k ov :: rest →
  parseOne f =
  match formal f !! k with
  | None =>
    if bool_decide (k = B "help") || bool_decide (k = B "h") then
      (usage (setArgs f rest), false, Some ErrHelp)
    else failf (setArgs f rest) (ErrNotDefined k)
  | Some fl =>
    match ov, rest with
    | Some v, _ => (setFlag (setArgs f rest) k fl v, true, None)
    | None, v :: rest' => (setFlag (setArgs f rest') k fl v, true, None)
    | None, [] => failf (setArgs f rest) (ErrNeedsArgument k)
    end
  end.
Proof.
  intros Hk Hargs.
  assert (splitValue (k ++ from_option (app (B "=")) [] ov) =
          (k, default [] ov, bool_decide (is_Some ov))) as Hsplit.
  { destruct ov as [v|]; [by apply splitValue_assign|]. rewrite app_nil_r.
    apply splitValue_plain. destruct k; [done|]. by destruct Hk as (_ & _ & ?). }
  destruct k as [|c k]; [done|]. destruct Hk as (Hm & He & Hk).
  unfold parseOne. rewrite Hargs. unfold flagArg.
  change (B "--") with ["-"%char; "-"%char]. change (B "-") with ["-"%char].
  replace (match ov with Some v => B "=" ++ v | None => [] end)
    with (from_option (app (B "=")) [] ov) by (by destruct ov).
  destruct two; cbn [app drop length head];
    repeat (decide_test; cbn [andb orb drop length head]);
    cbn [app] in Hsplit; rewrite Hsplit; cbn [formal setArgs args];
    by destruct (formal f !! (c :: k)), ov.
Qed.

(** One step on the argument [-k=v] for a defined flag [k]. *)
Lemma parseOne_assign f k v fl rest :
  validName k → formal f !! k = Some fl → args f = assignArg (k, v) :: rest →
  parseOne f = (setFlag (setArgs f rest) k fl v, true, None).
Proof.
  intros Hk Hfl Hargs.
  by rewrite (parseOne_flagArg f false k (Some v) rest), Hfl.
Qed.

Lemma failf_args f e : args (failf f e).1.1 = args f.
Proof. done. Qed.

(** A step that sees a flag consumes an argument and reports no error. *)
Lemma parseOne_seen f :
  (parseOne f).1.2 = true →
  length (args (parseOne f).1.1) < length (args f) ∧ (parseOne f).2 = None.
Proof.
  unfold parseOne, failf. repeat case_match; simplify_eq/=; try done; intros _; split; try done; try lia.
Qed.

Lemma setFlag_formal_dom f k fl v :
  is_Some (formal f !! k) → dom (formal (setFlag f k fl v)) = dom (formal f).
Proof.
  intros Hk. apply (elem_of_dom (D:=gset bytes)) in Hk.
  cbn. rewrite dom_insert_L. by apply subseteq_union_1_L, singleton_subseteq_l.
Qed.

(** Parsing defines no flag and removes none. *)
Lemma parseOne_formal_dom f : dom (formal (parseOne f).1.1) = dom (formal f).
Proof.
  unfold parseOne, failf.
  repeat case_match; simplify_eq; cbn [fst snd]; try done;
    by rewrite setFlag_formal_dom by eauto.
Qed.

Lemma Parse_loop_fuel_enough fuel f :
  length (args f) < fuel → Parse_loop fuel f ≠ ParseOutOfFuel.
Proof.
  revert f. induction fuel as [|fuel IH]; intros f Hf; [lia|]. cbn [Parse_loop].
  pose proof (parseOne_seen f) as Hseen.
  destruct (parseOne f) as [[f' [|]] e]; cbn [fst snd] in Hseen.
  - apply IH. destruct Hseen; [done|lia].
  - unfold handleError. by repeat case_match.
Qed.

(** C33: the fuel that [Parse] gives its loop, one step more than there
    are arguments, is enough: parsing always comes to an end. *)
Theorem Parse_terminates f arguments : Parse f arguments ≠ ParseOutOfFuel.
Proof. apply Parse_loop_fuel_enough. simpl. lia. Qed.

Lemma parseOne_errorHandling f : errorHandling (parseOne f).1.1 = errorHandling f.
Proof. unfold parseOne, failf. by repeat case_match. Qed.

(** What a step writes. *)
Lemma parseOne_output f :
  output (parseOne f).1.1 =
  output f ++ from_option errorEvents [] (parseOne f).2.
Proof.
  unfold parseOne, failf, usage.
  repeat case_match; simplify_eq; cbn; by rewrite <-?app_assoc, ?app_nil_r.
Qed.

(** A step that does not fail writes nothing. *)
Lemma parseOne_ok_output f :
  (parseOne f).2 = None → output (parseOne f).1.1 = output f.
Proof. intros He. by rewrite parseOne_output, He, app_nil_r. Qed.

Lemma errorEvents_last l e : last (l ++ errorEvents e) = Some UsageCalled.
Proof.
  rewrite last_app. by destruct e.
Qed.

Lemma exitCode_cases e : exitCode e = 0 ∨ exitCode e = 2.
Proof. unfold exitCode. case_bool_decide; auto. Qed.

Lemma Parse_loop_exit fuel f :
  errorHandling f = ExitOnError →
  match Parse_loop fuel f with
  | Parsed _ | ParseOutOfFuel => True
  | ParseExit f' code =>
    ∃ e, output f' = output f ++ errorEvents e ∧ code = exitCode e
  | _ => False
  end.
Proof.
  revert f. induction fuel as [|fuel IH]; intros f Hf; [done|]. cbn [Parse_loop].
  pose proof (parseOne_errorHandling f) as He.
  pose proof (parseOne_output f) as Hout.
  destruct (parseOne f) as [[f' [|]] [e|]] eqn:Hone; cbn [fst snd] in He, Hout.
  - pose proof (parseOne_seen f) as Hseen. rewrite Hone in Hseen.
    by destruct Hseen.
  - cbn in Hout. rewrite app_nil_r in Hout. rewrite <-Hout.
    apply IH. congruence.
  - unfold handleError. rewrite He, Hf.
    case_bool_decide as Hhelp; exists e; (split; [done|]);
      unfold exitCode; [by rewrite bool_decide_true|by rewrite bool_decide_false].
  - done.
Qed.

Lemma Parse_loop_Parsed_output fuel f f' :
  Parse_loop fuel f = Parsed f' → output f' = output f.
Proof.
  revert f. induction fuel as [|fuel IH]; intros f; [done|]. cbn [Parse_loop].
  pose proof (parseOne_ok_output f) as Hout. pose proof (parseOne_seen f) as Hseen.
  destruct (parseOne f) as [[f1 [|]] [e|]]; cbn [fst snd] in Hout, Hseen.
  - by destruct Hseen.
  - intros ->%IH. by apply Hout.
  - unfold handleError. by repeat case_match.
  - intros [= <-]. by apply Hout.
Qed.

(** With the error handling [ExitOnError], [Parse] either returns,
    having written nothing, or exits on an error [e] with the code of
    [e], having written what belongs to [e]. *)
Lemma Parse_ExitOnError f arguments :
  errorHandling f = ExitOnError →
  match Parse f arguments with
  | Parsed f' => output f' = output f
  | ParseExit f' code =>
    ∃ e, output f' = output f ++ errorEvents e ∧ code = exitCode e
  | _ => False
  end.
Proof.
  intros Hf. unfold Parse.
  pose proof (Parse_loop_fuel_enough (S (length arguments))
                (setArgs (setParsed f true) arguments)) as Hfuel.
  cbn [args setArgs] in Hfuel. specialize (Hfuel (Nat.lt_succ_diag_r _)).
  pose proof (Parse_loop_exit (S (length arguments))
                (setArgs (setParsed f true) arguments) Hf) as Hexit.
  destruct (Parse_loop _ _) eqn:Hloop; try done.
  by apply Parse_loop_Parsed_output in Hloop.
Qed.

Lemma assign_setArgs f kv a : assign (setArgs f a) kv = setArgs (assign f kv) a.
Proof. unfold assign. cbn [formal setArgs]. by destruct (formal f !! kv.1). Qed.

Lemma assign_formal_dom f kv : dom (formal (assign f kv)) = dom (formal f).
Proof.
  unfold assign. destruct (formal f !! kv.1) eqn:E; [|done].
  by rewrite setFlag_formal_dom by eauto.
Qed.

Lemma assign_output f kv : output (assign f kv) = output f.
Proof. unfold assign. by destruct (formal f !! kv.1). Qed.

Lemma Parse_loop_assignments fuel f kvs :
  Forall (λ kv, validName kv.1 ∧ kv.1 ∈ dom (formal f)) kvs →
  args f = assignArg <$> kvs → length kvs < fuel →
  Parse_loop fuel f = Parsed (foldl assign (setArgs f []) kvs).
Proof.
  revert f kvs. induction fuel as [|fuel IH]; intros f kvs Hkvs Hargs Hfuel; [lia|].
  cbn [Parse_loop]. destruct Hkvs as [|[k v] kvs [Hk Hdom] Hkvs]; cbn [fst] in *.
  - unfold parseOne. rewrite Hargs. destruct f; simpl in *; by subst.
  - apply elem_of_dom in Hdom as [fl Hfl].
    rewrite (parseOne_assign f k v fl (assignArg <$> kvs)) by done.
    rewrite (IH _ kvs); [| |done|simpl in *; lia].
    + cbn [foldl]. f_equal. f_equal. unfold assign. cbn [fst snd formal setArgs].
      by rewrite Hfl.
    + eapply Forall_impl; [done|]. intros kv [? ?]. split; [done|].
      by rewrite setFlag_formal_dom by eauto.
Qed.

(** On arguments [-k=v] for defined flags, [Parse] succeeds, consumes
    every argument and performs the assignments from left to right. *)
Lemma Parse_assignments f kvs :
  Forall (λ kv, validName kv.1 ∧ kv.1 ∈ dom (formal f)) kvs →
  Parse f (assignArg <$> kvs) = Parsed (foldl assign (setArgs (setParsed f true) []) kvs).
Proof.
  intros Hkvs. unfold Parse.
  rewrite (Parse_loop_assignments _ _ kvs); [done|done|done|].
  rewrite length_fmap. lia.
Qed.

Lemma deref_assign f kv k :
  kv.1 ∈ dom (formal f) →
  deref (assign f kv) k = if decide (kv.1 = k) then kv.2 else deref f k.
Proof.
  intros [fl Hfl]%elem_of_dom. unfold assign, deref. rewrite Hfl. simpl.
  rewrite lookup_insert. by case_decide.
Qed.

Lemma lastValue_snoc kvs kv k :
  lastValue (kvs ++ [kv]) k = if decide (kv.1 = k) then Some kv.2 else lastValue kvs k.
Proof.
  unfold lastValue. rewrite filter_app, filter_cons, filter_nil.
  case_decide; [by rewrite last_snoc|by rewrite app_nil_r].
Qed.

Lemma foldl_assign_formal_dom f kvs :
  dom (formal (foldl assign f kvs)) = dom (formal f).
Proof.
  revert f. induction kvs as [|kv kvs IH]; intros f; [done|].
  cbn [foldl]. by rewrite IH, assign_formal_dom.
Qed.

(** After a sequence of assignments a flag variable holds the value of
    the last assignment to it, and its old value if there is none. *)
Lemma deref_assignments f kvs k :
  Forall (λ kv, kv.1 ∈ dom (formal f)) kvs →
  deref (foldl assign f kvs) k = default (deref f k) (lastValue kvs k).
Proof.
  induction kvs as [|kv kvs IH] using rev_ind; intros Hkvs; [done|].
  apply Forall_app in Hkvs as [Hkvs Hkv%Forall_inv].
  rewrite foldl_snoc, lastValue_snoc, deref_assign.
  - case_decide; [done|by apply IH].
  - by rewrite foldl_assign_formal_dom.
Qed.
Lemma foldl_assign_args f kvs : args (foldl assign f kvs) = args f.
Proof.
  revert f. induction kvs as [|kv kvs IH]; intros f; [done|].
  cbn [foldl]. rewrite IH. unfold assign. by destruct (formal f !! kv.1).
Qed.

Lemma foldl_assign_output f kvs : output (foldl assign f kvs) = output f.
Proof.
  revert f. induction kvs as [|kv kvs IH]; intros f; [done|].
  cbn [foldl]. by rewrite IH, assign_output.
Qed.

(** C7: on a command line of assignments [-k=v] to defined flags, [Parse]
    returns without an error, leaves no argument and writes nothing, and
    every flag variable holds the value of the last assignment to it, or
    the value it had if there is none. *)
Theorem Parse_last_wins f kvs :
  Forall (λ kv, validName kv.1 ∧ kv.1 ∈ dom (formal f)) kvs →
  ∃ f', Parse f (assignArg <$> kvs) = Parsed f' ∧ args f' = [] ∧
        output f' = output f ∧
        ∀ k, deref f' k = default (deref f k) (lastValue kvs k).
Proof.
  intros Hkvs. eexists. split; [by apply Parse_assignments|].
  rewrite foldl_assign_args, foldl_assign_output. split_and!; [done..|].
  intros k. rewrite deref_assignments; [done|].
  eapply Forall_impl; [done|]. by intros kv [_ ?].
Qed.

(** C8: an argument [-k] or [-k=v] that names no defined flag, and is no
    request for help, makes [Parse] under [ExitOnError] write [flag
    provided but not defined: -k] and the usage message and exit with
    code 2; the arguments after it are not looked at. *)
Theorem Parse_undefined_flag f k v rest :
  errorHandling f = ExitOnError → validName k → formal f !! k = None →
  k ≠ B "help" → k ≠ B "h" →
  Parse f (assignArg (k, v) :: rest) =
  ParseExit (usage (write (setArgs (setParsed f true) rest)
                          (WriteLine (errorText (ErrNotDefined k))))) 2.
Proof.
  intros Hf Hk Hnone Hhelp Hh. unfold Parse. cbn [length Parse_loop].
  rewrite (parseOne_flagArg _ false k (Some v) rest) by done.
  cbn [formal setArgs setParsed]. rewrite Hnone, !bool_decide_false by done.
  cbn [orb failf]. unfold handleError. simpl. by rewrite Hf.
Qed.

(** Flag parsing stops before the first argument that is no flag: an
    argument that does not start with [-], or is [-] alone, is left in
    [args] with everything after it, and [Parse] returns. *)
Theorem Parse_stops_at_non_flag f s rest :
  head s ≠ Some "-"%char ∨ length s < 2 →
  Parse f (s :: rest) = Parsed (setArgs (setParsed f true) (s :: rest)).
Proof.
  intros Hs. unfold Parse. cbn [length Parse_loop]. unfold parseOne.
  cbn [args setArgs]. destruct s as [|c0 [|c1 s]]; [done..|].
  destruct Hs as [Hs|Hs]; [|simpl in Hs; lia].
  rewrite bool_decide_true; [done|]. intros ->. by apply Hs.
Qed.
(** The argument [--] ends the flags: it is consumed, everything
    after it stays in [args], and [Parse] returns. *)
Theorem Parse_terminator f rest :
  Parse f (B "--" :: rest) = Parsed (setArgs (setParsed f true) rest).
Proof. reflexivity. Qed.

(** [-h] or [-help], when no flag of that name is defined, makes
    [Parse] under [ExitOnError] write the usage message and exit with
    code 0. *)
Theorem Parse_help f s rest :
  errorHandling f = ExitOnError → s ∈ [B "h"; B "help"] →
  formal f !! s = None →
  Parse f ((B "-" ++ s) :: rest) =
  ParseExit (usage (setArgs (setParsed f true) rest)) 0.
Proof.
  intros Hf Hs Hnone. unfold Parse. cbn [length Parse_loop].
  rewrite !elem_of_cons, elem_of_nil in Hs.
  destruct Hs as [->|[->|[]]];
    unfold parseOne; simpl in *; rewrite Hnone; simpl;
    unfold handleError; simpl; by rewrite Hf.
Qed.

(** A defined flag [-k] that is the last argument and carries no
    value makes [Parse] under [ExitOnError] write [flag needs an
    argument: -k] and the usage message and exit with code 2. *)
Theorem Parse_needs_argument f k fl :
  errorHandling f = ExitOnError → validName k → formal f !! k = Some fl →
  Parse f [B "-" ++ k] =
  ParseExit (usage (write (setArgs (setParsed f true) [])
                          (WriteLine (errorText (ErrNeedsArgument k))))) 2.
Proof.
  intros Hf Hk Hfl. unfold Parse. cbn [length Parse_loop].
  rewrite (parseOne_flagArg _ false k None []);
    [|done|by unfold flagArg; rewrite app_nil_r].
  cbn [formal setArgs setParsed]. rewrite Hfl.
  cbn [failf]. unfold handleError. simpl. by rewrite Hf.
Qed.

(** A defined flag [-k] followed by another argument takes that
    argument as its value, whatever it looks like. *)
Theorem Parse_value_next f k v fl :
  validName k → formal f !! k = Some fl →
  Parse f [B "-" ++ k; v] =
  Parsed (setFlag (setArgs (setParsed f true) []) k fl v).
Proof.
  intros Hk Hfl. unfold Parse. cbn [length Parse_loop].
  rewrite (parseOne_flagArg _ false k None [v]);
    [|done|by unfold flagArg; rewrite app_nil_r].
  cbn [formal setArgs setParsed]. by rewrite Hfl.
Qed.
End flag_lemmas.

(** ** Well-formedness is an invariant *)

Section flag_wf.
Implicit Types (f : FlagSet) (k v s : bytes) (fl : Flag) (e : flagError).

(** [sameDecls] is an equivalence; what depends on the declarations
    only is rewritten along it. *)
#[export] Instance sameDecls_equiv : Equivalence sameDecls.
Proof.
  split.
  - by intros f.
  - by intros f1 f2 (? & ? & ? & ?).
  - intros f1 f2 f3 (? & ? & ? & ?) (? & ? & ? & ?). split_and!; congruence.
Qed.

#[export] Instance name_proper : Proper (sameDecls ==> (=)) name.
Proof. by intros f f' (_ & _ & ? & _). Qed.

#[export] Instance usageFn_proper : Proper (sameDecls ==> (=)) usageFn.
Proof. by intros f f' (_ & ? & _ & _). Qed.

#[export] Instance errorHandling_proper :
  Proper (sameDecls ==> (=)) errorHandling.
Proof. by intros f f' (_ & _ & _ & ?). Qed.

Lemma NewFlagSet_wf s eh : wfFlagSet (NewFlagSet s eh).
Proof.
  split; simpl; [intros k fl|intros k|].
  - by rewrite lookup_empty.
  - by rewrite dom_empty_L, elem_of_empty.
  - done.
Qed.

Lemma setUsage_wf f u : wfFlagSet f → wfFlagSet (setUsage f u).
Proof. by intros []. Qed.

(** A successful [Var] keeps the invariant. *)
Lemma Var_wf f v k u f' :
  wfFlagSet f → Var f v k u = Ok f' → wfFlagSet f'.
Proof.
  intros [Hn Hc Ha]. unfold Var.
  destruct (HasPrefix k (B "-")) eqn:Hp; [done|].
  case_bool_decide as He; [done|].
  destruct (formal f !! k) eqn:Hk; [done|]. intros [= <-].
  split; cbn [formal actual setFormal].
  - intros k' fl. rewrite lookup_insert. case_decide; [|apply Hn].
    by intros [= <-].
  - intros k'. rewrite dom_insert_L, elem_of_union, elem_of_singleton.
    intros [->|?]; [done|by apply Hc].
  - rewrite dom_insert_L. by apply union_subseteq_r'.
Qed.

(** Setting the value of a defined flag. *)
Lemma setFlag_wf f k fl v :
  wfFlagSet f → formal f !! k = Some fl → wfFlagSet (setFlag f k fl v).
Proof.
  intros [Hn Hc Ha] Hk.
  assert (dom (formal (setFlag f k fl v)) = dom (formal f)) as Hdom
    by (apply setFlag_formal_dom; eauto).
  split; [|by rewrite Hdom|rewrite Hdom].
  - cbn [formal setFlag setActual setFormal]. intros k' fl'.
    rewrite lookup_insert. case_decide; [|apply Hn].
    intros [= <-]. subst k'. simpl. by apply Hn.
  - cbn [actual setFlag setActual]. apply union_least; [|done].
    apply singleton_subseteq_l, elem_of_dom. eauto.
Qed.

Lemma setFlag_sameDecls f k fl v :
  formal f !! k = Some fl → sameDecls f (setFlag f k fl v).
Proof.
  intros Hk. split_and!; try done. cbn [formal setFlag setActual setFormal].
  rewrite fmap_insert. apply insert_id. by rewrite lookup_fmap, Hk.
Qed.

Lemma setArgs_wf f a : wfFlagSet f → wfFlagSet (setArgs f a).
Proof. by intros []. Qed.

Lemma write_wf f ev : wfFlagSet f → wfFlagSet (write f ev).
Proof. by intros []. Qed.

(** One step of parsing keeps the invariant and the declarations. *)
Lemma parseOne_wfFlagSet f : wfFlagSet f → wfFlagSet (parseOne f).1.1.
Proof.
  intros Hwf. unfold parseOne, failf, usage.
  repeat case_match; simplify_eq; cbn [fst snd];
    repeat first [apply setFlag_wf|apply setArgs_wf|apply write_wf]; done.
Qed.

Lemma parseOne_sameDecls f : sameDecls f (parseOne f).1.1.
Proof.
  unfold parseOne, failf, usage.
  repeat case_match; simplify_eq; cbn [fst snd]; try done;
    (etrans; [|by apply setFlag_sameDecls]); done.
Qed.

Lemma parseOne_wf f :
  wfFlagSet f → wfFlagSet (parseOne f).1.1 ∧ sameDecls f (parseOne f).1.1.
Proof. split; [by apply parseOne_wfFlagSet|apply parseOne_sameDecls]. Qed.

Lemma Parse_loop_sameDecls fuel f f' :
  finalFlagSet (Parse_loop fuel f) = Some f' → sameDecls f f'.
Proof.
  revert f. induction fuel as [|fuel IH]; intros f; [done|].
  cbn [Parse_loop]. pose proof (parseOne_sameDecls f) as Hsame.
  destruct (parseOne f) as [[f1 [|]] [e|]]; cbn [fst snd] in *.
  1,2: intros ?%IH; by etrans.
  - unfold handleError. repeat case_match; by intros [= <-].
  - by intros [= <-].
Qed.

Lemma Parse_loop_wf fuel f f' :
  wfFlagSet f → finalFlagSet (Parse_loop fuel f) = Some f' →
  wfFlagSet f' ∧ sameDecls f f'.
Proof.
  revert f. induction fuel as [|fuel IH]; intros f Hwf; [done|].
  cbn [Parse_loop]. destruct (parseOne_wf f Hwf) as [Hwf1 Hsame].
  destruct (parseOne f) as [[f1 [|]] [e|]]; cbn [fst snd] in *.
  1,2: intros [? ?]%IH; [|done]; split; [done|by etrans].
  - unfold handleError. repeat case_match; by intros [= <-].
  - by intros [= <-].
Qed.

Lemma Parse_sameDecls f arguments f' :
  finalFlagSet (Parse f arguments) = Some f' → sameDecls f f'.
Proof.
  intros Hfinal. trans (setArgs (setParsed f true) arguments); [done|].
  by apply (Parse_loop_sameDecls (S (length arguments))).
Qed.

(** C25: well-formedness is an invariant of the flag set: [NewFlagSet]
    establishes it, and whichever way [Parse] ends, the flag set it
    leaves is well formed and declares the same flags, with the same
    usage texts and defaults, as the one it started from. *)
Theorem Parse_wf f arguments f' :
  wfFlagSet f → finalFlagSet (Parse f arguments) = Some f' →
  wfFlagSet f' ∧ sameDecls f f'.
Proof.
  intros Hwf Hfinal. unfold Parse in Hfinal.
  apply Parse_loop_wf in Hfinal as [? (? & ? & ? & ?)]; [|by destruct Hwf].
  by split.
Qed.
End flag_wf.

(** ** The theorems at concrete flag sets *)

(** A flag set with the one flag [name]. *)
Definition oneFlag : FlagSet :=
  setFormal (NewFlagSet (B "prog") ExitOnError)
            (<[B "name" := mkFlag (B "name") (B "a name") [] []]> ∅).

Lemma oneFlag_wf : wfFlagSet oneFlag.
Proof.
  apply (Var_wf (NewFlagSet (B "prog") ExitOnError) [] (B "name") (B "a name"));
    [apply NewFlagSet_wf|reflexivity].
Qed.

Lemma Parse_wf_witness :
  ∃ f', finalFlagSet (Parse oneFlag [B "-name=x"; B "-colour"]) = Some f' ∧
        wfFlagSet f' ∧ sameDecls oneFlag f'.
Proof.
  eexists. split; [by vm_compute|].
  apply (Parse_wf oneFlag [B "-name=x"; B "-colour"]);
    [apply oneFlag_wf|by vm_compute].
Defined.

Lemma Parse_last_wins_witness :
  ∃ f', Parse oneFlag (assignArg <$> [(B "name", B "a"); (B "name", B "b")]) =
        Parsed f' ∧ args f' = [] ∧ output f' = output oneFlag ∧
        ∀ k, deref f' k =
             default (deref oneFlag k)
                     (lastValue [(B "name", B "a"); (B "name", B "b")] k).
Proof.
  apply (Parse_last_wins oneFlag [(B "name", B "a"); (B "name", B "b")]).
  apply (bool_decide_unpack _). by vm_compute.
Defined.

Lemma Parse_undefined_flag_witness :
  Parse oneFlag [assignArg (B "colour", B "red"); B "-name=x"] =
  ParseExit (usage (write (setArgs (setParsed oneFlag true) [B "-name=x"])
       (WriteLine (errorText (ErrNotDefined (B "colour")))))) 2.
Proof.
  apply (Parse_undefined_flag oneFlag (B "colour") (B "red") [B "-name=x"]);
    [reflexivity|apply (bool_decide_unpack _); by vm_compute|by vm_compute|
     discriminate|discriminate].
Defined.

Lemma Parse_help_witness :
  Parse oneFlag [B "-" ++ B "help"; B "-name=x"] =
  ParseExit (usage (setArgs (setParsed oneFlag true) [B "-name=x"])) 0.
Proof.
  apply (Parse_help oneFlag (B "help") [B "-name=x"]);
    [reflexivity|apply (bool_decide_unpack _); by vm_compute|by vm_compute].
Defined.

Lemma Parse_needs_argument_witness :
  Parse oneFlag [B "-" ++ B "name"] =
  ParseExit (usage (write (setArgs (setParsed oneFlag true) [])
       (WriteLine (errorText (ErrNeedsArgument (B "name")))))) 2.
Proof.
  apply (Parse_needs_argument oneFlag (B "name")
           (mkFlag (B "name") (B "a name") [] []));
    [reflexivity|apply (bool_decide_unpack _); by vm_compute|by vm_compute].
Defined.

Lemma Parse_value_next_witness :
  Parse oneFlag [B "-" ++ B "name"; B "-doc=x"] =
  Parsed (setFlag (setArgs (setParsed oneFlag true) []) (B "name")
            (mkFlag (B "name") (B "a name") [] []) (B "-doc=x")).
Proof.
  apply (Parse_value_next oneFlag (B "name") (B "-doc=x")
           (mkFlag (B "name") (B "a name") [] []));
    [apply (bool_decide_unpack _); by vm_compute|by vm_compute].
Defined.

Lemma Parse_stops_at_non_flag_witness :
  Parse oneFlag [B "crawl"; B "-name=x"] =
  Parsed (setArgs (setParsed oneFlag true) [B "crawl"; B "-name=x"]).
Proof. apply Parse_stops_at_non_flag. left. discriminate. Defined.

End flag.
