(* ===== verification/Usage.v ===== *)
(** * The usage message of package [flag]

    On an error, and on [-h], [flag.Parse] writes the usage message to
    standard error: a header with the program name and one entry for
    each defined flag, in the order of the names ([PrintDefaults] on
    [sortFlags]).  This file models that text, so that the events that
    the flag set records become the bytes on standard error
    ([outputText]).  The order of the names is Go's [<] on strings
    ([stringLess]); [sortFlags_spec] shows that [sortFlags] returns the
    one arrangement of the flags that is strictly increasing under it.

    [strconv.Quote], which prints the default of a string flag, is
    modelled for ASCII; a default with a byte above 127 is outside the
    model and makes the functions answer [None]. *)

From Stdlib Require Import Ascii NArith.
From stdpp Require Import base tactics option list strings gmap sorting lexico.
From S2P Require Import Prelude GoStrings Flags.
Import flag.

(** ** The order of strings *)

(** Go compares strings byte by byte. *)
#[export] Instance ascii_lexico : Lexico ascii :=
  λ a b, lexico (N_of_ascii a) (N_of_ascii b).

#[export] Instance ascii_lexico_po : StrictOrder (@lexico ascii _).
Proof.
  unfold lexico, ascii_lexico. split.
  - intros a Ha. by apply (irreflexivity (@lexico N _) (N_of_ascii a)).
  - intros a b c. apply (transitivity (R:=@lexico N _)).
Qed.

#[export] Instance ascii_lexico_trichotomy : TrichotomyT (@lexico ascii _).
Proof.
  intros a b. unfold lexico, ascii_lexico.
  destruct (trichotomyT lexico (N_of_ascii a) (N_of_ascii b)) as [[?|Heq]|?];
    [by left; left| |by right].
  left; right. by rewrite <-(ascii_N_embedding a), Heq, ascii_N_embedding.
Defined.

(** [s <= t] on strings. *)
Definition stringLe (s t : bytes) : Prop := s = t ∨ lexico s t.

#[export] Instance stringLe_dec : RelDecision stringLe.
Proof. intros s t. unfold stringLe. apply _. Defined.

#[export] Instance stringLe_refl : Reflexive stringLe.
Proof. intros s. by left. Qed.

#[export] Instance stringLe_trans : Transitive stringLe.
Proof.
  intros s t u [->|Hst] [->|Htu]; [by left|by right..|].
  right. by trans t.
Qed.

#[export] Instance stringLe_total : Total stringLe.
Proof.
  intros s t. destruct (trichotomy (@lexico bytes _) s t) as [?|[->|?]];
    [left; by right|left; by left|right; by right].
Qed.

#[export] Instance stringLe_antisymm : AntiSymm (=) stringLe.
Proof.
  intros s t [->|Hst] [Heq|Hts]; try done.
  destruct (irreflexivity (@lexico bytes _) s). by trans t.
Qed.

(** Go's [s < t] on strings, as the run time compares them: the first
    byte that differs decides, by its value as an unsigned number, and
    a string comes before the strings that it is a proper prefix of.
    This is the [less] that [sortFlags] hands to [sort.Slice]. *)
Fixpoint stringLess (s t : bytes) : bool :=
  match s, t with
  | _, [] => false
  | [], _ :: _ => true
  | c :: s', d :: t' =>
    if decide (c = d) then stringLess s' t'
    else bool_decide (nat_of_ascii c < nat_of_ascii d)
  end.

(** ** The text of the usage message *)

(** The order [sortFlags] sorts by. *)
Definition flagLe (a b : Flag) : Prop := stringLe (Name a) (Name b).

#[export] Instance flagLe_dec : RelDecision flagLe.
Proof. intros a b. unfold flagLe. apply _. Defined.

(** [sortFlags(flags)]: the flags of the map, ordered by name.  Go
    copies the values of the map into a slice, in the iteration order of
    the map, and sorts the slice with [sort.Slice] under [stringLess] on
    the names; the model takes the values in the order of [map_to_list]
    and sorts them with a merge sort under [flagLe].  The two agree on
    every map that [Var] builds, since there is one sorted arrangement
    only ([sortFlags_spec]). *)
Definition sortFlags (flags : gmap bytes Flag) : list Flag :=
  merge_sort flagLe (snd <$> map_to_list flags).

(** A map that holds every flag under its name, as [Var] fills it. *)
Definition namedFlags (m : gmap bytes Flag) : Prop :=
  ∀ k fl, m !! k = Some fl → Name fl = k.

(** [lowerhex[n]]. *)
Definition lowerhex (n : N) : ascii :=
  ascii_of_N (if (n <? 10)%N then 48 + n else 87 + n).

(** [appendEscapedRune] of [strconv] for a byte below 128, within double
    quotes. *)
Definition quoteByte (c : ascii) : option bytes :=
  let n := N_of_ascii c in
  if bool_decide (c = DQUOTE) || bool_decide (c = "\"%char) then Some ["\"%char; c]
  else if bool_decide (32 ≤ n < 127)%N then Some [c]
  else if bool_decide (128 ≤ n)%N then None
  else if bool_decide (n = 7)%N then Some (B "\a")
  else if bool_decide (n = 8)%N then Some (B "\b")
  else if bool_decide (n = 12)%N then Some (B "\f")
  else if bool_decide (n = 10)%N then Some (B "\n")
  else if bool_decide (n = 13)%N then Some (B "\r")
  else if bool_decide (n = 9)%N then Some (B "\t")
  else if bool_decide (n = 11)%N then Some (B "\v")
  else Some (B "\x" ++ [lowerhex (N.shiftr n 4); lowerhex (N.land n 15)]).

(** [strconv.Quote(s)], what the verb [%q] prints for a string. *)
Definition Quote (s : bytes) : option bytes :=
  body ← mapM quoteByte s; Some (DQUOTE :: concat body ++ [DQUOTE]).

(** [UnquoteUsage(flag)] for a string flag: a name in back quotes inside
    the usage text, without its quotes, or the type name. *)
Definition UnquoteUsage (fl : Flag) : bytes * bytes :=
  let usage := Usage fl in
  match Index usage (B "`") with
  | Some i =>
    let after := drop (S i) usage in
    match Index after (B "`") with
    | Some j =>
      let name := take j after in
      (name, take i usage ++ name ++ drop (S j) after)
    | None => (B "string", usage)
    end
  | None => (B "string", usage)
  end.

(** [isZeroValue(flag, value)] for a string flag. *)
Definition isZeroValue (fl : Flag) (value : bytes) : bool :=
  bool_decide (value = []).

(** The body of the loop of [PrintDefaults]: the entry of one flag. *)
Definition printFlag (fl : Flag) : option bytes :=
  let b := B "  -" ++ Name fl in
  let '(name, usage) := UnquoteUsage fl in
  let b := if decide (0 < length name) then b ++ B " " ++ name else b in
  let b := if decide (length b ≤ 4) then b ++ [TAB]
           else b ++ [LF] ++ B "    " ++ [TAB] in
  let b := b ++ ReplaceAll usage LF ([LF] ++ B "    " ++ [TAB]) in
  dflt ← (if isZeroValue fl (DefValue fl) then Some []
          else q ← Quote (DefValue fl); Some (B " (default " ++ q ++ B ")"));
  Some (b ++ dflt ++ [LF]).

(** [f.PrintDefaults()]. *)
Definition PrintDefaults (f : FlagSet) : option bytes :=
  entries ← mapM printFlag (sortFlags (formal f)); Some (concat entries).

(** [f.defaultUsage()]. *)
Definition defaultUsage (f : FlagSet) : option bytes :=
  defaults ← PrintDefaults f;
  Some ((if bool_decide (name f = []) then B "Usage:" ++ [LF]
         else B "Usage of " ++ name f ++ B ":" ++ [LF]) ++ defaults).

(** [commandLineUsage()], that is the package's [Usage]: the header
    names [os.Args[0]], which [CommandLine] was created with. *)
Definition commandLineUsage (f : FlagSet) : option bytes :=
  defaults ← PrintDefaults f;
  Some (B "Usage of " ++ name f ++ B ":" ++ [LF] ++ defaults).

(** What [f.usage()] writes. *)
Definition usageText (f : FlagSet) : option bytes :=
  match usageFn f with
  | UsageNil => defaultUsage f
  | UsageCommandLine => commandLineUsage f
  end.

(** The bytes of an event: [f.sprintf] writes its message with
    [fmt.Fprintln]. *)
Definition eventText (f : FlagSet) (ev : outEvent) : option bytes :=
  match ev with
  | WriteLine msg => Some (msg ++ [LF])
  | UsageCalled => usageText f
  end.

(** The bytes of a sequence of events, one after the other. *)
Definition eventsText (f : FlagSet) (evs : list outEvent) : option bytes :=
  texts ← mapM (eventText f) evs; Some (concat texts).

(** The bytes that the flag set has written to its output. *)
Definition outputText (f : FlagSet) : option bytes := eventsText f (output f).

(** ** The writes *)

(** The header of the usage message. *)
Definition usageHeader (f : FlagSet) : bytes :=
  match usageFn f with
  | UsageNil =>
    if bool_decide (name f = []) then B "Usage:" ++ [LF]
    else B "Usage of " ++ name f ++ B ":" ++ [LF]
  | UsageCommandLine => B "Usage of " ++ name f ++ B ":" ++ [LF]
  end.

(** The writes of [f.usage()]: one [Fprintf] for the header, then one
    [Fprint] for each flag. *)
Definition usageChunks (f : FlagSet) : option (list bytes) :=
  entries ← mapM printFlag (sortFlags (formal f)); Some (usageHeader f :: entries).

(** The writes of an event: [Fprintln] writes a message and its line
    break at once. *)
Definition eventChunks (f : FlagSet) (ev : outEvent) : option (list bytes) :=
  match ev with
  | WriteLine msg => Some [msg ++ [LF]]
  | UsageCalled => usageChunks f
  end.

(** The writes of a sequence of events. *)
Definition eventsChunks (f : FlagSet) (evs : list outEvent) : option (list bytes) :=
  chunks ← mapM (eventChunks f) evs; Some (concat chunks).

(** ** Sorting and mapping *)

(** A sort commutes with a function that respects the order. *)
Section sort_fmap.
Context {A B : Type} (R : relation A) (R' : relation B) (f : A → B).
Context `{!RelDecision R, !RelDecision R'}.
Context (Hf : ∀ x y, R x y ↔ R' (f x) (f y)).

Lemma list_merge_fmap l1 l2 :
  f <$> list_merge R l1 l2 = list_merge R' (f <$> l1) (f <$> l2).
Proof.
  revert l2. induction l1 as [|x1 l1 IH1]; intros l2.
  { by rewrite fmap_nil, !list_merge_nil_l. }
  induction l2 as [|x2 l2 IH2]; [by rewrite fmap_nil, !list_merge_nil_r|].
  rewrite !fmap_cons, !list_merge_cons.
  rewrite (decide_ext _ _ _ _ (Hf x1 x2)).
  case_decide; rewrite fmap_cons; f_equal; [apply IH1|apply IH2].
Qed.

Local Abbreviation stack_fmap :=
  (fmap (M:=list) (fmap (M:=option) (fmap (M:=list) f))).

Lemma merge_list_to_stack_fmap st l :
  stack_fmap (merge_list_to_stack R st l) =
  merge_list_to_stack R' (stack_fmap st) (f <$> l).
Proof.
  revert l. induction st as [|[l'|] st IH]; intros l; simpl; [done| |done].
  by rewrite IH, list_merge_fmap.
Qed.

Lemma merge_stack_fmap st :
  f <$> merge_stack R st = merge_stack R' (stack_fmap st).
Proof.
  induction st as [|[l|] st IH]; simpl; [done| |done].
  by rewrite list_merge_fmap, IH.
Qed.

Lemma merge_sort_aux_fmap st l :
  f <$> merge_sort_aux R st l =
  merge_sort_aux R' (stack_fmap st) (f <$> l).
Proof.
  revert st. induction l as [|x l IH]; intros st; simpl.
  - apply merge_stack_fmap.
  - by rewrite IH, merge_list_to_stack_fmap.
Qed.

Lemma merge_sort_fmap l : f <$> merge_sort R l = merge_sort R' (f <$> l).
Proof. apply merge_sort_aux_fmap. Qed.
End sort_fmap.

(** ** [sortFlags] *)

Section sortFlags_lemmas.
Implicit Types (m : gmap bytes Flag) (fl : Flag) (f : FlagSet).

#[export] Instance flagLe_trans : Transitive flagLe.
Proof. intros a b c. unfold flagLe. apply transitivity. Qed.

#[export] Instance flagLe_total : Total flagLe.
Proof. intros a b. unfold flagLe. apply total, _. Qed.

Lemma sortFlags_Permutation m : sortFlags m ≡ₚ (map_to_list m).*2.
Proof. apply merge_sort_Permutation. Qed.

Lemma sortFlags_StronglySorted m : StronglySorted flagLe (sortFlags m).
Proof. apply StronglySorted_merge_sort; apply _. Qed.

Lemma elem_of_sortFlags m fl :
  fl ∈ sortFlags m ↔ ∃ k, m !! k = Some fl.
Proof.
  rewrite sortFlags_Permutation, list_elem_of_fmap. split.
  - intros ([k fl'] & -> & ?%elem_of_map_to_list). by exists k.
  - intros [k Hk]. exists (k, fl). by rewrite elem_of_map_to_list.
Qed.

Lemma length_sortFlags m : length (sortFlags m) = size m.
Proof.
  rewrite (Permutation_length (sortFlags_Permutation m)), length_fmap.
  apply length_map_to_list.
Qed.

(** The order of [lexico] on strings is Go's [<]. *)
Lemma stringLess_lexico s t : stringLess s t ↔ lexico s t.
Proof.
  revert t. induction s as [|c s IH]; intros [|d t]; cbn [stringLess]; try done.
  change (lexico (c :: s) (d :: t)) with (lexico c d ∨ c = d ∧ lexico s t).
  case_decide as Hcd.
  - subst d. rewrite IH. split; [by right|]. intros [Hlt|[_ ?]]; [|done].
    by destruct (irreflexivity (@lexico ascii _) c).
  - rewrite bool_decide_spec. unfold lexico at 1, ascii_lexico, lexico, N_lexico.
    unfold nat_of_ascii. split.
    + intros Hlt. left. lia.
    + intros [Hlt|[? _]]; [lia|done].
Qed.

(** Two flags stored under their names in a map are told apart by
    their names. *)
Lemma wf_namedFlags f : wfFlagSet f → namedFlags (formal f).
Proof. intros [Hnames _ _]. exact Hnames. Qed.

Lemma namedFlags_inj m fl fl' :
  namedFlags m → fl ∈ sortFlags m → fl' ∈ sortFlags m → Name fl = Name fl' → fl = fl'.
Proof.
  intros Hm [k Hk]%elem_of_sortFlags [k' Hk']%elem_of_sortFlags.
  rewrite (Hm _ _ Hk), (Hm _ _ Hk'). intros ->. congruence.
Qed.

Lemma namedFlags_NoDup m : namedFlags m → NoDup (Name <$> sortFlags m).
Proof.
  intros Hm. rewrite sortFlags_Permutation.
  assert (Name <$> (map_to_list m).*2 = (map_to_list m).*1) as ->.
  { rewrite <-list_fmap_compose. apply list_fmap_ext.
    intros i [k fl] Hi%list_elem_of_lookup_2%elem_of_map_to_list. by apply Hm. }
  apply NoDup_fst_map_to_list.
Qed.

Lemma StronglySorted_weaken {A} (R R' : relation A) (l : list A) :
  StronglySorted R l → (∀ a b, R a b → R' a b) → StronglySorted R' l.
Proof.
  intros Hl HR. induction Hl as [|a l _ IH Ha]; constructor; [done|].
  eapply Forall_impl; [done|]. by intros b; apply HR.
Qed.

(** A list without two equal names that is sorted by [<=] is sorted by
    [<]. *)
Lemma StronglySorted_stringLess (l : list Flag) :
  NoDup (Name <$> l) → StronglySorted flagLe l →
  StronglySorted (λ a b, stringLess (Name a) (Name b)) l.
Proof.
  intros Hnodup Hsorted. induction Hsorted as [|fl l Hl IH Hfl]; [constructor|].
  rewrite fmap_cons, NoDup_cons in Hnodup. destruct Hnodup as [Hfresh Hnodup].
  constructor; [by apply IH|]. rewrite Forall_forall in Hfl |- *.
  intros fl' Hin. apply stringLess_lexico.
  destruct (Hfl fl' Hin) as [Heq|?]; [|done].
  destruct Hfresh. rewrite Heq. by apply list_elem_of_fmap_2.
Qed.

(** C32: [sortFlags] is the one sorted order of the flags.  Go copies
    the flags out of a map, in an order that changes from run to run,
    and sorts them with [sort.Slice] by [Name] under [<] on strings.
    When the flags are stored under their names, as [Var] stores them:
    of all the orders [l] of the flags of the map, the list that
    [sortFlags] returns is the one and only in which every name is
    smaller, byte by byte, than the names after it.  So the usage
    message does not depend on the order of the map nor on the sorting
    algorithm. *)
Theorem sortFlags_spec m l :
  namedFlags m → l ≡ₚ (map_to_list m).*2 →
  l = sortFlags m ↔ StronglySorted (λ a b, stringLess (Name a) (Name b)) l.
Proof.
  intros Hm Hl. split.
  - intros ->. apply StronglySorted_stringLess;
      [by apply namedFlags_NoDup|apply sortFlags_StronglySorted].
  - intros Hsorted. apply (StronglySorted_unique_strong flagLe).
    + intros fl fl' Hfl Hfl' Hle Hle'. rewrite Hl, <-sortFlags_Permutation in Hfl.
      apply (namedFlags_inj m); [done..|]. by apply (anti_symm stringLe).
    + eapply StronglySorted_weaken; [done|]. intros fl fl'. cbn beta.
      rewrite stringLess_lexico. by right.
    + apply sortFlags_StronglySorted.
    + by rewrite sortFlags_Permutation.
Qed.

(** The order of declarations. *)
Definition declLe (d d' : bytes * bytes * bytes) : Prop :=
  stringLe d.1.1 d'.1.1.

#[export] Instance declLe_dec : RelDecision declLe.
Proof. intros d d'. unfold declLe. apply _. Defined.

(** The declarations in sorted order depend on the declarations only. *)
Lemma sortFlags_decl m :
  decl <$> sortFlags m = merge_sort declLe (map_to_list (decl <$> m)).*2.
Proof.
  unfold sortFlags. rewrite (merge_sort_fmap flagLe declLe decl) by done.
  f_equal. rewrite map_to_list_fmap, <-!list_fmap_compose.
  by apply list_fmap_ext; intros ? [??].
Qed.

Lemma printFlag_decl fl fl' : decl fl = decl fl' → printFlag fl = printFlag fl'.
Proof. destruct fl, fl'. by intros [= -> -> ->]. Qed.

Lemma mapM_printFlag_decl (l l' : list Flag) :
  decl <$> l = decl <$> l' → mapM printFlag l = mapM printFlag l'.
Proof.
  revert l'. induction l as [|fl l IH]; intros [|fl' l']; try done.
  intros [= Hn Hu Hd Hl]. cbn [mapM].
  rewrite (printFlag_decl fl fl') by (unfold decl; congruence).
  by rewrite (IH l').
Qed.

#[export] Instance PrintDefaults_proper :
  Proper (sameDecls ==> (=)) PrintDefaults.
Proof.
  intros f' f [Hd _]. unfold PrintDefaults.
  rewrite (mapM_printFlag_decl _ (sortFlags (formal f))); [done|].
  by rewrite !sortFlags_decl, Hd.
Qed.

(** Flag sets that declare the same flags print the same usage. *)
#[export] Instance usageText_proper : Proper (sameDecls ==> (=)) usageText.
Proof.
  intros f f' Hsame. unfold usageText, defaultUsage, commandLineUsage.
  by rewrite (usageFn_proper _ _ Hsame), (PrintDefaults_proper _ _ Hsame),
    (name_proper _ _ Hsame).
Qed.

#[export] Instance eventText_proper :
  Proper (sameDecls ==> (=) ==> (=)) eventText.
Proof. intros f f' Hsame ev ? <-. destruct ev; [done|]. cbn. by rewrite Hsame. Qed.

#[export] Instance eventsText_proper :
  Proper (sameDecls ==> (=) ==> (=)) eventsText.
Proof.
  intros f f' Hsame evs ? <-. unfold eventsText. f_equal.
  apply mapM_ext. intros ev. by rewrite Hsame.
Qed.

(** Parsing does not change the usage message: whichever way
    [Parse] ends, the flag set it leaves prints the usage text of the
    flag set it started from. *)
Theorem usageText_Parse f arguments f' :
  finalFlagSet (Parse f arguments) = Some f' → usageText f' = usageText f.
Proof. intros Hfinal. by rewrite (Parse_sameDecls f arguments f' Hfinal). Qed.

(** The bytes on the output of [f'] are those of its events as a flag
    set with the same declarations prints them. *)
Lemma outputText_sameDecls f f' :
  sameDecls f f' → outputText f' = eventsText f (output f').
Proof. intros Hsame. unfold outputText. by rewrite Hsame. Qed.

(** The writes of the usage message, of an event and of a sequence of
    events put together are their texts. *)
Lemma usageChunks_concat f : (concat (A:=ascii)) <$> usageChunks f = usageText f.
Proof.
  unfold usageChunks, usageText, usageHeader, defaultUsage, commandLineUsage,
    PrintDefaults.
  destruct (mapM printFlag _) as [entries|]; [|by destruct (usageFn f)].
  destruct (usageFn f); cbn; [by case_bool_decide; rewrite <-?(assoc_L (++))|].
  by rewrite <-!(assoc_L (++)).
Qed.

Lemma eventChunks_concat f ev : (concat (A:=ascii)) <$> eventChunks f ev = eventText f ev.
Proof.
  destruct ev as [msg|]; [|apply usageChunks_concat]. cbn. by rewrite app_nil_r.
Qed.

Lemma eventsChunks_concat f evs : (concat (A:=ascii)) <$> eventsChunks f evs = eventsText f evs.
Proof.
  unfold eventsChunks, eventsText.
  induction evs as [|ev evs IH]; [done|]. cbn [mapM].
  rewrite <-(eventChunks_concat f ev).
  destruct (eventChunks f ev) as [cs|]; [|done]. cbn.
  destruct (mapM (eventChunks f) evs) as [css|], (mapM (eventText f) evs) as [ts|];
    cbn in *; simplify_eq; [|done..].
  by rewrite concat_app, IH.
Qed.

(** What the report of an error prints: the line of the error, unless
    help was asked for, and the usage message. *)
Lemma eventsText_errorEvents f e u :
  usageText f = Some u →
  eventsText f (errorEvents e) =
  Some (match e with ErrHelp => [] | _ => errorText e ++ [LF] end ++ u).
Proof.
  intros Hu. unfold eventsText.
  destruct e; cbn [errorEvents mapM eventText]; rewrite Hu; cbn;
    by rewrite ?app_nil_r.
Qed.
End sortFlags_lemmas.

(** The invariance at a flag set of one flag, for a command line that
    ends in an error. *)
Lemma usageText_Parse_witness :
  ∃ f', finalFlagSet (Parse oneFlag [B "-name=x"; B "-colour"]) = Some f' ∧
        usageText f' = usageText oneFlag.
Proof.
  eexists. split; [by vm_compute|].
  apply (usageText_Parse oneFlag [B "-name=x"; B "-colour"]). by vm_compute.
Defined.

(** Two flags of a map in the two orders: the sorted one is the one
    [sortFlags] returns. *)
Lemma sortFlags_spec_witness :
  let doc := mkFlag (B "doc") (B "spider doc") [] [] in
  let url := mkFlag (B "url") (B "start url") (B "x") (B "x") in
  [doc; url] = sortFlags (<[B "url" := url]> {[B "doc" := doc]}) ↔
  StronglySorted (λ a b, stringLess (Name a) (Name b)) [doc; url].
Proof.
  apply sortFlags_spec.
  - intros k fl. rewrite lookup_insert_Some, lookup_singleton_Some.
    by intros [[<- <-]|[_ [<- <-]]].
  - apply (bool_decide_unpack _). by vm_compute.
Defined.
