(* ===== verification/CommandLine.v ===== *)
(** * Command lines that set flags

    The command lines that package [flag] accepts, described from the
    outside: a sequence of settings, each written [-k=v], [--k=v],
    [-k v] or [--k v], then nothing, the terminator [--], or an argument
    that is no flag, and whatever follows.  [Parse_settings] says what
    [flag.Parse] does on every such command line: the settings are
    applied from left to right, so the last value given to a flag
    stays, and the arguments after the settings are left in [Args()].

    [parsesTo] gives the whole behaviour of [Parse] as rules: the end
    of the flags, a setting, or an argument in error ([argError]: no
    flag name, a request for help, a flag that is not defined, a flag
    without its value).  [Parse_parsesTo] shows that the rules and the
    code agree on every command line. *)

From Stdlib Require Import Ascii Wf_nat.
From stdpp Require Import base tactics option list strings gmap.
From S2P Require Import Prelude GoStrings Flags.
Import flag.

(** A setting of a flag on the command line: with two dashes or one,
    with the value in the same argument after [=] or in the next
    argument. *)
Record setting : Type := mkSetting {
  twoDashes : bool;
  key : bytes;
  value : bytes;
  inline : bool;
}.

(** The arguments that a setting is written as. *)
Definition settingArgs (s : setting) : list bytes :=
  if inline s then [flagArg (twoDashes s) (key s) (Some (value s))]
  else [flagArg (twoDashes s) (key s) None; value s].

Definition settingKV (s : setting) : bytes * bytes := (key s, value s).

(** An argument that [parseOne] does not take for a flag: shorter than
    two bytes, or not starting with a dash. *)
Definition nonFlag (a : bytes) : Prop :=
  length a < 2 ∨ head a ≠ Some "-"%char.

#[export] Instance nonFlag_dec a : Decision (nonFlag a).
Proof. unfold nonFlag. apply _. Defined.

(** What may follow the settings: nothing, or arguments the first of
    which is the terminator or no flag. *)
Definition endsFlags (rest : list bytes) : Prop :=
  match rest with
  | [] => True
  | a :: _ => a = B "--" ∨ nonFlag a
  end.

#[export] Instance endsFlags_dec rest : Decision (endsFlags rest).
Proof. destruct rest; simpl; apply _. Defined.

(** The arguments that are left for [Args()]: a terminator is
    consumed. *)
Definition positional (rest : list bytes) : list bytes :=
  match rest with
  | a :: rest' => if decide (a = B "--") then rest' else rest
  | [] => []
  end.

(** An argument that starts like a flag and has no name: [-=...],
    [--=...] or [---...]. *)
Definition badSyntax (a : bytes) : Prop :=
  B "-=" `prefix_of` a ∨ B "--=" `prefix_of` a ∨ B "---" `prefix_of` a.

#[export] Instance badSyntax_dec a : Decision (badSyntax a).
Proof. unfold badSyntax. apply _. Defined.

(** A command line: settings, then the rest. *)
Definition commandLine (ss : list setting) (rest : list bytes) : list bytes :=
  concat (settingArgs <$> ss) ++ rest.

(** ** What [Parse] does, as rules *)

(** The flag set after the report of an error: the line of the error,
    unless help was asked for, and the usage message. *)
Definition reportError (f : FlagSet) (e : flagError) : FlagSet :=
  match e with
  | ErrHelp => usage f
  | _ => usage (write f (WriteLine (errorText e)))
  end.

(** The arguments left when [a :: rest] stops on the error [e]: an
    argument without a flag name is not consumed. *)
Definition errorArgs (e : flagError) (a : bytes) (rest : list bytes) : list bytes :=
  match e with
  | ErrBadSyntax _ => a :: rest
  | _ => rest
  end.

(** The errors of an argument [a] followed by [rest]. *)
Inductive argError (f : FlagSet) : bytes → list bytes → flagError → Prop :=
  | err_syntax a rest :
    badSyntax a → argError f a rest (ErrBadSyntax a)
  | err_help two k ov rest :
    k = B "help" ∨ k = B "h" → formal f !! k = None →
    argError f (flagArg two k ov) rest ErrHelp
  | err_undefined two k ov rest :
    validName k → k ≠ B "help" → k ≠ B "h" → formal f !! k = None →
    argError f (flagArg two k ov) rest (ErrNotDefined k)
  | err_needs_argument two k :
    validName k → is_Some (formal f !! k) →
    argError f (flagArg two k None) [] (ErrNeedsArgument k).

(** [parsesTo f arguments o]: from the flag set [f], the arguments lead
    [Parse] to the outcome [o].  The arguments end the flags; or they
    start with a setting of a defined flag, which is applied; or their
    first argument is in error, which is reported and handled as the
    flag set says. *)
Inductive parsesTo : FlagSet → list bytes → parseOutcome → Prop :=
  | parses_end f rest :
    endsFlags rest → parsesTo f rest (Parsed (setArgs f (positional rest)))
  | parses_setting f s fl rest o :
    validName (key s) → formal f !! key s = Some fl →
    parsesTo (setFlag f (key s) fl (value s)) rest o →
    parsesTo f (settingArgs s ++ rest) o
  | parses_error f a rest e :
    argError f a rest e →
    parsesTo f (a :: rest)
      (handleError (reportError (setArgs f (errorArgs e a rest)) e) e).

Section command_lines.
Implicit Types (f : FlagSet) (k v a : bytes) (fl : Flag) (s : setting).
Implicit Types (ss : list setting) (rest : list bytes).

(** ** One setting *)

Lemma setArgs_args f : setArgs f (args f) = f.
Proof. by destruct f. Qed.

Lemma setArgs_setArgs f rest rest' : setArgs (setArgs f rest) rest' = setArgs f rest'.
Proof. done. Qed.

Lemma setFlag_setArgs f rest k fl v :
  setFlag (setArgs f rest) k fl v = setArgs (setFlag f k fl v) rest.
Proof. done. Qed.

Lemma assign_Some f (kv : bytes * bytes) fl :
  formal f !! kv.1 = Some fl → assign f kv = setFlag f kv.1 fl kv.2.
Proof. intros Hfl. unfold assign. by rewrite Hfl. Qed.

Lemma foldl_assign_setArgs f rest (kvs : list (bytes * bytes)) :
  foldl assign (setArgs f rest) kvs = setArgs (foldl assign f kvs) rest.
Proof.
  revert f. induction kvs as [|kv kvs IH]; intros f; [done|].
  cbn [foldl]. by rewrite assign_setArgs, IH.
Qed.

(** One step of [parseOne] on a setting of a defined flag, in any of
    its four forms. *)
Lemma parseOne_setting f s fl rest :
  validName (key s) → formal f !! key s = Some fl →
  args f = settingArgs s ++ rest →
  parseOne f = (setFlag (setArgs f rest) (key s) fl (value s), true, None).
Proof.
  destruct s as [two k v []]; cbn [key value settingArgs inline twoDashes app];
    intros Hk Hfl Hargs; rewrite (parseOne_flagArg f _ _ _ _ Hk Hargs), Hfl; done.
Qed.

(** One step on an argument without a flag name. *)
Lemma parseOne_badSyntax f a rest :
  badSyntax a → args f = a :: rest → parseOne f = failf f (ErrBadSyntax a).
Proof.
  intros Hbad Hargs. unfold parseOne. rewrite Hargs.
  destruct Hbad as [[x ->]|[[x ->]|[x ->]]]; cbn [app]; done.
Qed.

(** One step where the flags end. *)
Lemma parseOne_endsFlags f rest :
  endsFlags rest → args f = rest →
  parseOne f = (setArgs f (positional rest), false, None).
Proof.
  intros Hends Hargs. unfold parseOne. rewrite Hargs.
  destruct rest as [|a rest]; [by destruct f; simplify_eq/=|].
  cbn [positional]. case_decide as Ha; [by subst a|].
  destruct Hends as [?|Ha']; [done|].
  assert (setArgs f (a :: rest) = f) as -> by (by destruct f; simplify_eq/=).
  destruct a as [|c0 [|c1 a]]; [done..|].
  destruct Ha' as [Ha'|Ha']; [simpl in Ha'; lia|].
  rewrite bool_decide_true; [done|]. by intros ->.
Qed.

(** ** The whole command line *)

(** A setting that [Parse] applies: of a flag that is defined, under a
    name that [parseOne] reads back. *)
Definition okSetting (f : FlagSet) (s : setting) : Prop :=
  validName (key s) ∧ key s ∈ dom (formal f).

Lemma okSetting_dom f f' s :
  dom (formal f') = dom (formal f) → okSetting f s → okSetting f' s.
Proof. intros Hdom [? ?]. split; [done|]. by rewrite Hdom. Qed.

Lemma commandLine_cons s ss rest :
  commandLine (s :: ss) rest = settingArgs s ++ commandLine ss rest.
Proof. unfold commandLine. cbn [fmap list_fmap concat]. by rewrite (assoc_L (++)). Qed.

Lemma commandLine_length ss rest : length ss ≤ length (commandLine ss rest).
Proof.
  induction ss as [|s ss IH]; [simpl; lia|].
  rewrite commandLine_cons, length_app. destruct s as [? ? ? []]; simpl; lia.
Qed.

Lemma Parse_loop_settings fuel f ss rest :
  Forall (okSetting f) ss → endsFlags rest →
  args f = commandLine ss rest → length ss < fuel →
  Parse_loop fuel f =
  Parsed (setArgs (foldl assign f (settingKV <$> ss)) (positional rest)).
Proof.
  revert f ss. induction fuel as [|fuel IH]; intros f ss Hss Hrest Hargs Hfuel;
    [lia|].
  cbn [Parse_loop]. destruct Hss as [|s ss [Hk Hdom] Hss].
  - by rewrite (parseOne_endsFlags f rest).
  - apply elem_of_dom in Hdom as [fl Hfl]. rewrite commandLine_cons in Hargs.
    rewrite (parseOne_setting f s fl (commandLine ss rest)) by done.
    rewrite (IH _ ss); [|eapply Forall_impl; [done|]|done..|simpl in *; lia].
    2: { intros s'. apply okSetting_dom. by rewrite setFlag_formal_dom. }
    cbn [fmap list_fmap foldl]. rewrite (assign_Some f (settingKV s) fl) by done.
    by rewrite setFlag_setArgs, foldl_assign_setArgs.
Qed.

(** On settings of defined flags, [Parse] returns the flag set with the
    settings applied from left to right. *)
Lemma Parse_commandLine f ss rest :
  Forall (okSetting f) ss → endsFlags rest →
  Parse f (commandLine ss rest) =
  Parsed (setArgs (foldl assign (setParsed f true) (settingKV <$> ss))
                  (positional rest)).
Proof.
  intros Hss Hrest. unfold Parse.
  rewrite (Parse_loop_settings _ _ ss rest); [|done..|].
  - by rewrite foldl_assign_setArgs.
  - pose proof (commandLine_length ss rest). cbn [args setArgs]. lia.
Qed.

(** The command lines that set flags.  On settings of defined
    flags, each written with one dash or two and with its value after
    [=] or in the next argument, followed by nothing, by [--] or by an
    argument that is no flag, [Parse] returns without an error and
    writes nothing; every flag variable holds the value of the last
    setting of the flag, or the value it had; and [Args()] holds what
    follows the settings, without the terminator. *)
Theorem Parse_settings f ss rest :
  Forall (okSetting f) ss → endsFlags rest →
  ∃ f', Parse f (commandLine ss rest) = Parsed f' ∧
        args f' = positional rest ∧ output f' = output f ∧
        ∀ k, deref f' k = default (deref f k) (lastValue (settingKV <$> ss) k).
Proof.
  intros Hss Hrest. eexists. split; [by apply Parse_commandLine|].
  cbn [args output setArgs]. rewrite foldl_assign_output.
  split_and!; [done..|]. intros k.
  change (deref (setArgs ?g _) k) with (deref g k).
  rewrite deref_assignments; [done|].
  apply Forall_fmap. eapply Forall_impl; [done|]. by intros s [_ ?].
Qed.

(** ** The rules and the code *)

Lemma validName_help k : k = B "help" ∨ k = B "h" → validName k.
Proof. intros [-> | ->]; apply (bool_decide_unpack _); by vm_compute. Qed.

(** One step on an argument in error. *)
Lemma parseOne_argError f a rest e :
  argError f a rest e → args f = a :: rest →
  parseOne f = (reportError (setArgs f (errorArgs e a rest)) e, false, Some e).
Proof.
  destruct 1 as [a rest Hbad|two k ov rest Hk Hnone|two k ov rest Hk Hhelp Hh Hnone
                |two k Hk [fl Hfl]]; intros Hargs.
  - rewrite (parseOne_badSyntax f a rest) by done. cbn [errorArgs].
    by rewrite <-Hargs, setArgs_args.
  - rewrite (parseOne_flagArg f two k ov rest), Hnone;
      [|by apply validName_help|done].
    by destruct Hk as [-> | ->].
  - rewrite (parseOne_flagArg f two k ov rest), Hnone by done.
    by rewrite !bool_decide_false.
  - by rewrite (parseOne_flagArg f two k None []), Hfl.
Qed.

(** The errors depend on the flags that are defined only. *)
Lemma argError_formal f f' a rest e :
  formal f' = formal f → argError f a rest e → argError f' a rest e.
Proof. intros Hformal. destruct 1; constructor; by rewrite ?Hformal. Qed.

(** The rules describe the loop of [Parse]. *)
Lemma parsesTo_Parse_loop f arguments o fuel :
  parsesTo f arguments o → length arguments < fuel →
  Parse_loop fuel (setArgs f arguments) = o.
Proof.
  intros Hparses. revert fuel.
  induction Hparses as [f rest Hends|f s fl rest o Hk Hfl _ IH|f a rest e Herr];
    intros [|fuel] Hfuel; try lia; cbn [Parse_loop].
  - by rewrite (parseOne_endsFlags _ rest).
  - rewrite (parseOne_setting _ s fl rest) by done.
    apply IH. rewrite length_app in Hfuel.
    destruct s as [? ? ? []]; simpl in Hfuel; lia.
  - by rewrite (parseOne_argError _ a rest e)
      by (done || by apply (argError_formal f)).
Qed.

(** Every argument is of one of four kinds. *)
Lemma flagName_split c n :
  c ≠ "-"%char → c ≠ "="%char →
  ∃ k ov, validName k ∧ c :: n = k ++ from_option (app (B "=")) [] ov.
Proof.
  intros Hm He. destruct (decide ("="%char ∈ n)) as [Hin|Hin].
  - apply list_elem_of_split_l in Hin as (n1 & n2 & -> & Hn1).
    by exists (c :: n1), (Some n2).
  - exists (c :: n), None. by rewrite app_nil_r.
Qed.

Lemma arg_cases a :
  endsFlags [a] ∨ badSyntax a ∨ ∃ two k ov, validName k ∧ a = flagArg two k ov.
Proof.
  destruct a as [|c0 [|c1 a]]; [left; right; left; simpl; lia..|].
  destruct (decide (c0 = "-"%char)) as [->|]; [|left; right; right; by intros [=]].
  destruct (decide (c1 = "-"%char)) as [->|Hc1].
  - destruct a as [|c2 a]; [by left; left|].
    destruct (decide (c2 = "-"%char)) as [->|]; [right; left; right; right; by eexists|].
    destruct (decide (c2 = "="%char)) as [->|]; [right; left; right; left; by eexists|].
    destruct (flagName_split c2 a) as (k & ov & Hk & Ha); [done..|].
    right; right. exists true, k, ov. split; [done|].
    unfold flagArg. cbn [app]. rewrite Ha. by destruct ov.
  - destruct (decide (c1 = "="%char)) as [->|]; [right; left; left; by eexists|].
    destruct (flagName_split c1 a) as (k & ov & Hk & Ha); [done..|].
    right; right. exists false, k, ov. split; [done|].
    unfold flagArg. cbn [app]. rewrite Ha. by destruct ov.
Qed.

Lemma endsFlags_cons a rest : endsFlags [a] → endsFlags (a :: rest).
Proof. done. Qed.

(** The rules give every command line an outcome. *)
Lemma parsesTo_total f arguments : ∃ o, parsesTo f arguments o.
Proof.
  remember (length arguments) as n eqn:Hn. revert f arguments Hn.
  induction (lt_wf n) as [n _ IH]. intros f [|a rest] ->;
    [eexists; by apply parses_end|].
  destruct (arg_cases a) as [Hend|[Hbad|(two & k & ov & Hk & ->)]].
  - eexists. by apply parses_end, endsFlags_cons.
  - eexists. by apply parses_error, err_syntax.
  - destruct (formal f !! k) as [fl|] eqn:Hfl.
    + destruct ov as [v|]; [|destruct rest as [|v rest]].
      * destruct (IH (length rest) ltac:(simpl; lia)
          (setFlag f k fl v) rest eq_refl) as [o Ho].
        exists o. by apply (parses_setting f (mkSetting two k v true) fl).
      * eexists. by apply parses_error, err_needs_argument.
      * destruct (IH (length rest) ltac:(simpl; lia)
          (setFlag f k fl v) rest eq_refl) as [o Ho].
        exists o. by apply (parses_setting f (mkSetting two k v false) fl).
    + destruct (decide (k = B "help")); [eexists; apply parses_error, err_help; auto|].
      destruct (decide (k = B "h")); [eexists; apply parses_error, err_help; auto|].
      eexists. by apply parses_error, err_undefined.
Qed.

Lemma parsesTo_outcome f arguments o o' :
  parsesTo f arguments o → o = o' → parsesTo f arguments o'.
Proof. by intros ? <-. Qed.

(** [Parse] follows the rules. *)
Lemma parsesTo_Parse f arguments :
  parsesTo (setParsed f true) arguments (Parse f arguments).
Proof.
  destruct (parsesTo_total (setParsed f true) arguments) as [o Ho].
  unfold Parse.
  by rewrite (parsesTo_Parse_loop _ _ o (S (length arguments)) Ho) by (simpl; lia).
Qed.

(** A command line that ends in the exit with code 0 asks for help: it
    is made of settings of defined flags and then an argument that
    names [help] or [h], which is no flag of the set. *)
Lemma parsesTo_help f arguments o cl :
  parsesTo f arguments o → errorHandling f = ExitOnError → o = ParseExit cl 0 →
  ∃ ss two k ov rest,
    arguments = commandLine ss (flagArg two k ov :: rest) ∧
    (k = B "help" ∨ k = B "h") ∧ formal f !! k = None ∧ Forall (okSetting f) ss.
Proof.
  induction 1 as [f rest Hends|f s fl rest o Hk Hfl _ IH|f a rest e Herr];
    intros Hexit Ho; [done| |].
  - destruct IH as (ss & two & k & ov & rest' & -> & Hhelp & Hnone & Hss); [done..|].
    assert (formal f !! k = None) as Hnone'.
    { apply not_elem_of_dom. rewrite <-(setFlag_formal_dom f (key s) fl (value s)) by done.
      by apply not_elem_of_dom. }
    exists (s :: ss), two, k, ov, rest'. rewrite commandLine_cons.
    split_and!; [done..|]. constructor; [split; [done|by apply elem_of_dom]|].
    eapply Forall_impl; [done|]. intros s'. apply okSetting_dom.
    by rewrite setFlag_formal_dom.
  - unfold handleError in Ho.
    replace (errorHandling (reportError (setArgs f (errorArgs e a rest)) e))
      with ExitOnError in Ho by (by destruct e).
    case_bool_decide; [subst e|done].
    inversion Herr; subst. by exists [], two, k, ov, rest.
Qed.

(** C21: the rules are what [Parse] does.  On every command line, and
    with every way of handling errors, [Parse] ends with the outcome
    that the rules of [parsesTo] derive, and the rules derive no
    other. *)
Theorem Parse_parsesTo f arguments o :
  parsesTo (setParsed f true) arguments o ↔ Parse f arguments = o.
Proof.
  split.
  - intros Hparses. by apply parsesTo_Parse_loop; [|simpl; lia].
  - intros <-. apply parsesTo_Parse.
Qed.
End command_lines.

(** A command line in all four forms, with a repeated flag and
    positional arguments after the terminator. *)
Lemma Parse_settings_witness :
  ∃ f', Parse oneFlag (commandLine
          [mkSetting false (B "name") (B "a") true;
           mkSetting true (B "name") (B "b") false;
           mkSetting true (B "name") (B "c") true;
           mkSetting false (B "name") (B "-d") false]
          [B "--"; B "-name=e"]) = Parsed f' ∧
        args f' = positional [B "--"; B "-name=e"] ∧
        output f' = output oneFlag ∧
        ∀ k, deref f' k =
             default (deref oneFlag k)
               (lastValue (settingKV <$>
                  [mkSetting false (B "name") (B "a") true;
                   mkSetting true (B "name") (B "b") false;
                   mkSetting true (B "name") (B "c") true;
                   mkSetting false (B "name") (B "-d") false]) k).
Proof.
  apply (Parse_settings oneFlag); apply (bool_decide_unpack _); by vm_compute.
Defined.

(** The rules at work: a setting, then a flag that is not defined. *)
Lemma Parse_parsesTo_witness :
  ∃ f', Parse oneFlag [B "-name"; B "x"; B "--bogus=1"; B "y"] = ParseExit f' 2 ∧
        deref f' (B "name") = B "x" ∧ args f' = [B "y"].
Proof.
  eexists. split.
  - apply Parse_parsesTo. eapply parsesTo_outcome.
    + eapply (parses_setting _ (mkSetting false (B "name") (B "x") false));
        [apply (bool_decide_unpack _); by vm_compute|by vm_compute|].
      apply (parses_error _ _ _ (ErrNotDefined (B "bogus"))),
        (err_undefined _ true (B "bogus") (Some (B "1")));
        [apply (bool_decide_unpack _); by vm_compute|done..|by vm_compute].
    + by vm_compute.
  - by vm_compute.
Defined.
