(* ===== verification/Main.v ===== *)
(** * The program ([func main])

    [main] (lines 49-79 of [swissknife.go]) as a function from the state
    of standard output and the program's arguments to what the process
    leaves behind: standard output, the events on standard error and
    the way it ended.  [os.Args] is [arg0 :: arguments]; the flag
    package reads [arg0] when it creates [CommandLine].  Standard output
    is any [Writer]; [terminal] is the one that takes every write.  The
    template engine is a parameter ([TemplateEngine]); the theorems
    about [main] assume of it only [RendersSpider], which Go's engine
    provides, and [main_panics_iff] assumes nothing of it.

    The theorems of the first part are about runs on a terminal:
    [mainSpec] states what such a run leaves behind as a relation,
    [stderrText] turns the events on standard error into the bytes that
    the flag package prints.  The second part relates a run on any
    writer that keeps the contract of [io.Writer] to the run on a
    terminal ([outcomeRefines], [main_refines]), and gives the run on
    devices that fill up ([main_no_space]; [stderrOn] is what a writer
    receives of the program's writes to standard error, [stderrAtExit]
    adds the report of the runtime when the run ends in a panic). *)

From Stdlib Require Import Ascii.
From stdpp Require Import base tactics option list strings gmap.
From S2P Require Import Prelude GoStrings Writer Fmt Spider Utf8 HtmlEscape Lexer Parser.
From S2P Require Import Exec Template Flags Usage CommandLine.

(** What a [panic] carries. *)
Inductive panicValue : Type :=
  | PanicFlag (p : flag.flagPanic)
  | PanicParse (e : parseFailure)
  | PanicExecute (e : execFailure)
  | PanicFlagParse (e : flag.flagError).

(** How the process ends: [os.Exit(code)] (a return from [main] is an
    exit with code 0), or a panic.  [NoAnswer] is the model out of fuel
    or a format outside the model of [fmt], which [main_status]
    excludes. *)
Inductive exitStatus : Type :=
  | Exit (code : nat)
  | Panic (what : panicValue)
  | NoAnswer.

(** What a run leaves behind: standard output, a writer of type [W],
    the events on standard error and the way the run ended. *)
Record outcome (W : Type) : Type := mkOutcome {
  stdout : W;
  stderr : list flag.outEvent;
  status : exitStatus;
}.
Arguments mkOutcome {W} stdout stderr status.
Arguments stdout {W} o.
Arguments stderr {W} o.
Arguments status {W} o.

(** The format of line 60; it holds no verb, so [fmt.Printf] writes it
    as it is. *)
Definition needsNameMessage : bytes := B "error: a spider needs a name" ++ [LF].

(** The default of the flag [url]. *)
Definition defaultURL : bytes := B "www.example.com".

(** Lines 50-53: the three flags, defined on [CommandLine]; the three
    pointers are the second component. *)
Definition defineFlags (arg0 : bytes)
    : result flag.flagPanic (flag.FlagSet * (bytes * bytes * bytes)) :=
  '(cl, spiderName) ← flag.String (flag.CommandLine arg0) (B "name") [] (B "spider name");
  '(cl, spiderDoc) ← flag.String cl (B "doc") [] (B "spider doc");
  '(cl, spiderURL) ← flag.String cl (B "url") defaultURL (B "start url to scrape");
  Ok (cl, (spiderName, spiderDoc, spiderURL)).

(** Lines 64-68: the [Spider] built from the three variables. *)
Definition spiderOf (cl : flag.FlagSet) (ptrs : bytes * bytes * bytes) : Spider :=
  let '(spiderName, spiderDoc, spiderURL) := ptrs in
  mkSpider (flag.deref cl spiderName) (flag.deref cl spiderDoc)
           (flag.deref cl spiderURL).

Section main.
Context `{TemplateEngine} `{Writer W}.

(** Lines 70-78: parse the template and execute it on the spider, with
    standard output as the writer; either failure is a panic.  The
    name [spider] of [template.New] and the function map of line 70,
    which is empty, are not arguments of the engine: the name occurs in
    the texts of errors only, and an empty map defines no function. *)
Definition generate (Stdout : W) (spider : Spider) (err : list flag.outEvent)
    : outcome W :=
  match engineParse spiderTemplate with
  | Err e => mkOutcome Stdout err (Panic (PanicParse e))
  | Ok t =>
    match engineExecute t spider Stdout with
    | (out, Some e) => mkOutcome out err (Panic (PanicExecute e))
    | (out, None) => mkOutcome out err (Exit 0)
    end
  end.

(** Lines 59-78: what [main] does once the flags are parsed.  What
    [fmt.Printf] returns at line 60 is dropped: the run exits with code
    1 whether the message was written or not. *)
Definition afterParse (Stdout : W) (cl : flag.FlagSet)
    (ptrs : bytes * bytes * bytes) : outcome W :=
  if bool_decide (flag.deref cl ptrs.1.1 = []) then
    match Printf Stdout needsNameMessage with
    | Some (out, _, _) => mkOutcome out (flag.output cl) (Exit 1)
    | None => mkOutcome Stdout (flag.output cl) NoAnswer
    end
  else generate Stdout (spiderOf cl ptrs) (flag.output cl).

(** [func main], started with [os.Stdout] in state [Stdout].  The
    package-level [flag.Parse] drops the error that [CommandLine.Parse]
    returns; with [ExitOnError] there is none. *)
Definition main (Stdout : W) (arg0 : bytes) (arguments : list bytes) : outcome W :=
  match defineFlags arg0 with
  | Err p => mkOutcome Stdout [] (Panic (PanicFlag p))
  | Ok (cl, ptrs) =>
    match flag.Parse cl arguments with
    | flag.Parsed cl => afterParse Stdout cl ptrs
    | flag.ParseExit cl code => mkOutcome Stdout (flag.output cl) (Exit code)
    | flag.ParseError cl e => afterParse Stdout cl ptrs
    | flag.ParsePanic cl e =>
      mkOutcome Stdout (flag.output cl) (Panic (PanicFlagParse e))
    | flag.ParseOutOfFuel => mkOutcome Stdout [] NoAnswer
    end
  end.

End main.

(** The flag set after lines 50-53. *)
Definition spiderFlags (arg0 : bytes) : flag.FlagSet :=
  flag.mkFlagSet flag.UsageCommandLine arg0 false ∅
    (<[B "url" := flag.mkFlag (B "url") (B "start url to scrape") defaultURL defaultURL]>
     (<[B "doc" := flag.mkFlag (B "doc") (B "spider doc") [] []]>
      (<[B "name" := flag.mkFlag (B "name") (B "spider name") [] []]> ∅)))
    [] flag.ExitOnError [].

(** The three pointers of lines 50-53. *)
Definition spiderPtrs : bytes * bytes * bytes := (B "name", B "doc", B "url").

(** The spider that the assignments [-k=v] of a command line describe:
    for each flag the last value given, or its default. *)
Definition assignedSpider (kvs : list (bytes * bytes)) : Spider :=
  mkSpider (default [] (flag.lastValue kvs (B "name")))
           (default [] (flag.lastValue kvs (B "doc")))
           (default defaultURL (flag.lastValue kvs (B "url"))).

(** The command line of the usage comment (line 9) as the shell hands
    it to the process: the program, and the arguments with the quotes
    around the value of [-doc] removed. *)
Definition usageProgram : bytes := B "./tools/swissknife".

Definition usageArguments : list bytes :=
  [B "-name=MarineTraffic"; B "-doc=scrape MT"; B "-url=www.mt.com"].

(** The usage message of the program, as package [flag] prints it for
    the three flags of lines 50-53: the flags in the order of their
    names, each with the type [string] and its usage text, and the
    default value where it is not the empty string. *)
Definition spiderUsage (prog : bytes) : bytes :=
  B "Usage of " ++ prog ++ B ":" ++ [LF] ++
  B "  -doc string" ++ [LF] ++
  B "    " ++ [TAB] ++ B "spider doc" ++ [LF] ++
  B "  -name string" ++ [LF] ++
  B "    " ++ [TAB] ++ B "spider name" ++ [LF] ++
  B "  -url string" ++ [LF] ++
  B "    " ++ [TAB] ++ B "start url to scrape (default " ++
    [DQUOTE] ++ B "www.example.com" ++ [DQUOTE] ++ B ")" ++ [LF].

(** The bytes that the program writes to standard error: what the
    events of the run print with the flags of lines 50-53. *)
Definition stderrText {W} (prog : bytes) (o : outcome W) : option bytes :=
  eventsText (spiderFlags prog) (stderr o).

(** Standard error as a writer: the writes of the events of a run with
    the flags of lines 50-53, in order, their errors dropped as package
    [flag] drops them.  These are the writes of the program; the
    runtime adds its report when the run ends in a panic
    ([stderrAtExit]). *)
Definition stderrOn `{Writer W} {W'} (Stderr : W) (prog : bytes) (o : outcome W')
    : option W :=
  chunks ← eventsChunks (spiderFlags prog) (stderr o);
  Some (writeEach Stderr chunks).

(** The exit code that the parent of the process sees: the Go runtime
    ends a process that panics with code 2. *)
Definition exitStatusCode (st : exitStatus) : option nat :=
  match st with
  | Exit code => Some code
  | Panic _ => Some 2
  | NoAnswer => None
  end.

(** [printpanicval] after [preprintpanics]: the text of a panic value,
    which for an error is [v.Error()].  The errors of the two template
    packages print a position in the template and the panics of
    [flag.Var] a quoted name; these are outside the model ([None]), and
    no run reaches them ([main_panicText]). *)
Definition printpanicval (v : panicValue) : option bytes :=
  match v with
  | PanicExecute (ExecWrite e) => Some (Error e)
  | PanicFlagParse e => Some (flag.errorText e)
  | _ => None
  end.

(** [printpanics]: what the runtime prints for the panic of line 73 or
    77, one write for each operand of [print]. *)
Definition printpanics (v : panicValue) : option (list bytes) :=
  msg ← printpanicval v; Some [B "panic: "; msg; [LF]].

(** [fatalpanic]: the report of the panic and the traceback of the
    goroutine go to standard error, their errors dropped.  The
    traceback names source paths and addresses and obeys
    [GOTRACEBACK]: it is given, as the writes [traceback]. *)
Definition fatalpanic `{Writer W} (Stderr : W) (traceback : list bytes)
    (v : panicValue) : option W :=
  report ← printpanics v; Some (writeEach Stderr (report ++ traceback)).

(** Standard error when the process has ended: what package [flag] has
    written, and after it what the runtime reports of a panic. *)
Definition stderrAtExit `{Writer W} {W'} (Stderr : W) (prog : bytes)
    (traceback : list bytes) (o : outcome W') : option W :=
  err ← stderrOn Stderr prog o;
  match status o with
  | Panic v => fatalpanic err traceback v
  | _ => Some err
  end.

(** A run [o] that started with standard output [Stdout], against the
    run [i] of the same command line on a terminal.  What the program
    writes to standard error is the same; standard output has received a prefix of what the
    terminal has; and either the run ended the way [i] did, having
    written all of it unless it ended with code 1 (line 60 drops the
    error of a write), or [i] ended with code 0 and [o] with the panic
    of line 77 on the error of a write. *)
Definition outcomeRefines `{Writer W} (Stdout : W)
    (i : outcome bytes) (o : outcome W) : Prop :=
  stderr o = stderr i ∧
  ∃ b, written (stdout o) = written Stdout ++ b ∧ b `prefix_of` stdout i ∧
    ((status o = status i ∧ (b = stdout i ∨ status i = Exit 1)) ∨
     (status i = Exit 0 ∧
      ∃ e, status o = Panic (PanicExecute (ExecWrite e)))).

(** ** What a run may leave behind *)

(** The three ways a run ends, in terms of what [flag.Parse] answers on
    the flag set of lines 50-53: the name is missing, the spider is
    rendered by [spec], or the flag package has ended the process. *)
Inductive mainSpec (spec : Spider → bytes) (prog : bytes) (arguments : list bytes)
    : outcome bytes → Prop :=
  | MissingName cl :
    flag.Parse (spiderFlags prog) arguments = flag.Parsed cl →
    flag.deref cl (B "name") = [] →
    mainSpec spec prog arguments (mkOutcome needsNameMessage [] (Exit 1))
  | Rendered cl :
    flag.Parse (spiderFlags prog) arguments = flag.Parsed cl →
    flag.deref cl (B "name") ≠ [] →
    mainSpec spec prog arguments
      (mkOutcome (spec (spiderOf cl spiderPtrs)) [] (Exit 0))
  | FlagExit cl e :
    flag.Parse (spiderFlags prog) arguments =
      flag.ParseExit cl (flag.exitCode e) →
    flag.output cl = flag.errorEvents e →
    mainSpec spec prog arguments
      (mkOutcome [] (flag.errorEvents e) (Exit (flag.exitCode e))).

Section main_parse.
Context `{E : TemplateEngine}.
Implicit Types (prog : bytes) (arguments : list bytes) (cl : flag.FlagSet).

(** Lines 50-53 never panic: the three names are distinct and well
    formed. *)
Lemma defineFlags_ok prog :
  defineFlags prog = Ok (spiderFlags prog, spiderPtrs).
Proof. reflexivity. Qed.

Lemma main_unfold `{Writer W} (Stdout : W) prog arguments :
  main Stdout prog arguments =
  match flag.Parse (spiderFlags prog) arguments with
  | flag.Parsed cl => afterParse Stdout cl spiderPtrs
  | flag.ParseExit cl code => mkOutcome Stdout (flag.output cl) (Exit code)
  | flag.ParseError cl e => afterParse Stdout cl spiderPtrs
  | flag.ParsePanic cl e =>
    mkOutcome Stdout (flag.output cl) (Panic (PanicFlagParse e))
  | flag.ParseOutOfFuel => mkOutcome Stdout [] NoAnswer
  end.
Proof. unfold main. by rewrite defineFlags_ok. Qed.

(** The two ways [flag.Parse] ends on the flags of lines 50-53, and
    what [main] does after each, whatever standard output is: the
    flags parse, nothing is reported and lines 59-78 run; or the flag
    package reports an error and ends the process. *)
Lemma main_Parse prog arguments :
  (∃ cl, flag.Parse (spiderFlags prog) arguments = flag.Parsed cl ∧
     flag.output cl = [] ∧
     ∀ W (HW : Writer W) (Stdout : W),
       main Stdout prog arguments = afterParse Stdout cl spiderPtrs) ∨
  (∃ cl e,
     flag.Parse (spiderFlags prog) arguments =
       flag.ParseExit cl (flag.exitCode e) ∧
     flag.output cl = flag.errorEvents e ∧
     ∀ W (HW : Writer W) (Stdout : W),
       main Stdout prog arguments =
       mkOutcome Stdout (flag.errorEvents e) (Exit (flag.exitCode e))).
Proof.
  pose proof (flag.Parse_ExitOnError (spiderFlags prog) arguments eq_refl) as HP.
  destruct (flag.Parse _ _) as [cl| |cl code| |] eqn:Hparse; try done.
  - left. exists cl. do 2 (split; [done|]). intros. by rewrite main_unfold, Hparse.
  - right. destruct HP as (e & He & ->). exists cl, e. do 2 (split; [done|]).
    intros. by rewrite main_unfold, Hparse, He.
Qed.
End main_parse.

(** Case analysis on the way [flag.Parse] ends in the runs of the goal,
    from [main_Parse] at their command line: [cl] is the flag set it
    leaves, [e] the error of a run that the flag package ends. *)
Ltac run_cases H cl e Hparse Hout :=
  let Hmain := fresh "Hmain" in
  destruct H as [(cl & Hparse & Hout & Hmain)|(cl & e & Hparse & Hout & Hmain)];
  rewrite ?Hmain, ?Hparse; clear Hmain.

Section main_lemmas.
Context `{E : TemplateEngine} {spec : Spider → bytes} `{!RendersSpider E spec}.
Implicit Types (prog : bytes) (arguments : list bytes) (cl : flag.FlagSet).
Implicit Types (kvs : list (bytes * bytes)).

(** Lines 70-78 with an engine that renders the spider template, on
    any standard output: the pieces of the rendering are written up to
    the first write that fails, and a failed write is a panic. *)
Lemma generate_writeChunks `{Writer W} (Stdout : W) sp err :
  ∃ chunks, concat chunks = spec sp ∧
    generate Stdout sp err =
    match writeChunks Stdout (chunks, None) with
    | (out, Some e) => mkOutcome out err (Panic (PanicExecute e))
    | (out, None) => mkOutcome out err (Exit 0)
    end.
Proof.
  unfold generate. destruct engine_parses as [t Ht]. rewrite Ht.
  destruct (engine_executes t sp Ht) as (chunks & Hchunks & Hexec).
  exists chunks. by rewrite Hexec.
Qed.

Lemma generate_spec sp err :
  generate terminal sp err = mkOutcome (spec sp) err (Exit 0).
Proof.
  destruct (generate_writeChunks terminal sp err) as (chunks & <- & ->).
  by rewrite writeChunks_buffer.
Qed.

(** Line 60: the format holds no verb, and the message is handed to
    standard output in one write. *)
Lemma Printf_needsNameMessage `{Writer W} (Stdout : W) :
  Printf Stdout needsNameMessage = Some (Write Stdout needsNameMessage).
Proof. reflexivity. Qed.

Lemma afterParse_spec cl ptrs :
  afterParse terminal cl ptrs =
  if bool_decide (flag.deref cl ptrs.1.1 = []) then
    mkOutcome needsNameMessage (flag.output cl) (Exit 1)
  else mkOutcome (spec (spiderOf cl ptrs)) (flag.output cl) (Exit 0).
Proof. unfold afterParse. by rewrite generate_spec. Qed.

(** What [generate] ends with, by what the engine answers. *)
Lemma generate_status sp err :
  (∃ p, status (generate terminal sp err) = Panic p) ↔
  ¬ ∃ t, engineParse spiderTemplate = Ok t ∧
         (engineExecute t sp terminal).2 = None.
Proof.
  unfold generate. destruct (engineParse spiderTemplate) as [t|e].
  - destruct (engineExecute t sp terminal) as [out [e|]] eqn:Hexec;
      cbn [status]; split.
    + intros _ (? & [= <-] & Hnone). by rewrite Hexec in Hnone.
    + by eexists.
    + by intros [p ?].
    + intros []. exists t. by rewrite Hexec.
  - cbn [status]. split; [by intros _ (? & ? & ?)|by eexists].
Qed.

(** C15: when [main] panics, for any template engine.  A run ends in a
    panic exactly when the flags parse, the name is not empty, and the
    engine fails to parse the template (line 73) or to execute it
    (line 77): no command line makes the flag package panic, and the
    exit with code 1 comes before the engine is used. *)
Theorem main_panics_iff prog arguments :
  (∃ p, status (main terminal prog arguments) = Panic p) ↔
  ∃ cl, flag.Parse (spiderFlags prog) arguments = flag.Parsed cl ∧
    flag.deref cl (B "name") ≠ [] ∧
    ¬ ∃ t, engineParse spiderTemplate = Ok t ∧
           (engineExecute t (spiderOf cl spiderPtrs) terminal).2 = None.
Proof.
  run_cases (main_Parse prog arguments) cl e Hparse Hout.
  - unfold afterParse. cbn [spiderPtrs fst]. case_bool_decide as Hname.
    + split; [by intros [p ?]|]. by intros (? & [= <-] & ? & _).
    + rewrite generate_status. split; [by exists cl|].
      by intros (? & [= <-] & _ & ?).
  - split; [by intros [p ?]|by intros (? & ? & _)].
Qed.

(** A command line that parses leaves standard error empty. *)
Lemma Parsed_output prog arguments cl :
  flag.Parse (spiderFlags prog) arguments = flag.Parsed cl → flag.output cl = [].
Proof.
  intros Hcl.
  pose proof (flag.Parse_ExitOnError (spiderFlags prog) arguments eq_refl) as HP.
  by rewrite Hcl in HP.
Qed.

(** [main] implements [mainSpec]. *)
Lemma main_cases prog arguments :
  mainSpec spec prog arguments (main terminal prog arguments).
Proof.
  run_cases (main_Parse prog arguments) cl e Hparse Hout; [|by eapply FlagExit].
  rewrite afterParse_spec, Hout. cbn [spiderPtrs fst].
  case_bool_decide; [by eapply MissingName|by eapply Rendered].
Qed.

(** C14: [main] implements [mainSpec], and [mainSpec] allows one outcome
    only: a run leaves behind exactly what the three cases of the
    specification say, in terms of what [flag.Parse] answers on the
    flags of lines 50-53. *)
Theorem main_mainSpec prog arguments o :
  mainSpec spec prog arguments o ↔ o = main terminal prog arguments.
Proof.
  split; [|intros ->; apply main_cases].
  rewrite main_unfold.
  destruct 1 as [cl Hcl Hname|cl Hcl Hname|cl e Hcl Hout]; rewrite Hcl;
    [rewrite afterParse_spec, (Parsed_output prog arguments cl) by done..|].
  - cbn [spiderPtrs fst]. by rewrite bool_decide_true.
  - cbn [spiderPtrs fst]. by rewrite bool_decide_false.
  - by rewrite Hout.
Qed.

(** What the error stream of a run that the flag package has ended
    holds. *)
Lemma FlagExit_stderr e :
  last (flag.errorEvents e) = Some flag.UsageCalled.
Proof. apply (flag.errorEvents_last []). Qed.

(** C1: whatever the arguments, [main] on a standard output that
    takes every write ends by an exit with code 0, 1 or 2: neither
    [panic] of lines 73 and 77 is reached, and the flag definitions of
    lines 50-53 do not panic. *)
Theorem main_status prog arguments :
  status (main terminal prog arguments) ∈ [Exit 0; Exit 1; Exit 2].
Proof.
  destruct (main_cases prog arguments) as [| |? e]; cbn [status];
    [..|destruct (flag.exitCode_cases e) as [-> | ->]];
    rewrite !elem_of_cons; auto.
Qed.

(** C4: a run that exits with code 1 has written the message of line 60
    to standard output, nothing else, and nothing to standard error: no
    rendering was attempted. *)
Theorem main_exit_1 prog arguments :
  status (main terminal prog arguments) = Exit 1 →
  stdout (main terminal prog arguments) = needsNameMessage ∧
  stderr (main terminal prog arguments) = [].
Proof.
  destruct (main_cases prog arguments) as [| |? e]; cbn; try done.
  by destruct (flag.exitCode_cases e) as [-> | ->].
Qed.

(** A run that exits with code 2 has written nothing to standard
    output and ended its standard error with the usage message. *)
Theorem main_exit_2 prog arguments :
  status (main terminal prog arguments) = Exit 2 →
  stdout (main terminal prog arguments) = [] ∧
  last (stderr (main terminal prog arguments)) = Some flag.UsageCalled.
Proof.
  destruct (main_cases prog arguments) as [| |? e]; cbn; try done.
  intros _. by rewrite FlagExit_stderr.
Qed.

(** No run writes to both streams: when standard error is redirected
    to standard output, the order of the writes is never in question. *)
Lemma main_one_stream prog arguments :
  stdout (main terminal prog arguments) = [] ∨
  stderr (main terminal prog arguments) = [].
Proof. destruct (main_cases prog arguments); cbn; auto. Qed.

(** The usage message of the three flags. *)
Lemma usageText_spiderFlags prog :
  usageText (spiderFlags prog) = Some (spiderUsage prog).
Proof. reflexivity. Qed.

(** The error stream of the run holds what the command line's flag set
    has written when parsing ends, and its bytes are those that this
    flag set prints. *)
Lemma main_stderr_output prog arguments cl :
  flag.finalFlagSet (flag.Parse (spiderFlags prog) arguments) = Some cl →
  stderr (main terminal prog arguments) = flag.output cl ∧
  stderrText prog (main terminal prog arguments) = outputText cl.
Proof.
  intros Hcl. assert (stderr (main terminal prog arguments) = flag.output cl) as Hout.
  { rewrite main_unfold. destruct (flag.Parse _ _); simplify_eq/=; try done;
      rewrite afterParse_spec; by case_bool_decide. }
  split; [done|]. unfold stderrText. rewrite Hout. symmetry.
  by eapply outputText_sameDecls, flag.Parse_sameDecls.
Qed.

(** Standard error on a terminal and on a file. *)
Lemma stderrOn_terminal {W'} prog (o : outcome W') :
  stderrOn terminal prog o = stderrText prog o.
Proof.
  unfold stderrOn, stderrText. rewrite <-eventsChunks_concat.
  destruct (eventsChunks _ _); [|done]. cbn. by rewrite writeEach_buffer.
Qed.

Lemma stderrOn_file {W'} prog (o : outcome W') m :
  stderrOn (mkFile [] m) prog o =
  (λ err, mkFile (take m err) (m - length err)) <$> stderrText prog o.
Proof.
  unfold stderrOn, stderrText. rewrite <-eventsChunks_concat.
  destruct (eventsChunks _ _); [|done]. cbn. by rewrite writeEach_file.
Qed.

(** The report of a panic on a file: what fits of the line of the panic
    and the traceback. *)
Lemma fatalpanic_file f traceback v :
  content <$> fatalpanic f traceback v =
  (λ msg, content f ++
          take (room f) (B "panic: " ++ msg ++ [LF] ++ concat traceback)) <$>
  printpanicval v.
Proof.
  unfold fatalpanic, printpanics. destruct (printpanicval v) as [msg|]; [|done].
  cbn [mbind option_bind fmap option_fmap option_map]. by rewrite writeEach_file.
Qed.

(** Standard error in a file when the process has ended. *)
Lemma stderrAtExit_file {W'} prog traceback (o : outcome W') m :
  content <$> stderrAtExit (mkFile [] m) prog traceback o =
  err ← stderrText prog o;
  match status o with
  | Panic v =>
    (λ msg, take m (err ++ B "panic: " ++ msg ++ [LF] ++ concat traceback)) <$>
    printpanicval v
  | _ => Some (take m err)
  end.
Proof.
  unfold stderrAtExit. rewrite stderrOn_file.
  destruct (stderrText prog o) as [err|]; [|done]. cbn [fmap option_fmap option_map mbind option_bind].
  destruct (status o) as [| v|]; [done| |done].
  rewrite fatalpanic_file. cbn [content room].
  destruct (printpanicval v); [|done]. cbn. by rewrite take_app.
Qed.

Lemma stderrText_stderr {W1 W2} prog (o1 : outcome W1) (o2 : outcome W2) :
  stderr o1 = stderr o2 → stderrText prog o1 = stderrText prog o2.
Proof. unfold stderrText. by intros ->. Qed.

(** The bytes that an error of the flag package leaves on standard
    error. *)
Lemma stderrText_errorEvents {W} prog (out : W) e st :
  stderrText prog (mkOutcome out (flag.errorEvents e) st) =
  Some (match e with
        | flag.ErrHelp => []
        | _ => flag.errorText e ++ [LF]
        end ++ spiderUsage prog).
Proof. by apply eventsText_errorEvents. Qed.

(** C10: the bytes on standard error, by exit status.  A run that exits
    with code 2 has written the line of a flag error and then the usage
    message of the three flags; a run that exits with code 0 has
    written nothing there, or was asked for help and has written the
    usage message alone; a run that exits with code 1 has written
    nothing there. *)
Theorem main_stderrText prog arguments :
  match status (main terminal prog arguments) with
  | Exit 2 =>
    stdout (main terminal prog arguments) = [] ∧
    ∃ e, e ≠ flag.ErrHelp ∧
      stderrText prog (main terminal prog arguments) =
      Some (flag.errorText e ++ [LF] ++ spiderUsage prog)
  | Exit 0 =>
    stderrText prog (main terminal prog arguments) = Some [] ∨
    (stdout (main terminal prog arguments) = [] ∧
     stderrText prog (main terminal prog arguments) = Some (spiderUsage prog))
  | _ => stderrText prog (main terminal prog arguments) = Some []
  end.
Proof.
  destruct (main_cases prog arguments) as [| |cl e]; cbn [status stdout];
    [done|by left|].
  rewrite stderrText_errorEvents.
  destruct e; cbn [flag.exitCode bool_decide decide_rel]; [by right|..];
    (split; [done|]); eexists; (split; [|by rewrite (assoc_L (++))]); done.
Qed.

(** The three flags are the ones defined. *)
Lemma spiderFlags_dom prog k :
  k ∈ dom (flag.formal (spiderFlags prog)) ↔ k ∈ [B "name"; B "doc"; B "url"].
Proof.
  cbn [spiderFlags flag.formal]. rewrite !dom_insert, dom_empty.
  rewrite !elem_of_union, !elem_of_singleton, elem_of_empty, !elem_of_cons, elem_of_nil.
  tauto.
Qed.

Lemma defined_flag prog k :
  k ∈ [B "name"; B "doc"; B "url"] →
  flag.validName k ∧ k ∈ dom (flag.formal (spiderFlags prog)).
Proof.
  intros Hk. split; [|by apply spiderFlags_dom].
  revert Hk. rewrite !elem_of_cons, elem_of_nil.
  intros [->|[->|[->|[]]]]; apply (bool_decide_unpack _); by vm_compute.
Qed.

(** C9: the runs that exit with code 0.  Either the flags parse and
    the name is not empty: the run has written the rendering of the
    spider of the command line to standard output, and nothing else.
    Or the run was asked for help: its command line is made of
    settings of the three flags and then an argument that names [help]
    or [h], with one dash or two and with or without a value; the run
    has written nothing to standard output and the usage message of
    the three flags, and only that, to standard error, whatever comes
    after the request. *)
Theorem main_exit_0 prog arguments :
  status (main terminal prog arguments) = Exit 0 →
  (∃ cl, flag.Parse (spiderFlags prog) arguments = flag.Parsed cl ∧
     Name (spiderOf cl spiderPtrs) ≠ [] ∧
     main terminal prog arguments =
     mkOutcome (spec (spiderOf cl spiderPtrs)) [] (Exit 0)) ∨
  (∃ ss two k ov rest,
     arguments = commandLine ss (flag.flagArg two k ov :: rest) ∧
     (k = B "help" ∨ k = B "h") ∧
     Forall (λ s, key s ∈ [B "name"; B "doc"; B "url"]) ss ∧
     main terminal prog arguments = mkOutcome [] [flag.UsageCalled] (Exit 0) ∧
     stderrText prog (main terminal prog arguments) = Some (spiderUsage prog)).
Proof.
  pose proof (parsesTo_Parse (spiderFlags prog) arguments) as Hrules.
  destruct (main_cases prog arguments) as [|cl Hparse Hname|cl e Hparse Hout];
    cbn [status]; [done|intros _; left; by exists cl|].
  intros [= He]. right. assert (e = flag.ErrHelp) as ->.
  { unfold flag.exitCode in He. by case_bool_decide. }
  destruct (parsesTo_help _ _ _ cl Hrules eq_refl Hparse)
    as (ss & two & k & ov & rest & Hargs & Hk & _ & Hss).
  exists ss, two, k, ov, rest. split_and!; [done..| |done|by apply stderrText_errorEvents].
  eapply Forall_impl; [done|]. intros s [_ Hs]. by apply (spiderFlags_dom prog).
Qed.

Lemma spiderFlags_okSetting prog s :
  key s ∈ [B "name"; B "doc"; B "url"] → okSetting (spiderFlags prog) s.
Proof. apply defined_flag. Qed.

(** The spider that a run on settings of the three flags builds. *)
Lemma spiderOf_settings prog ss rest cl :
  Forall (λ s, key s ∈ [B "name"; B "doc"; B "url"]) ss → endsFlags rest →
  flag.Parse (spiderFlags prog) (commandLine ss rest) = flag.Parsed cl →
  spiderOf cl spiderPtrs = assignedSpider (settingKV <$> ss).
Proof.
  intros Hss Hrest. rewrite Parse_commandLine; [|by eapply Forall_impl,
    spiderFlags_okSetting|done].
  intros [= <-]. unfold spiderOf, spiderPtrs, assignedSpider. cbn [fst snd].
  change (flag.deref (flag.setArgs ?g _)) with (flag.deref g).
  rewrite !flag.deref_assignments; [done|..]; apply Forall_fmap;
    (eapply Forall_impl; [done|]); intros s Hs; by apply spiderFlags_dom.
Qed.

(** C2: on a command line of settings of the three flags, in any
    number and order, each written [-k=v], [--k=v], [-k v] or [--k v],
    and followed by nothing, by [--] or by an argument that is no flag,
    [main] builds the spider from the last value given to each flag,
    [www.example.com] for an absent [url] and the empty string for an
    absent [doc]; it exits with code 1 if the name is empty and
    otherwise writes the rendering and exits with code 0.  The
    arguments after the settings are not looked at. *)
Theorem main_settings prog ss rest :
  Forall (λ s, key s ∈ [B "name"; B "doc"; B "url"]) ss → endsFlags rest →
  main terminal prog (commandLine ss rest) =
  if bool_decide (Name (assignedSpider (settingKV <$> ss)) = []) then
    mkOutcome needsNameMessage [] (Exit 1)
  else mkOutcome (spec (assignedSpider (settingKV <$> ss))) [] (Exit 0).
Proof.
  intros Hss Hrest. pose proof (spiderOf_settings prog ss rest) as Hsp.
  destruct (main_cases prog (commandLine ss rest)) as [cl Hcl Hn|cl Hcl Hn|cl e Hcl].
  - rewrite bool_decide_true; [done|]. by rewrite <-(Hsp cl).
  - rewrite bool_decide_false, <-(Hsp cl); [done..|]. by rewrite <-(Hsp cl).
  - rewrite Parse_commandLine in Hcl; [done| |done].
    by eapply Forall_impl, spiderFlags_okSetting.
Qed.

(** ** Standard output that may fail *)

Section any_stdout.
Context `{WriterOk W}.
Implicit Types (Stdout : W).

(** Lines 59-78 on any standard output against lines 59-78 on a
    terminal. *)
Lemma afterParse_refines Stdout cl ptrs :
  outcomeRefines Stdout (afterParse terminal cl ptrs) (afterParse Stdout cl ptrs).
Proof.
  rewrite afterParse_spec. unfold afterParse. case_bool_decide.
  - rewrite Printf_needsNameMessage.
    destruct (Write Stdout needsNameMessage) as [[out n] eo] eqn:Hw.
    split; [done|]. exists (take n needsNameMessage).
    split; [by eapply Write_written|]. split; [apply prefix_take|]. left. by split; [|right].
  - destruct (generate_writeChunks Stdout (spiderOf cl ptrs) (flag.output cl))
      as (chunks & Hchunks & ->).
    destruct (writeChunks Stdout (chunks, None)) as [out eo] eqn:Hw.
    apply writeChunks_written in Hw as (b & Hb & Hpre & Hcase).
    cbn [fst snd] in *. rewrite Hchunks in *.
    destruct Hcase as [[-> Hall]|[e ->]]; (split; [done|]); exists b;
      (split; [done|]); (split; [done|]); [left; by split; [|left]|].
    right. by split; [|exists e].
Qed.

Lemma main_outcomeRefines Stdout prog arguments :
  outcomeRefines Stdout (main terminal prog arguments) (main Stdout prog arguments).
Proof.
  run_cases (main_Parse prog arguments) cl e Hparse Hout; [apply afterParse_refines|].
  split; [done|]. exists []. rewrite app_nil_r. by split; [|split; [|left; split; [|left]]].
Qed.

(** C11: [main] on any standard output that keeps the contract of
    [io.Writer] against [main] on a terminal.  The program writes the
    same to standard error.  Standard output receives a prefix of what
    the terminal receives.  The run ends the way the run on the terminal does,
    having written all of the output when the code is 0 or 2, or else
    a write of the rendering has failed and the run ends with the panic
    of line 77 where the run on the terminal ends with code 0. *)
Theorem main_refines Stdout prog arguments :
  outcomeRefines Stdout (main terminal prog arguments) (main Stdout prog arguments).
Proof. apply main_outcomeRefines. Qed.

(** C13: the exit code can be trusted.  Whatever the arguments and
    whatever standard output does within the contract of [io.Writer],
    the process ends with code 0, 1 or 2; and when a run ends with code
    0, standard output has received all of what a terminal receives:
    no run reports success over a spider that was cut short. *)
Theorem main_success_complete Stdout prog arguments :
  exitStatusCode (status (main Stdout prog arguments)) ∈ [Some 0; Some 1; Some 2] ∧
  (status (main Stdout prog arguments) = Exit 0 →
   written (stdout (main Stdout prog arguments)) =
   written Stdout ++ stdout (main terminal prog arguments)).
Proof.
  destruct (main_outcomeRefines Stdout prog arguments) as (_ & b & Hb & _ & Hcase).
  split.
  - destruct Hcase as [[-> _]|[_ [e ->]]]; [|cbn; rewrite !elem_of_cons; auto].
    destruct (main_cases prog arguments) as [| |? e]; cbn [status exitStatusCode];
      [..|destruct (flag.exitCode_cases e) as [-> | ->]];
      rewrite !elem_of_cons; auto.
  - intros Ho. destruct Hcase as [[Heq [->|Hi]]|[_ [e He]]]; [done|congruence..].
Qed.
End any_stdout.

(** Lines 59-78 with a file as standard output. *)
Lemma afterParse_file cl ptrs n :
  let i := afterParse terminal cl ptrs in
  let o := afterParse (mkFile [] n) cl ptrs in
  content (stdout o) = take n (stdout i) ∧ stderr o = stderr i ∧
  status o = match status i with
             | Exit 0 =>
               if decide (length (stdout i) ≤ n) then Exit 0
               else Panic (PanicExecute (ExecWrite (PathError ENOSPC)))
             | st => st
             end.
Proof.
  cbn zeta. rewrite afterParse_spec. unfold afterParse. case_bool_decide.
  - rewrite Printf_needsNameMessage. cbn [Write file_writer]. unfold fileWrite.
    case_decide; cbn; [by rewrite take_ge|done].
  - destruct (generate_writeChunks (mkFile [] n) (spiderOf cl ptrs) (flag.output cl))
      as (chunks & Hchunks & ->).
    rewrite writeChunks_file. cbn [fst snd room content stdout status].
    rewrite Hchunks. case_decide; cbn; [by rewrite take_ge|done].
Qed.

Lemma main_file prog arguments n :
  let i := main terminal prog arguments in
  let o := main (mkFile [] n) prog arguments in
  content (stdout o) = take n (stdout i) ∧ stderr o = stderr i ∧
  status o = match status i with
             | Exit 0 =>
               if decide (length (stdout i) ≤ n) then Exit 0
               else Panic (PanicExecute (ExecWrite (PathError ENOSPC)))
             | st => st
             end.
Proof.
  cbn zeta. run_cases (main_Parse prog arguments) cl e Hparse Hout; [apply afterParse_file|].
  cbn [stdout stderr status content]. unfold terminal. rewrite take_nil.
  destruct (flag.exitCode_cases e) as [-> | ->];
    [rewrite decide_True by (simpl; lia)|]; done.
Qed.

(** The only panic of a run is that of line 77 on the error of a write,
    whatever standard output does: the runtime's report of it is within
    the model. *)
Lemma main_panicText `{Writer W} (Stdout : W) prog arguments v :
  status (main Stdout prog arguments) = Panic v →
  ∃ e, v = PanicExecute (ExecWrite e) ∧ printpanicval v = Some (Error e).
Proof.
  run_cases (main_Parse prog arguments) cl e Hparse Hout; [|done].
  unfold afterParse. case_bool_decide.
  - rewrite Printf_needsNameMessage. by destruct (Write _ _) as [[??]?].
  - destruct (generate_writeChunks Stdout (spiderOf cl spiderPtrs) (flag.output cl))
      as (chunks & _ & ->).
    unfold writeChunks. destruct (writeAll _ _) as [out [e|]]; [|done].
    intros [= <-]. by exists e.
Qed.

(** C12: [main] with the standard streams on devices that have room
    for [n] and for [m] more bytes.  The file of standard output
    receives the first [n] bytes of what a terminal receives.  The run
    ends the way the run on the terminal does, except that a rendering
    that does not fit ends with the panic of line 77 on [ENOSPC] in
    place of code 0, the partial spider left in the file.  The file of
    standard error receives the first [m] bytes of what the terminal
    receives there, and after a panic the first [m] bytes of the
    runtime's report: the line [panic: write /dev/stdout: no space left
    on device] and the traceback.  The errors of the other writes
    change nothing: the lost message of line 60 still ends with code 1,
    a lost report of package [flag] with code 2. *)
Theorem main_no_space prog arguments traceback n m :
  let i := main terminal prog arguments in
  let o := main (mkFile [] n) prog arguments in
  content (stdout o) = take n (stdout i) ∧
  status o = match status i with
             | Exit 0 =>
               if decide (length (stdout i) ≤ n) then Exit 0
               else Panic (PanicExecute (ExecWrite (PathError ENOSPC)))
             | st => st
             end ∧
  content <$> stderrAtExit (mkFile [] m) prog traceback o =
  take m <$> match status o with
             | Panic _ =>
               Some (B "panic: write /dev/stdout: no space left on device" ++
                     [LF] ++ concat traceback)
             | _ => stderrText prog i
             end.
Proof.
  destruct (main_file prog arguments n) as (Hout & Herr & Hstatus).
  split; [done|]. split; [done|].
  rewrite stderrAtExit_file, (stderrText_stderr _ _ _ Herr). cbn zeta in Hstatus.
  destruct (main_cases prog arguments) as [| |cl e]; cbn [status stdout] in *;
    [by rewrite Hstatus| |by rewrite stderrText_errorEvents, Hstatus;
                           destruct (flag.exitCode_cases e) as [-> | ->]].
  case_decide; by rewrite Hstatus.
Qed.
End main_lemmas.

(** ** Runs of the Go program *)

Section go_runs.

(** The output for the command line of the usage comment (line 9). *)
Definition marineTrafficOutput : bytes := rawLines [
  B "# -*- coding: utf-8 -*-";
  [];
  tripleQuote ++ B "MarineTraffic.";
  [];
  B "scrape MT";
  [];
  tripleQuote;
  [];
  B "import scrapy";
  [];
  [];
  B "class MarineTrafficSpider(scrapy.Spider):";
  [];
  B "    name = 'MarineTraffic'";
  B "    start_urls = [ www.mt.com ]";
  [];
  B "    def parse(self, response):";
  B "        print(response.body)"
].

(** A run of the model on the command line of the usage comment,
    [-name=MarineTraffic -doc="scrape MT" -url=www.mt.com]: an instance
    of [main_exit_0] and [parseAndExecute_regions], kept as a test of
    the definitions. *)
Example main_MarineTraffic :
  main terminal usageProgram usageArguments = mkOutcome marineTrafficOutput [] (Exit 0).
Proof. by vm_compute. Qed.

(** C31: how much room is enough.  The spider of a run that renders
    has the bytes of the template text and between one and five bytes
    for each byte of the doc and the URL and of the name three times;
    on a device with room for that many bytes the run writes the whole
    spider and exits with code 0. *)
Theorem main_enough_room prog arguments cl n :
  flag.Parse (spiderFlags prog) arguments = flag.Parsed cl →
  flag.deref cl (B "name") ≠ [] →
  let sp := spiderOf cl spiderPtrs in
  let k := 3 * length (Name sp) + length (Doc sp) + length (URL sp) in
  spiderTextLength + k ≤ length (render_spec sp) ≤ spiderTextLength + 5 * k ∧
  (spiderTextLength + 5 * k ≤ n →
   main (mkFile [] n) prog arguments =
   mkOutcome (mkFile (render_spec sp) (n - length (render_spec sp))) [] (Exit 0)).
Proof.
  intros Hparse Hname. cbn zeta.
  pose proof (render_spec_bounds (spiderOf cl spiderPtrs)) as Hlen. cbn zeta in Hlen.
  split; [done|]. intros Hn.
  rewrite main_unfold, Hparse. unfold afterParse.
  rewrite bool_decide_false, (Parsed_output prog arguments cl) by done.
  destruct (generate_writeChunks (spec:=render_spec) (mkFile [] n)
              (spiderOf cl spiderPtrs) []) as (chunks & Hchunks & ->).
  rewrite writeChunks_file. cbn [fst snd room content]. rewrite Hchunks.
  by rewrite decide_True by lia.
Qed.

(** C24: the writes of a run, in order.  A run whose flags parse makes
    one write with the message of line 60 when the name is empty, and
    otherwise eleven writes, the six texts of the template and between
    them the escaped name, doc, name, name and URL; a run that the flag
    package ends does not write to standard output. *)
Theorem main_writes prog arguments :
  calls (stdout (main (mkRecorder []) prog arguments)) =
  match flag.Parse (spiderFlags prog) arguments with
  | flag.Parsed cl =>
    if bool_decide (flag.deref cl (B "name") = []) then [needsNameMessage]
    else renderSegment (spiderOf cl spiderPtrs) <$> spiderSegments
  | _ => []
  end.
Proof.
  run_cases (main_Parse prog arguments) cl e Hparse Hout; [|done].
  unfold afterParse. cbn [spiderPtrs fst]. case_bool_decide; [done|].
  unfold generate. cbn [engineParse engineExecute goEngine].
  rewrite parse_spiderTemplate, Execute_writeChunks, executeChunks_spiderTree.
  by rewrite writeChunks_recorder.
Qed.

(** Without arguments the name is empty. *)
Lemma main_no_arguments prog :
  main terminal prog [] = mkOutcome needsNameMessage [] (Exit 1).
Proof. reflexivity. Qed.

(** The values of the fields are not written as they are: the
    engine is [html/template], and a name [A&B] appears as [A&amp;B]. *)
Theorem main_escapes_fields :
  infix (B "class A&amp;BSpider")
        (stdout (main terminal (B "swissknife") [B "-name=A&B"])) ∧
  ¬ infix (B "A&B") (stdout (main terminal (B "swissknife") [B "-name=A&B"])).
Proof. split; apply (bool_decide_unpack _); by vm_compute. Qed.

(** The flag that the comment of line 48 plans is not defined yet:
    [-type=ais] ends the run with code 2, nothing on standard output,
    and on standard error the complaint of the flag package followed
    by the usage message. *)
Theorem main_undefined_type :
  let o := main terminal (B "swissknife") [B "-type=ais"; B "-name=MarineTraffic"] in
  status o = Exit 2 ∧ stdout o = [] ∧
  stderrText (B "swissknife") o = Some (
    B "flag provided but not defined: -type" ++ [LF] ++
    B "Usage of swissknife:" ++ [LF] ++
    B "  -doc string" ++ [LF] ++
    B "    " ++ [TAB] ++ B "spider doc" ++ [LF] ++
    B "  -name string" ++ [LF] ++
    B "    " ++ [TAB] ++ B "spider name" ++ [LF] ++
    B "  -url string" ++ [LF] ++
    B "    " ++ [TAB] ++ B "start url to scrape (default " ++
      [DQUOTE] ++ B "www.example.com" ++ [DQUOTE] ++ B ")" ++ [LF]).
Proof. by vm_compute. Qed.

(** A request for help ends the run with code 0 and nothing on
    standard output. *)
Theorem main_help prog :
  main terminal prog [B "-h"] = mkOutcome [] [flag.UsageCalled] (Exit 0).
Proof. reflexivity. Qed.

(** The general theorems at concrete command lines. *)
Lemma main_status_witness :
  status (main terminal (B "swissknife") [B "-name=x"; B "--bogus"]) ∈
  [Exit 0; Exit 1; Exit 2].
Proof. apply (main_status (spec:=render_spec)). Defined.

(** An engine that rejects every template: with it the panic of line
    73 is reached as soon as a name is given. *)
Definition rejectingEngine : TemplateEngine := {|
  Template := unit;
  engineParse _ := Err (ParseFailed ErrEmptyCommand);
  engineExecute _ _ _ _ wr := (wr, None);
|}.

Lemma main_panics_iff_witness :
  ∃ p, status (main (H:=rejectingEngine) terminal (B "swissknife") [B "-name=x"]) = Panic p.
Proof.
  apply main_panics_iff. eexists. split; [by vm_compute|].
  split; [by vm_compute|]. by intros (? & ? & _).
Defined.

Lemma main_mainSpec_witness :
  mainSpec render_spec (B "swissknife") [B "-doc=x"]
    (mkOutcome needsNameMessage [] (Exit 1)).
Proof. by apply (main_mainSpec (spec:=render_spec)). Defined.

Lemma main_settings_witness :
  main terminal (B "swissknife")
       (commandLine [mkSetting false (B "url") (B "a.org") true;
                     mkSetting true (B "name") (B "N") false;
                     mkSetting false (B "url") (B "b.org") false]
                    [B "--"; B "-name=M"]) =
  if bool_decide (Name (assignedSpider
       [(B "url", B "a.org"); (B "name", B "N"); (B "url", B "b.org")]) = [])
  then mkOutcome needsNameMessage [] (Exit 1)
  else mkOutcome (render_spec (assignedSpider
       [(B "url", B "a.org"); (B "name", B "N"); (B "url", B "b.org")])) [] (Exit 0).
Proof.
  apply (main_settings (spec:=render_spec)); apply (bool_decide_unpack _);
    by vm_compute.
Defined.

Lemma main_exit_1_witness :
  stdout (main terminal (B "swissknife") [B "-doc=x"]) = needsNameMessage ∧
  stderr (main terminal (B "swissknife") [B "-doc=x"]) = [].
Proof. apply (main_exit_1 (spec:=render_spec)). by vm_compute. Defined.

(** A request for help after a setting, with an argument after it. *)
Lemma main_exit_0_witness :
  let prog := B "swissknife" in
  let arguments := [B "-name"; B "x"; B "--help"; B "-bogus"] in
  (∃ cl, flag.Parse (spiderFlags prog) arguments = flag.Parsed cl ∧
     Name (spiderOf cl spiderPtrs) ≠ [] ∧
     main terminal prog arguments =
     mkOutcome (render_spec (spiderOf cl spiderPtrs)) [] (Exit 0)) ∨
  (∃ ss two k ov rest,
     arguments = commandLine ss (flag.flagArg two k ov :: rest) ∧
     (k = B "help" ∨ k = B "h") ∧
     Forall (λ s, key s ∈ [B "name"; B "doc"; B "url"]) ss ∧
     main terminal prog arguments = mkOutcome [] [flag.UsageCalled] (Exit 0) ∧
     stderrText prog (main terminal prog arguments) = Some (spiderUsage prog)).
Proof. apply (main_exit_0 (spec:=render_spec)). by vm_compute. Defined.

Lemma main_stderrText_witness :
  match status (main terminal (B "swissknife") [B "-name"]) with
  | Exit 2 =>
    stdout (main terminal (B "swissknife") [B "-name"]) = [] ∧
    ∃ e, e ≠ flag.ErrHelp ∧
      stderrText (B "swissknife") (main terminal (B "swissknife") [B "-name"]) =
      Some (flag.errorText e ++ [LF] ++ spiderUsage (B "swissknife"))
  | Exit 0 =>
    stderrText (B "swissknife") (main terminal (B "swissknife") [B "-name"]) = Some [] ∨
    (stdout (main terminal (B "swissknife") [B "-name"]) = [] ∧
     stderrText (B "swissknife") (main terminal (B "swissknife") [B "-name"]) =
     Some (spiderUsage (B "swissknife")))
  | _ => stderrText (B "swissknife") (main terminal (B "swissknife") [B "-name"]) = Some []
  end.
Proof. apply (main_stderrText (spec:=render_spec)). Defined.

Lemma main_refines_witness :
  outcomeRefines (mkFile [] 40) (main terminal usageProgram usageArguments)
    (main (mkFile [] 40) usageProgram usageArguments).
Proof. apply (main_refines (spec:=render_spec)). Defined.

Lemma main_success_complete_witness :
  exitStatusCode (status (main (mkFile [] 300) usageProgram usageArguments)) ∈
    [Some 0; Some 1; Some 2] ∧
  (status (main (mkFile [] 300) usageProgram usageArguments) = Exit 0 →
   written (stdout (main (mkFile [] 300) usageProgram usageArguments)) =
   written (mkFile [] 300) ++ stdout (main terminal usageProgram usageArguments)).
Proof. apply (main_success_complete (spec:=render_spec)). Defined.

Lemma main_no_space_witness :
  let i := main terminal usageProgram usageArguments in
  let o := main (mkFile [] 40) usageProgram usageArguments in
  content (stdout o) = take 40 (stdout i) ∧
  status o = match status i with
             | Exit 0 =>
               if decide (length (stdout i) ≤ 40) then Exit 0
               else Panic (PanicExecute (ExecWrite (PathError ENOSPC)))
             | st => st
             end ∧
  content <$> stderrAtExit (mkFile [] 30) usageProgram [[LF]; B "goroutine 1"] o =
  take 30 <$> match status o with
              | Panic _ =>
                Some (B "panic: write /dev/stdout: no space left on device" ++
                      [LF] ++ concat [[LF]; B "goroutine 1"])
              | _ => stderrText usageProgram i
              end.
Proof. apply (main_no_space (spec:=render_spec)). Defined.

(** An undefined flag with room for 20 bytes on standard error. *)
Lemma main_undefined_type_no_space :
  content <$> stderrOn (mkFile [] 20) (B "swissknife")
    (main terminal (B "swissknife") [B "-type=ais"]) =
  Some (B "flag provided but no").
Proof. by vm_compute. Qed.

(** The command line of the usage comment with room for 40 bytes on
    the device: the file holds the start of the spider, and the run
    ends with the panic of line 77. *)
Lemma main_MarineTraffic_no_space :
  main (mkFile [] 40) usageProgram usageArguments =
  mkOutcome (mkFile ([LF] ++ B "# -*- coding: utf-8 -*-" ++ [LF; LF] ++
                     tripleQuote ++ B "MarineTraff") 0) []
            (Panic (PanicExecute (ExecWrite (PathError ENOSPC)))).
Proof. by vm_compute. Qed.

(** The same run with room for 60 bytes on standard error: the file
    holds the line of the panic and the start of the traceback. *)
Lemma main_MarineTraffic_report :
  content <$> stderrAtExit (mkFile [] 60) usageProgram
    [[LF]; B "goroutine 1 [running]:"; [LF]]
    (main (mkFile [] 40) usageProgram usageArguments) =
  Some (B "panic: write /dev/stdout: no space left on device" ++ [LF; LF] ++
        B "goroutine").
Proof. by vm_compute. Qed.

Lemma main_enough_room_witness :
  let sp := mkSpider (B "MarineTraffic") (B "scrape MT") (B "www.mt.com") in
  let k := 3 * length (Name sp) + length (Doc sp) + length (URL sp) in
  spiderTextLength + k ≤ length (render_spec sp) ≤ spiderTextLength + 5 * k ∧
  (spiderTextLength + 5 * k ≤ 500 →
   main (mkFile [] 500) usageProgram usageArguments =
   mkOutcome (mkFile (render_spec sp) (500 - length (render_spec sp))) [] (Exit 0)).
Proof.
  apply (main_enough_room usageProgram usageArguments
           (default (spiderFlags usageProgram)
              (flag.finalFlagSet (flag.Parse (spiderFlags usageProgram) usageArguments))));
    by vm_compute.
Defined.

Lemma main_exit_2_witness :
  stdout (main terminal (B "swissknife") [B "-name"]) = [] ∧
  last (stderr (main terminal (B "swissknife") [B "-name"])) = Some flag.UsageCalled.
Proof. apply (main_exit_2 (spec:=render_spec)). by vm_compute. Defined.
End go_runs.
